(** * NoSQL embedded database (nosql.js): verification of the core engine

    Shallow embedding of the parts of [src/nosql.js] that the specification
    talks about: the operation scheduler ([DP.next], [TP.next]), the modify
    operators of the update pass, the in-place / tombstone write decision,
    the append path, the first-match readers, the JSON boolean rewrite, the
    table row codec and the counter engine; and of the code around them:
    paging, the header of a table file, reading a counter back, the
    backup writer, and the update and remove passes of a database kept in
    memory. *)

From Stdlib Require Import ZArith List Bool Lia QArith Qround.
From Stdlib Require Import Strings.String Strings.Ascii.
From Stdlib Require Import DecimalString DecimalZ DecimalPos.
From stdpp Require Import gmap strings.

Import ListNotations.
Local Open Scope Z_scope.
Set Warnings "-register-all".

(** * Part I: the embedding *)

(** ** The JavaScript built-ins the engine relies on

    Strings are byte strings (UTF-8); every pattern the engine searches for
    is ASCII, so searching bytes and searching UTF-16 code units agree.
    Numbers are modelled by integers plus [NaN]: counters, timestamps and
    the numeric cells used below are integers, and an integer below 1e21
    prints in plain decimal. *)

Module JS.
Local Open Scope string_scope.

Fixpoint drop (n : nat) (s : string) : string :=
  match n, s with
  | O, _ => s
  | S _, EmptyString => EmptyString
  | S k, String _ r => drop k r
  end.

Fixpoint take (n : nat) (s : string) : string :=
  match n, s with
  | O, _ => EmptyString
  | S _, EmptyString => EmptyString
  | S k, String c r => String c (take k r)
  end.

(** [s.substring(a, b)]: both bounds are clamped to [0 .. length] and
    swapped when out of order. *)
Definition substring (a b : Z) (s : string) : string :=
  let len := Z.of_nat (String.length s) in
  let a' := Z.max 0 (Z.min a len) in
  let b' := Z.max 0 (Z.min b len) in
  take (Z.to_nat (Z.max a' b' - Z.min a' b')) (drop (Z.to_nat (Z.min a' b')) s).

(** [s.substring(a)] *)
Definition substring_from (a : Z) (s : string) : string :=
  drop (Z.to_nat (Z.max 0 a)) s.

(** [s.indexOf(c)] for a one-character needle; -1 when absent. *)
Fixpoint indexOf_from (c : ascii) (s : string) (i : Z) : Z :=
  match s with
  | EmptyString => -1
  | String d r => if Ascii.eqb d c then i else indexOf_from c r (i + 1)
  end.

Definition indexOf (c : ascii) (s : string) : Z := indexOf_from c s 0.

(** [s.split(c)] for a one-character separator. *)
Fixpoint split (c : ascii) (s : string) : list string :=
  match s with
  | EmptyString => [EmptyString]
  | String d r =>
      if Ascii.eqb d c then EmptyString :: split c r
      else match split c r with
           | h :: t => String d h :: t
           | [] => [String d EmptyString]
           end
  end.

(** [arr.join(sep)] *)
Definition join (sep : string) (l : list string) : string := String.concat sep l.

(** [arr[i]] on an array of strings; [None] is [undefined]. *)
Definition at_index (l : list string) (i : nat) : option string := nth_error l i.

(** White space removed by [String.prototype.trim] (ASCII part). *)
Definition is_space (c : ascii) : bool :=
  let n := nat_of_ascii c in
  ((9 <=? n) && (n <=? 13))%nat || (n =? 32)%nat.

Fixpoint trim_start (s : string) : string :=
  match s with
  | EmptyString => EmptyString
  | String c r => if is_space c then trim_start r else s
  end.

Fixpoint trim_end (s : string) : string :=
  match s with
  | EmptyString => EmptyString
  | String c r =>
      match trim_end r with
      | EmptyString => if is_space c then EmptyString else String c EmptyString
      | r' => String c r'
      end
  end.

(** [s.trim()] *)
Definition trim (s : string) : string := trim_end (trim_start s).

(** A text that [trim] leaves alone at its end. *)
Definition ends_clean (s : string) : Prop := trim_end s = s /\ s <> EmptyString.

Fixpoint contains (c : ascii) (s : string) : bool :=
  match s with
  | EmptyString => false
  | String d r => Ascii.eqb d c || contains c r
  end.

Definition no_space (c : ascii) : bool := negb (is_space c).

Fixpoint all_chars (P : ascii -> bool) (s : string) : bool :=
  match s with
  | EmptyString => true
  | String c r => P c && all_chars P r
  end.

(** The characters of a printed integer. *)
Definition numeric (c : ascii) : bool :=
  let n := nat_of_ascii c in
  ((48 <=? n) && (n <=? 57))%nat || (n =? 45)%nat.

(** JavaScript numbers: integers and [NaN]. *)
Inductive number :=
| Num (z : Z)
| NaN.

(** [String(n)] *)
Definition number_to_string (n : number) : string :=
  match n with
  | Num z => NilZero.string_of_int (Z.to_int z)
  | NaN => "NaN"
  end.

(** [+s] ([Number(s)]) on the integer grammar; the empty string is 0 and
    anything that is not an optionally signed digit sequence is [NaN]
    here. The texts outside that grammar which JavaScript reads as
    numbers (fractions, exponents, other radixes, [Infinity]) are not
    modelled, and an integer is read exactly, as JavaScript reads a safe
    integer ([safe_integer] below). *)
Definition to_number (s : string) : number :=
  match trim s with
  | EmptyString => Num 0
  | t => match NilZero.int_of_string t with
         | Some d => Num (Z.of_int d)
         | None => NaN
         end
  end.

(** [a + b] on numbers, computed on the integers: the sum of the doubles
    when both operands and the sum are safe integers ([safe_integer]
    below). *)
Definition plus (a b : number) : number :=
  match a, b with
  | Num x, Num y => Num (x + y)%Z
  | _, _ => NaN
  end.

(** [a > b] and [a < b]: any comparison with [NaN] is false. *)
Definition gt (a b : number) : bool :=
  match a, b with
  | Num x, Num y => (y <? x)%Z
  | _, _ => false
  end.

Definition lt (a b : number) : bool := gt b a.

(** [Number.isSafeInteger]: the integers of less than [2 ^ 53] in
    magnitude. A number of the engine is a double; on safe integers whose
    sum, difference or product is safe again, [+], [-], [*] and the
    comparisons are those of the integers, a quotient that is an integer
    is computed exactly, and [Math.ceil(a / b)] is the ceiling of the
    exact quotient. Beyond [2 ^ 53] a double rounds ([2 ^ 53 + 1] is
    [2 ^ 53]), which [plus] and the other exact operations of this file
    do not follow: the properties that compute with numbers keep their
    operands and results safe. *)
Definition safe_integer (z : Z) : Prop := (- 2 ^ 53 < z < 2 ^ 53)%Z.

(** The double nearest to an integer (short of the largest double):
    below [2 ^ 53] in magnitude the integer itself; from there on the
    doubles are spaced by a power of two, and a tie goes to the even
    significand. *)
Definition round_double (z : Z) : Z :=
  let m := Z.abs z in
  if (m <? 2 ^ 53)%Z then z
  else
    let e := (Z.log2 m - 52)%Z in
    let q := (m / 2 ^ e)%Z in
    let r := (m mod 2 ^ e)%Z in
    let half := (2 ^ (e - 1))%Z in
    let q' := if (r <? half)%Z then q
              else if (half <? r)%Z then (q + 1)%Z
              else if Z.even q then q else (q + 1)%Z in
    (Z.sgn z * (q' * 2 ^ e))%Z.

(** [a + b] as the engine computes it on integers held in doubles: the
    sum, rounded. It is [plus] when the sum is a safe integer
    ([plus_double_safe] below); [plus] is the one the definitions of
    this file use. *)
Definition plus_double (a b : number) : number :=
  match a, b with
  | Num x, Num y => Num (round_double (x + y))
  | _, _ => NaN
  end.

(** The names every object literal inherits from [Object.prototype]:
    [o[name]] is not [undefined] for them although [o] has no such key of
    its own, and [o.__proto__ = v] stores nothing. *)
Definition object_prototype : list string :=
  ["constructor"; "toString"; "toLocaleString"; "valueOf"; "hasOwnProperty";
   "isPrototypeOf"; "propertyIsEnumerable"; "__proto__"; "__defineGetter__";
   "__defineSetter__"; "__lookupGetter__"; "__lookupSetter__"].

(** A key that reads as [undefined] in an object that does not hold it. *)
Definition own_key (k : string) : Prop := ~ In k object_prototype.

End JS.

(** ** The JSON document codec: [JSON.stringify(doc).replace(REGBOOL, JSONBOOL)] *)

Module Json.
Local Open Scope string_scope.

(** JSON values; an object keeps its members in insertion order. *)
Inductive value :=
| JNull
| JBool (b : bool)
| JNum (z : Z)
| JStr (s : string)
| JArr (l : list value)
| JObj (l : list (string * value)).

Definition dquote : ascii := "034"%char.

Definition hex_digit (n : nat) : ascii :=
  ascii_of_nat (if (n <? 10)%nat then 48 + n else 87 + n).

(** The escape [JSON.stringify] writes for one byte of a string. *)
Definition escape_char (c : ascii) : string :=
  let n := nat_of_ascii c in
  if (n =? 34)%nat then String "\" (String dquote EmptyString)
  else if (n =? 92)%nat then "\\"
  else if (n =? 8)%nat then "\b"
  else if (n =? 12)%nat then "\f"
  else if (n =? 10)%nat then "\n"
  else if (n =? 13)%nat then "\r"
  else if (n =? 9)%nat then "\t"
  else if (n <? 32)%nat
       then "\u00" ++ String (hex_digit (n / 16)) (String (hex_digit (n mod 16)) EmptyString)
  else String c EmptyString.

Fixpoint escape (s : string) : string :=
  match s with
  | EmptyString => EmptyString
  | String c r => escape_char c ++ escape r
  end.

Definition quote (s : string) : string :=
  String dquote (escape s ++ String dquote EmptyString).

(** Elements separated by commas. *)
Definition commas {A : Type} (f : A -> string) : list A -> string :=
  fix go (l : list A) : string :=
    match l with
    | [] => EmptyString
    | x :: r => f x ++ match r with
                       | [] => EmptyString
                       | _ :: _ => "," ++ go r
                       end
    end.

Definition bool_text (b : bool) : string := if b then "true" else "false".

(** [JSON.stringify(v)] *)
Fixpoint stringify (v : value) : string :=
  match v with
  | JNull => "null"
  | JBool b => bool_text b
  | JNum z => JS.number_to_string (JS.Num z)
  | JStr s => quote s
  | JArr l => "[" ++ commas stringify l ++ "]"
  | JObj l => "{" ++ commas (fun m => quote (fst m) ++ ":" ++ stringify (snd m)) l ++ "}"
  end.

(** How a boolean field shows in the text: the closing quote of its key,
    the colon and the value. *)
Definition field_text (b : bool) : string := String dquote (":" ++ bool_text b).

(** [const REGBOOL]: a double quote followed by [:true], searched
    globally. *)
Definition REGBOOL : string := String dquote ":true".

(** [const JSONBOOL]: the same text followed by a space. *)
Definition JSONBOOL : string := String dquote ":true ".

(** [s.replace(REGBOOL, JSONBOOL)]: every match, left to right, without
    overlap. [skip] counts the bytes of the current match still to pass. *)
Fixpoint replace_from (skip : nat) (s : string) : string :=
  match s with
  | EmptyString => EmptyString
  | String c r =>
      match skip with
      | S k => replace_from k r
      | O =>
          if String.prefix REGBOOL s then JSONBOOL ++ replace_from 5 r
          else String c (replace_from 0 r)
      end
  end.

Definition replace_REGBOOL (s : string) : string := replace_from 0 s.

(** The line [DP.insert] queues and [DP.$update] writes back. *)
Definition encode (d : value) : string := replace_REGBOOL (stringify d).

(** [Buffer.byteLength] of an encoded line. *)
Definition byteLength (s : string) : nat := String.length s.

(** A path to a field: object keys and array indexes. *)
Inductive step :=
| Key (k : string)
| Index (i : nat).

(** The member [k] of an object, replaced through [f]. *)
Fixpoint update_member (k : string) (f : value -> option value)
    (l : list (string * value)) : option (list (string * value)) :=
  match l with
  | [] => None
  | (k', v) :: r =>
      if String.eqb k' k then option_map (fun v' => (k', v') :: r) (f v)
      else option_map (cons (k', v)) (update_member k f r)
  end.

Fixpoint update_element (i : nat) (f : value -> option value)
    (l : list value) : option (list value) :=
  match l, i with
  | [], _ => None
  | v :: r, O => option_map (fun v' => v' :: r) (f v)
  | v :: r, S j => option_map (cons v) (update_element j f r)
  end.

Definition flip_bool (v : value) : option value :=
  match v with
  | JBool b => Some (JBool (negb b))
  | _ => None
  end.

(** The document with the boolean field at the end of the path toggled;
    [None] when the path does not lead to a boolean field of an object. *)
Fixpoint toggle (p : list step) (v : value) : option value :=
  match p with
  | [] => None
  | [Key k] =>
      match v with
      | JObj l => option_map JObj (update_member k flip_bool l)
      | _ => None
      end
  | Key k :: p' =>
      match v with
      | JObj l => option_map JObj (update_member k (toggle p') l)
      | _ => None
      end
  | Index i :: p' =>
      match v with
      | JArr l => option_map JArr (update_element i (toggle p') l)
      | _ => None
      end
  end.

End Json.

(** ** Documents as the engine sees them *)

Module Doc.

(** A field value. Dates carry their time in milliseconds, objects and
    arrays their JSON value. *)
Inductive jsval :=
| VUndefined
| VNull
| VBool (b : bool)
| VNum (n : JS.number)
| VStr (s : string)
| VDate (t : JS.number)
| VObj (j : Json.value).

(** A document or table row: an object from field names to values. *)
Abbreviation doc := (gmap string jsval).

(** [d[key]] *)
Definition get (d : doc) (key : string) : jsval := default VUndefined (d !! key).

(** JavaScript truthiness. *)
Definition truthy (v : jsval) : bool :=
  match v with
  | VUndefined | VNull => false
  | VBool b => b
  | VNum (JS.Num z) => negb (z =? 0)
  | VNum JS.NaN => false
  | VStr s => negb (String.eqb s EmptyString)
  | VDate _ | VObj _ => true
  end.

End Doc.

(** ** Operation scheduler: [DP.next] and [TP.next] *)

Module Scheduler.

(** The queues hold job descriptors; the scheduler only looks at their
    lengths, so the descriptor type is left open. *)
Section WithJobs.
Context {job : Type}.

(** Scheduler-visible part of a database instance. [pending_reindex] and
    [pending_drops] are flags in the source, the others are arrays. *)
Record db := mkdb {
  ready : bool;
  step : Z;
  writting : bool;
  reading : bool;
  inmemory : bool;
  pending_reindex : bool;
  pending_drops : bool;
  pending_clear : list job;
  pending_clean : list job;
  pending_locks : list job;
  pending_append : list job;
  pending_update : list job;
  pending_remove : list job;
  pending_reader : list job;
  pending_reader2 : list job;
  pending_streamer : list job
}.

(** The operations [next] can start, named after the methods it calls. *)
Inductive phase :=
| clear | clear_inmemory | clean | drop | lock
| append | append_inmemory | update | update_inmemory
| remove | remove_inmemory
| reader | reader3 | streamer.

(** What one call of [next] does: return at once, start one operation, or
    reset [step] to 0 and reschedule itself. *)
Inductive outcome :=
| Return
| Start (p : phase)
| Reschedule.

(** [const NEXTWAIT = { 7: true, 8: true, 9: true, 12: true, 13: true, 14: true }] *)
Definition NEXTWAIT (s : Z) : bool :=
  (s =? 7) || (s =? 8) || (s =? 9) || (s =? 12) || (s =? 13) || (s =? 14).

(** JavaScript truthiness of an array length. *)
Definition nonempty (q : list job) : bool :=
  match q with [] => false | _ :: _ => true end.

Definition neqb (a b : Z) : bool := negb (a =? b).

(** The body shared by [DP.next] and [TP.next] after their first guard.
    [mem] is [INMEMORY[this.name]], which only the document engine
    consults. *)
Definition next_body (mem : bool) (type : Z) (d : db) : outcome :=
  if negb (writting d) && negb (reading d) && neqb (step d) 12 && nonempty (pending_clear d)
  then Start (if mem then clear_inmemory else clear)
  else if negb (writting d) && negb (reading d) && neqb (step d) 13 && nonempty (pending_clean d)
  then Start clean
  else if negb (writting d) && negb (reading d) && neqb (step d) 7
          && negb (pending_reindex d) && pending_drops d
  then Start drop
  else if negb (writting d) && negb (reading d) && neqb (step d) 14 && nonempty (pending_locks d)
  then Start lock
  else if negb (writting d) && neqb (step d) 1 && negb (pending_reindex d)
          && nonempty (pending_append d)
  then Start (if mem then append_inmemory else append)
  else if negb (writting d) && neqb (step d) 2 && negb (writting d) && nonempty (pending_update d)
  then Start (if mem then update_inmemory else update)
  else if negb (writting d) && neqb (step d) 3 && negb (writting d) && nonempty (pending_remove d)
  then Start (if mem then remove_inmemory else remove)
  else if negb (reading d) && neqb (step d) 4 && nonempty (pending_reader d)
  then Start reader
  else if negb (reading d) && neqb (step d) 11 && nonempty (pending_reader2 d)
  then Start reader3
  else if negb (reading d) && neqb (step d) 10 && nonempty (pending_streamer d)
  then Start streamer
  else if neqb (step d) type then Reschedule
  else Return.

(** [DP.next = function(type)] *)
Definition DP_next (type : Z) (d : db) : outcome :=
  if neqb type 0 && NEXTWAIT (step d) then Return
  else next_body (inmemory d) type d.

(** [TP.next = function(type)]; tables have no in-memory mode. *)
Definition TP_next (type : Z) (d : db) : outcome :=
  if negb (ready d) || (neqb type 0 && NEXTWAIT (step d)) then Return
  else next_body false type d.

(** The only state change [next] makes itself is [this.step = 0] on the
    rescheduling path. *)
Definition after (o : outcome) (d : db) : db :=
  match o with
  | Reschedule =>
      mkdb (ready d) 0 (writting d) (reading d) (inmemory d) (pending_reindex d)
           (pending_drops d) (pending_clear d) (pending_clean d) (pending_locks d)
           (pending_append d) (pending_update d) (pending_remove d)
           (pending_reader d) (pending_reader2 d) (pending_streamer d)
  | _ => d
  end.

Definition writing_phase (p : phase) : bool :=
  match p with
  | append | append_inmemory | update | update_inmemory | remove | remove_inmemory => true
  | _ => false
  end.

Definition reading_phase (p : phase) : bool :=
  match p with
  | reader | reader3 | streamer => true
  | _ => false
  end.

Definition starts_nothing (o : outcome) : Prop := forall p, o <> Start p.

End WithJobs.
Arguments db : clear implicits.

End Scheduler.

(** ** Modify jobs: [DP.modify] and the key loop of [DP.$update] / [TP.$update] *)

Module Modify.
Local Open Scope string_scope.

(** The fields a modify job touches hold numbers, taken as rationals so
    that [/] is exact. Division by zero, which gives an infinity in
    JavaScript, is outside this model. A supplied value is a number or a
    function of the old field and the document. *)
Inductive modval :=
| Val (q : Q)
| Fn (f : option Q -> gmap string Q -> Q).

(** The descriptor pushed on [pending_update]; [inc] is [null] until the
    first prefixed key is met. *)
Record job := mkjob {
  doc : gmap string modval;
  keys : list string;
  inc : option (gmap string ascii)
}.

Definition is_sign (c : ascii) : bool :=
  Ascii.eqb c "+" || Ascii.eqb c "-" || Ascii.eqb c "*" || Ascii.eqb c "/".

(** [doc[tmp] = doc[key]; doc[key] = undefined]: an undefined field reads
    like an absent one. *)
Definition move_field (key tmp : string) (d : gmap string modval) : gmap string modval :=
  delete key (match d !! key with
              | Some v => <[tmp := v]> d
              | None => delete tmp d
              end).

(** The loop of [DP.modify] over [Object.keys(data)]. *)
Fixpoint modify_keys (ks : list string) (d : gmap string modval)
    (i : option (gmap string ascii)) : job :=
  match ks with
  | [] => mkjob d [] i
  | key :: rest =>
      match key with
      | String c tmp =>
          if is_sign c then
            let j := modify_keys rest (move_field key tmp d)
                       (Some (<[tmp := c]> (default ∅ i))) in
            mkjob (doc j) (tmp :: keys j) (inc j)
          else
            let j := modify_keys rest d i in
            mkjob (doc j) (key :: keys j) (inc j)
      | EmptyString =>
          let j := modify_keys rest d i in
          mkjob (doc j) (key :: keys j) (inc j)
      end
  end.

(** [DP.modify(doc)]: the job queued, if the object has any key. The
    object is given with its keys in insertion order. *)
Definition modify (data : list (string * modval)) : option job :=
  match data with
  | [] => None
  | _ => Some (modify_keys (map fst data) (list_to_map data) None)
  end.

(** [(output[key] || 0)] *)
Definition or0 (v : option Q) : Q :=
  match v with
  | Some q => if Qeq_bool q 0 then 0%Q else q
  | None => 0%Q
  end.

(** The [switch (item.inc[key])] of the update pass; [None] when no case
    applies and the field is left alone. The operators compute with
    rationals; the engine computes with doubles, which gives the same
    number on the operands of [ModifyMore.exact_operands]. *)
Definition apply_inc (sign : ascii) (old : option Q) (val : Q) : option Q :=
  if Ascii.eqb sign "+" then Some (or0 old + val)%Q
  else if Ascii.eqb sign "-" then Some (or0 old - val)%Q
  else if Ascii.eqb sign "*" then Some (or0 old + val)%Q
  else if Ascii.eqb sign "/" then Some (or0 old / val)%Q
  else None.

(** One key of the loop [for (var j = 0; j < item.keys.length; j++)].
    The objects [item.doc], [item.inc] and [output] are read by their own
    keys: a key that is a name every object literal inherits
    ([JS.object_prototype]) reads the inherited value instead and is
    outside this model. *)
Definition apply_key (j : job) (key : string) (output : gmap string Q) : gmap string Q :=
  match doc j !! key with
  | None => output
  | Some (Fn f) => <[key := f (output !! key) output]> output
  | Some (Val val) =>
      match inc j ≫= (fun i => i !! key) with
      | Some sign =>
          match apply_inc sign (output !! key) val with
          | Some r => <[key := r]> output
          | None => output
          end
      | None => <[key := val]> output
      end
  end.

(** The whole loop, applied to a matched document. *)
Definition apply_keys (j : job) (output : gmap string Q) : gmap string Q :=
  fold_left (fun o key => apply_key j key o) (keys j) output.

End Modify.

(** ** The write decision of the update pass: [DP.$update], [TP.$update] *)

Module Update.

(** Here the difference between [String.length] and [Buffer.byteLength]
    matters, so a JavaScript string is its sequence of UTF-16 code units
    and a file is a sequence of bytes. *)
Abbreviation jsstring := (list N).
Abbreviation bytes := (list N).

Local Open Scope N_scope.

Definition is_high (c : N) : bool := (0xD800 <=? c) && (c <=? 0xDBFF).
Definition is_low (c : N) : bool := (0xDC00 <=? c) && (c <=? 0xDFFF).

Definition utf8_2 (c : N) : bytes := [0xC0 + c / 64; 0x80 + c mod 64].
Definition utf8_3 (c : N) : bytes :=
  [0xE0 + c / 4096; 0x80 + (c / 64) mod 64; 0x80 + c mod 64].
Definition utf8_4 (c : N) : bytes :=
  [0xF0 + c / 262144; 0x80 + (c / 4096) mod 64; 0x80 + (c / 64) mod 64; 0x80 + c mod 64].
Definition replacement : bytes := [0xEF; 0xBF; 0xBD].

(** The UTF-8 bytes Node writes for a string: a surrogate pair becomes one
    four-byte sequence, a lone surrogate becomes U+FFFD. *)
Fixpoint utf8 (s : jsstring) : bytes :=
  match s with
  | [] => []
  | c :: r =>
      if c <? 0x80 then c :: utf8 r
      else if c <? 0x800 then utf8_2 c ++ utf8 r
      else if is_high c then
        match r with
        | d :: r' =>
            if is_low d
            then utf8_4 (0x10000 + (c - 0xD800) * 1024 + (d - 0xDC00)) ++ utf8 r'
            else replacement ++ utf8 r
        | [] => replacement
        end
      else if is_low c then replacement ++ utf8 r
      else utf8_3 c ++ utf8 r
  end.

(** Whether a string begins with the second half of a surrogate pair. *)
Definition starts_low (t : jsstring) : bool :=
  match t with
  | d :: _ => is_low d
  | [] => false
  end.

(** [Buffer.byteLength(s)] *)
Definition byteLength (s : jsstring) : nat := length (utf8 s).

(** [const NEWLINE = '\n'] *)
Definition NEWLINE : jsstring := [10].

(** The tombstone marker ['-'], which the table code reads from
    [fs.remchar]. *)
Definition remchar : jsstring := [45].

(** An entry of [fs.docsbuffer]: the text of a line, its length in bytes
    and its byte offset in the file. *)
Record rec := mkrec {
  doc : jsstring;
  length_ : nat;
  position : nat
}.

(** The two write capabilities of an update session. *)
Inductive write :=
| Write (data : jsstring) (pos : nat)
| Write2 (data : jsstring).

Definition jsstring_eqb (a b : jsstring) : bool :=
  bool_decide (a = b).

(** [s.substring(1)] *)
Definition substring1 (s : jsstring) : jsstring := tl s.

(** The tail of the [if (is)] block: what is written for a mutated
    document whose new encoding is [upd]. *)
Definition update_writes (upd : jsstring) (r : rec) : list write :=
  if jsstring_eqb upd (doc r) then []
  else if (length (doc r) =? length upd)%nat && (length_ r =? byteLength upd)%nat
  then [Write (upd ++ NEWLINE) (position r)]
  else [Write (remchar ++ substring1 (doc r) ++ NEWLINE) (position r);
        Write2 (upd ++ NEWLINE)].

(** [fs.write(data, position)] overwrites bytes where they are. *)
Definition fs_write (data : bytes) (pos : nat) (file : bytes) : bytes :=
  firstn pos file ++ data ++ skipn (pos + length data) file.

(** The file after the session: random writes land as they are issued,
    [write2] data is buffered and lands past the original end of file. *)
Fixpoint run_writes (ws : list write) (file tail : bytes) : bytes :=
  match ws with
  | [] => file ++ tail
  | Write data pos :: rest => run_writes rest (fs_write (utf8 data) pos file) tail
  | Write2 data :: rest => run_writes rest file (tail ++ utf8 data)
  end.

Definition in_place (ws : list write) (r : rec) (upd : jsstring) : Prop :=
  ws = [Write (upd ++ NEWLINE) (position r)].

Definition tombstone_and_append (ws : list write) (r : rec) (upd : jsstring) : Prop :=
  ws = [Write (remchar ++ substring1 (doc r) ++ NEWLINE) (position r);
        Write2 (upd ++ NEWLINE)].

End Update.

(** ** The append path: [DP.$append] *)

Module Append.
Local Open Scope string_scope.

(** [var JSONBUFFER = process.argv.findIndex(n => n.endsWith('nosqlworker.js')) === -1 ? 20 : 40] *)
Definition JSONBUFFER (worker : bool) : nat := if worker then 40%nat else 20%nat.

(** [const NEWLINE = '\n'] *)
Definition NEWLINE : string := String "010"%char EmptyString.

Section Jobs.
Context {builder : Type}.

(** An entry of [pending_append]: the encoded line and the builder handed
    back to the caller. [callback] tells whether [builder.$callback] is
    set (it is [NOOP] unless the caller replaced it by nothing). *)
Record item := mkitem {
  doc : string;
  builder_ : builder;
  callback : bool
}.

(** Modelled from the spec: [Array.prototype.limit] of the framework's
    utilities, which is not part of this file. It hands the array to the
    worker function in consecutive groups of at most [max] elements, one
    group after the other, and then calls the final callback. *)
Fixpoint limit_fuel (fuel max : nat) (l : list item) : list (list item) :=
  match fuel with
  | O => []
  | S f =>
      match l with
      | [] => []
      | _ :: _ => firstn max l :: limit_fuel f max (skipn max l)
      end
  end.

(** Modelled from the spec: [Array.prototype.limit], see [limit_fuel];
    the framework's utilities are not part of this file. *)
Definition limit (max : nat) (l : list item) : list (list item) :=
  match max with
  | O => []
  | S _ => limit_fuel (length l) max l
  end.

(** The [for] loop building [json] for one group. *)
Fixpoint group_json (items : list item) : string :=
  match items with
  | [] => EmptyString
  | i :: rest => (doc i ++ NEWLINE) ++ group_json rest
  end.

(** What the outside sees of an append pass. *)
Inductive event :=
| AppendFile (data : string)
| Callback (b : builder) (count : Z).

(** The callbacks of one group, in order: [callback && callback(err, 1)]. *)
Fixpoint group_callbacks (items : list item) : list event :=
  match items with
  | [] => []
  | i :: rest =>
      if callback i then Callback (builder_ i) 1 :: group_callbacks rest
      else group_callbacks rest
  end.

(** One group: a single [Fs.appendFile], then the callbacks. *)
Definition append_group (items : list item) : list event :=
  AppendFile (group_json items) :: group_callbacks items.

(** The state [DP.$append] works on. *)
Record state := mkstate {
  step : Z;
  writting : bool;
  pending_append : list item;
  file : string
}.

Definition file_after (es : list event) (f : string) : string :=
  fold_left (fun acc e => match e with
                          | AppendFile data => acc ++ data
                          | Callback _ _ => acc
                          end) es f.

(** [DP.$append] run to the end of its batch ([next_append] included):
    the new state and the trace of file appends and callbacks. *)
Definition DP_append (worker : bool) (s : state) : state * list event :=
  match pending_append s with
  | [] => (mkstate 1 (writting s) [] (file s), [])
  | items =>
      let es := concat (map append_group (limit (JSONBUFFER worker) items)) in
      (mkstate 1 false [] (file_after es (file s)), es)
  end.

Definition appended (es : list event) : list string :=
  flat_map (fun e => match e with AppendFile d => [d] | Callback _ _ => [] end) es.

Definition callbacks (es : list event) : list (builder * Z) :=
  flat_map (fun e => match e with AppendFile _ => [] | Callback b n => [(b, n)] end) es.

End Jobs.
Arguments item : clear implicits.
Arguments state : clear implicits.
Arguments event : clear implicits.

End Append.

(** ** The reader pass: [DP.$reader2] with [DatabaseBuilder] options *)

Module Reader.

Import Doc.

Record sorter := mksorter { name : string; asc : bool }.

(** [$options.sort]: unset, [null] after [random()], or an object after
    [sort(name, desc)]. *)
Inductive sortopt :=
| NoSort
| Random
| By (s : sorter).

Inductive scalartype := count_ | sum_ | min_ | max_ | avg_ | group_.

(** The part of [builder.$options] the reader looks at; 0 stands for an
    unset [take] or [skip]. *)
Record options := mkoptions {
  first : bool;
  take : Z;
  skip : Z;
  sort : sortopt;
  scalar : option scalartype;
  listing : bool
}.

(** [new DatabaseBuilder(db)] *)
Definition new_builder : options := mkoptions false 0 0 NoSort None false.

(** [DatabaseBuilder.prototype.take] *)
Definition take_ (count : Z) (o : options) : options :=
  mkoptions (first o) count (skip o) (sort o) (scalar o) (listing o).

(** [DatabaseBuilder.prototype.first]: [this.$options.first = true; return this.take(1)] *)
Definition first_ (o : options) : options :=
  take_ 1 (mkoptions true (take o) (skip o) (sort o) (scalar o) (listing o)).

(** [DatabaseBuilder.prototype.skip] sets [$options.skip]. *)
Definition skip_ (count : Z) (o : options) : options :=
  mkoptions (first o) (take o) count (sort o) (scalar o) (listing o).

(** [DatabaseBuilder.prototype.sort] *)
Definition sort_ (n : string) (desc : bool) (o : options) : options :=
  mkoptions (first o) (take o) (skip o) (By (mksorter n (negb desc))) (scalar o) (listing o).

(** [DatabaseBuilder.prototype.scalar] *)
Definition scalar_ (t : scalartype) (o : options) : options :=
  mkoptions (first o) (take o) (skip o) (sort o) (Some t) (listing o).

(** [self.$inlinesort = !!(opt.take && opt.sort && opt.sort !== null)] *)
Definition inlinesort (o : options) : bool :=
  negb (take o =? 0) && match sort o with By _ => true | _ => false end.

(** [self.$limit = (opt.take || 0) + (opt.skip || 0)] *)
Definition limit (o : options) : Z := take o + skip o.

(** JavaScript truthiness of [$options.sort]. *)
Definition sort_truthy (o : options) : bool :=
  match sort o with By _ => true | _ => false end.

Section Pass.

(** Helpers of the framework's utilities that are not part of this file:
    the collation used for strings, [Array.prototype.quicksort] and the
    accumulator of a scalar query, which is kept abstract here. *)
Context (COMPARER : string -> string -> Z).
Context (quicksort : string -> bool -> list doc -> list doc).
Context {acc : Type} (scalar_step : scalartype -> doc -> option acc -> option acc).

(** The number [b] is compared as when [a] is a number or a date:
    [undefined] is [NaN], [null] is 0, [false] and [true] are 0 and 1, a
    date is its time, a text is read by [JS.to_number]. What JavaScript
    makes of an object ([valueOf], [toString]) is not modelled; it reads
    as [NaN] here. *)
Definition as_operand (b : jsval) : JS.number :=
  match b with
  | VUndefined => JS.NaN
  | VNull => JS.Num 0
  | VBool y => JS.Num (if y then 1 else 0)
  | VNum y | VDate y => y
  | VStr t => JS.to_number t
  | VObj _ => JS.NaN
  end.

(** [nosqlsortvalue(a, b, sorter)], which branches on the type of [a]. A
    number or a date [a] is compared with [b] as a number
    ([as_operand]). For a boolean [a] only the truth value of [b]
    counts. A text [a] goes to [COMPARER], a helper of the framework that
    is not part of this file and is given for texts; with a [b] that is
    no text the comparison reads as false here. Nothing below depends on
    the outcome of a comparison. *)
Definition nosqlsortvalue (a b : jsval) (s : sorter) : bool :=
  match a with
  | VNum x | VDate x =>
      if asc s then JS.gt x (as_operand b) else JS.lt x (as_operand b)
  | VStr x =>
      match b with
      | VStr y => if asc s then COMPARER x y =? 1 else COMPARER x y =? -1
      | _ => false
      end
  | VBool x => if asc s then x && negb (truthy b) else negb x && truthy b
  | _ => false
  end.

(** The insertion loop of [nosqlresort], from index [beg] on: the first
    element that sorts after [d] gives its place to [d], the rest shifts
    right and the last element falls out. *)
Fixpoint resort_from (s : sorter) (d : doc) (arr : list doc) (beg : nat) : list doc :=
  match arr with
  | [] => []
  | x :: rest =>
      match beg with
      | S k => x :: resort_from s d rest k
      | O =>
          if nosqlsortvalue (get x (name s)) (get d (name s)) s
          then d :: removelast arr
          else x :: resort_from s d rest O
      end
  end.

(** [nosqlresort(arr, builder, doc)] *)
Definition nosqlresort (s : sorter) (arr : list doc) (d : doc) : list doc :=
  match nth_error arr (length arr - 1) with
  | None => arr
  | Some l =>
      if negb (nosqlsortvalue (get l (name s)) (get d (name s)) s) then arr
      else
        let tmp := Nat.div (length arr) 2 in
        let beg := match nth_error arr tmp with
                   | Some m =>
                       if nosqlsortvalue (get m (name s)) (get d (name s)) s then O else S tmp
                   | None => O
                   end in
        resort_from s d arr beg
  end.

(** An entry of [pending_reader]: the builder's options, its compiled
    predicate (which returns the projected document or nothing) and the
    running state. [counter] is [undefined] for the jobs queued by [one()]
    and [count()]; [counter++] then yields NaN and every comparison with it
    is false. *)
Record item := mkitem {
  builder : options;
  compare : doc -> option doc;
  type_ : Z;
  count : Z;
  counter : option Z;
  response : option (list doc);
  scalar_acc : option acc
}.

Definition set_state (it : item) (n : Z) (c : option Z) (r : option (list doc))
    (a : option acc) : item :=
  mkitem (builder it) (compare it) (type_ it) n c r a.

(** [take <= item.counter] *)
Definition le_counter (t : Z) (c : option Z) : bool :=
  match c with
  | Some k => t <=? k
  | None => false
  end.

(** [nosqlinlinesorter(item, builder, doc)], on [item.response]. *)
Definition nosqlinlinesorter (o : options) (s : sorter) (resp : option (list doc))
    (d : doc) : list doc :=
  match resp with
  | None => [d]
  | Some arr =>
      if Z.of_nat (length arr) <? limit o then
        if limit o <=? Z.of_nat (length arr) + 1
        then quicksort (name s) (asc s) (arr ++ [d])
        else arr ++ [d]
      else nosqlresort s arr d
  end.

(** The body of the loop over the readers for one document. The flag
    tells whether the end of the body (the test of [first]) was reached. *)
Definition item_step (d : doc) (it : item) : item * bool :=
  let o := builder it in
  match compare it d with
  | None => (it, false)
  | Some output =>
      let n := count it + 1 in
      if negb (inlinesort o)
         && ((negb (skip o =? 0) && (n <=? skip o))
             || (negb (take o =? 0) && le_counter (take o) (counter it)))
      then (set_state it n (counter it) (response it) (scalar_acc it), false)
      else
        let c := option_map Z.succ (counter it) in
        if negb (type_ it =? 0)
        then (set_state it n c (response it) (scalar_acc it), false)
        else
          match scalar o with
          | Some k =>
              (set_state it n c (response it) (scalar_step k output (scalar_acc it)), true)
          | None =>
              match sort o with
              | By s =>
                  if inlinesort o
                  then (set_state it n c (Some (nosqlinlinesorter o s (response it) output))
                          (scalar_acc it), true)
                  else (set_state it n c (Some (default [] (response it) ++ [output]))
                          (scalar_acc it), true)
              | _ =>
                  (set_state it n c (Some (default [] (response it) ++ [output]))
                     (scalar_acc it), true)
              end
          end
  end.

(** The loop over the readers; [if (first) return false] leaves it and
    cancels the stream. *)
Fixpoint step_items (stop_at_first : bool) (d : doc) (items : list item)
    : list item * bool :=
  match items with
  | [] => ([], false)
  | it :: rest =>
      let '(it', through) := item_step d it in
      if stop_at_first && through then (it' :: rest, true)
      else
        let '(rest', stop) := step_items stop_at_first d rest in
        (it' :: rest', stop)
  end.

(** [fs.ondocuments] over the documents of the file, in stream order. *)
Fixpoint ondocuments (stop_at_first : bool) (docs : list doc) (items : list item)
    : list item :=
  match docs with
  | [] => items
  | d :: rest =>
      let '(items', stop) := step_items stop_at_first d items in
      if stop then items' else ondocuments stop_at_first rest items'
  end.

(** The variable [first] of the pass: every reader is a first-match query
    without a sort object, and there is only one. *)
Definition first_only (items : list item) : bool :=
  forallb (fun it => first (builder it) && negb (sort_truthy (builder it))) items
  && (length items <=? 1)%nat.

(** What a reader hands to its callback as the response. *)
Inductive result :=
| Count (n : Z)
| Scalar (a : option acc)
| One (d : option doc)
| Listing (skip_ take_ count_ : Z) (items : list doc)
| Many (l : list doc)
| Throws.

(** The choice between [first], [listing] and the plain list. *)
Definition output_of (it : item) (resp : option (list doc)) : result :=
  let o := builder it in
  if first o then One (resp ≫= head)
  else if listing o then Listing (skip o) (take o) (count it) (default [] resp)
  else Many (default [] resp).

(** [item.type === 1 ? item.count : output] *)
Definition deliver (it : item) (output : result) : result :=
  if type_ it =? 1 then Count (count it) else output.

(** The index at which [Array.prototype.splice] starts: a negative
    [start] counts from the end of the array. *)
Definition splice_start (start : Z) (arr : list doc) : nat :=
  if start <? 0 then Z.to_nat (Z.max (Z.of_nat (length arr) + start) 0)
  else Z.to_nat start.

(** [arr.splice(start, n)] and [arr.splice(start)], the removed part. *)
Definition splice (start n : Z) (arr : list doc) : list doc :=
  firstn (Z.to_nat n) (skipn (splice_start start arr) arr).
Definition splice_from (start : Z) (arr : list doc) : list doc :=
  skipn (splice_start start arr) arr.

(** The body of the loop of [fs.$callback] for one reader. A sort object
    without a name makes [Array.prototype.sort] throw, and so does a
    missing response on the sorting path. *)
Definition finish (it : item) : result :=
  let o := builder it in
  match scalar o, sort o with
  | Some _, _ => deliver it (Scalar (scalar_acc it))
  | None, By s =>
      if count it =? 0 then deliver it (output_of it (response it))
      else
        match response it with
        | None => Throws
        | Some arr =>
            if String.eqb (name s) EmptyString then Throws
            else
              let arr1 :=
                if negb (inlinesort o) || negb (take o =? Z.of_nat (length arr))
                then quicksort (name s) (asc s) arr else arr in
              let arr2 :=
                if negb (skip o =? 0) && negb (take o =? 0) then splice (skip o) (take o) arr1
                else if negb (skip o =? 0) then splice_from (skip o) arr1
                else if negb (inlinesort o) && negb (take o =? 0) then splice 0 (take o) arr1
                else arr1 in
              deliver it (output_of it (Some arr2))
        end
  | None, _ => deliver it (output_of it (response it))
  end.

(** What the loop of [fs.$callback] computes for each reader, in the order
    of the queue, as long as it gets that far. *)
Definition responses (items : list item) (docs : list doc) : list result :=
  map finish (ondocuments (first_only items) docs items).

(** The loop of [fs.$callback] itself: the [TypeError] of a reader leaves
    the loop, and the readers queued after it get no callback. *)
Fixpoint callbacks (rs : list result) : list result :=
  match rs with
  | [] => []
  | Throws :: _ => [Throws]
  | r :: rest => r :: callbacks rest
  end.

(** [DP.$reader2] over the documents of the file: the response each
    reader's callback receives; the list ends with the reader that
    throws, if one does. *)
Definition reader2 (items : list item) (docs : list doc) : list result :=
  callbacks (responses items docs).

Definition is_throw (r : result) : bool :=
  match r with
  | Throws => true
  | _ => false
  end.

(** Whether a reader queued before position [i] throws in [fs.$callback]. *)
Definition thrown_before (i : nat) (items : list item) (docs : list doc) : bool :=
  existsb is_throw (firstn i (responses items docs)).

(** A job as the query methods queue it: [find()] starts [counter] at 0,
    [one()] leaves it undefined. *)
Definition new_item (o : options) (p : doc -> option doc) (c : option Z) : item :=
  mkitem o p 0 0 c None None.

(** The projected documents of the matching documents, in stream order. *)
Fixpoint matches (p : doc -> option doc) (docs : list doc) : list doc :=
  match docs with
  | [] => []
  | d :: rest =>
      match p d with
      | Some m => m :: matches p rest
      | None => matches p rest
      end
  end.

(** The contract of [Array.prototype.quicksort]: it reorders. *)
Definition reorders : Prop :=
  forall (n : string) (a : bool) (l : list doc), Permutation (quicksort n a l) l.

(** A first-match query that sets neither [skip] nor a scalar and whose
    [take] is not negative; a sort object has a name. *)
Definition plain_first (o : options) : Prop :=
  first o = true /\ skip o = 0 /\ scalar o = None /\ 0 <= take o
  /\ (forall s, sort o = By s -> name s <> EmptyString).

(** The state of such a reader after the matches [ms] (in stream order):
    the response is missing exactly when nothing matched yet, and it
    holds matches only, the first one in front unless a sort object
    reorders them. *)
Definition settled (o : options) (p : doc -> option doc) (it : item) (ms : list doc) : Prop :=
  builder it = o /\ compare it = p /\ type_ it = 0 /\ count it = Z.of_nat (length ms)
  /\ (response it = None -> ms = [] /\ (counter it = None \/ counter it = Some 0))
  /\ (forall l, response it = Some l ->
        l <> [] /\ (forall x, In x l -> In x ms)
        /\ (sort_truthy o = false -> head l = head ms)).

End Pass.

End Reader.

(** ** The streaming file engine *)

Module Stream.
Local Open Scope string_scope.

(** The streaming file engine ([NoSQLStream], required from
    [./nosqlstream]) is not part of this file; what the readers of this
    file need of it is modelled below from the specification. [fs.docs]
    holds the lines of one batch joined by [fs.divider]. *)

Definition NEWLINE : ascii := "010"%char.

(** [fs.remchar] *)
Definition remchar : ascii := "-".

(** Modelled from the spec: the line splitting of [NoSQLStream], which is
    missing from this file. The complete lines of a file are what
    precedes each line feed. *)
Definition lines (content : string) : list string :=
  removelast (JS.split NEWLINE content).

(** Modelled from the spec: the test of [NoSQLStream] for a removed line,
    one whose leading byte is the tombstone marker [fs.remchar]. *)
Definition tombstoned (line : string) : bool :=
  match line with
  | String c _ => Ascii.eqb c remchar
  | EmptyString => false
  end.

(** Modelled from the spec: the batching of [NoSQLStream], consecutive
    groups of at most [buffercount] lines. *)
Fixpoint batches_fuel (fuel n : nat) (l : list string) : list (list string) :=
  match fuel with
  | O => []
  | S f =>
      match l with
      | [] => []
      | _ :: _ => firstn n l :: batches_fuel f n (skipn n l)
      end
  end.

(** Modelled from the spec: see [batches_fuel]; [NoSQLStream] is missing
    from this file. *)
Definition batches (buffercount : nat) (l : list string) : list (list string) :=
  match buffercount with
  | O => []
  | S _ => batches_fuel (length l) buffercount l
  end.

(** Modelled from the spec: [NoSQLStream.openread] with [ondocuments],
    missing from this file. The successive values of [fs.docs] of a
    forward read session: the lines of the file in batches, a line whose
    leading byte is the tombstone marker being skipped, so that only live
    lines are handed on. *)
Definition openread (divider : string) (buffercount : nat) (content : string)
    : list string :=
  map (JS.join divider)
      (batches buffercount (List.filter (fun l => negb (tombstoned l)) (lines content))).

(** Modelled from the spec: [NoSQLStream.openreadreverse], missing from
    this file. The same from the end of the file to its beginning. *)
Definition openreadreverse (divider : string) (buffercount : nat) (content : string)
    : list string :=
  map (JS.join divider)
      (batches buffercount (List.filter (fun l => negb (tombstoned l)) (rev (lines content)))).

End Stream.

(** ** Tables: the row codec [TP.stringify] / [TP.parseData] and the readers *)

Module Table.
Import Doc.
Local Open Scope string_scope.

(** Column types 1 to 5 of [TP.parseSchema]. *)
Inductive coltype := TString | TNumber | TBoolean | TDate | TObject.

Record meta := mkmeta { type : coltype; pos : nat }.

(** [self.$keys] and [self.$schema]. *)
Record table := mktable {
  keys : list string;
  schema : gmap string meta
}.

(** The loop of [TP.parseSchema], given the parsed [name:type] pairs:
    [self.$schema[name] = { type: type, pos: i }; self.$keys.push(name)]. *)
Fixpoint parseSchema_from (i : nat) (cols : list (string * coltype)) (t : table) : table :=
  match cols with
  | [] => t
  | (name, ty) :: rest =>
      parseSchema_from (S i) rest
        (mktable (keys t ++ [name]) (<[name := mkmeta ty i]> (schema t)))
  end.

Definition parseSchema (cols : list (string * coltype)) : table :=
  parseSchema_from 0 cols (mktable [] ∅).

Definition PIPE : ascii := "|".
Definition CR : ascii := "013"%char.
Definition LF : ascii := "010"%char.

Definition special (c : ascii) : bool :=
  Ascii.eqb c PIPE || Ascii.eqb c LF || Ascii.eqb c CR.

(** [REGTESCAPETEST.test(val)] *)
Fixpoint REGTESCAPETEST (s : string) : bool :=
  match s with
  | EmptyString => false
  | String c r => special c || REGTESCAPETEST r
  end.

(** [function regtescape(c)] *)
Definition regtescape (c : ascii) : string :=
  if Ascii.eqb c LF then "%0A"
  else if Ascii.eqb c CR then "%0D"
  else if Ascii.eqb c PIPE then "%7C"
  else String c EmptyString.

(** [val.replace(REGTESCAPE, regtescape)] *)
Fixpoint escape (s : string) : string :=
  match s with
  | EmptyString => EmptyString
  | String c r => (if special c then regtescape c else String c EmptyString) ++ escape r
  end.

(** [function regtescapereverse(c)], on the two characters after [%];
    [None] when the three characters are not a match of [REGTUNESCAPE]. *)
Definition regtescapereverse (a b : ascii) : option ascii :=
  if Ascii.eqb a "0" && Ascii.eqb b "A" then Some LF
  else if Ascii.eqb a "0" && Ascii.eqb b "D" then Some CR
  else if Ascii.eqb a "7" && Ascii.eqb b "C" then Some PIPE
  else None.

(** [val.replace(REGTUNESCAPE, regtescapereverse)] *)
Fixpoint unescape (s : string) : string :=
  match s with
  | EmptyString => EmptyString
  | String c r =>
      match r with
      | String a (String b r') =>
          if Ascii.eqb c "%" then
            match regtescapereverse a b with
            | Some d => String d (unescape r')
            | None => String c (unescape r)
            end
          else String c (unescape r)
      | _ => String c (unescape r)
      end
  end.

(** [String(v)], as [val += ''] and [output += '|' + val] perform it.
    [None]: a date or an object converted to a string, which this model
    does not cover. *)
Definition to_string (v : jsval) : option string :=
  match v with
  | VUndefined => Some "undefined"
  | VNull => Some "null"
  | VBool true => Some "true"
  | VBool false => Some "false"
  | VNum n => Some (JS.number_to_string n)
  | VStr s => Some s
  | VDate _ | VObj _ => None
  end.

(** [JSON.stringify(v)] on a truthy value; a date is not covered. *)
Definition json_text (v : jsval) : option string :=
  match v with
  | VObj j => Some (Json.stringify j)
  | VStr s => Some (Json.quote s)
  | VDate _ => None
  | _ => to_string v
  end.

(** [val == true]: the value converts to the number 1. Objects and dates
    never do here (an array such as [[1]] would). *)
Definition loose_true (v : jsval) : bool :=
  match v with
  | VBool b => b
  | VNum (JS.Num z) => (z =? 1)%Z
  | VStr s => match JS.to_number s with JS.Num z => (z =? 1)%Z | JS.NaN => false end
  | _ => false
  end.

(** The [switch (meta.type)] of [TP.stringify]: the text of one cell
    before escaping. [None]: the code throws ([getTime] of a value that is
    not a date) or a conversion is not covered. *)
Definition cell (t : coltype) (v : jsval) : option string :=
  match t with
  | TString => if truthy v then to_string v else Some EmptyString
  | TNumber => if truthy v then to_string v else Some "0"
  | TBoolean => Some (if loose_true v then "1" else "0")
  | TDate =>
      if truthy v then
        match v with
        | VDate n => Some (JS.number_to_string n)
        | _ => None
        end
      else Some EmptyString
  | TObject => if truthy v then json_text v else Some EmptyString
  end.

Definition escapable (t : coltype) : bool :=
  match t with
  | TString | TObject => true
  | _ => false
  end.

(** The loop of [TP.stringify] over [self.$keys], with its two variables
    [esc] and [output]. *)
Fixpoint stringify_loop (T : table) (d : doc) (ks : list string)
    (esc : bool) (output : string) : option (bool * string) :=
  match ks with
  | [] => Some (esc, output)
  | key :: rest =>
      match schema T !! key with
      | None => None
      | Some m =>
          match cell (type m) (get d key) with
          | None => None
          | Some val =>
              if negb esc && escapable (type m) && REGTESCAPETEST val
              then stringify_loop T d rest true (output ++ "|" ++ escape val)
              else stringify_loop T d rest esc (output ++ "|" ++ val)
          end
      end
  end.

(** [TP.stringify(doc)] *)
Definition stringify (T : table) (d : doc) : option string :=
  match stringify_loop T d (keys T) false EmptyString with
  | Some (esc, output) => Some ((if esc then "*" else "+") ++ output)
  | None => None
  end.









Section Parse.

(** Not part of this file: the parsing of an ISO date by [new Date(val)]
    (the older date format) and [String.prototype.parseJSON] of the
    framework's utilities. *)
Context (Date_parse : string -> JS.number).
Context (parseJSON : string -> jsval).

(** [const BOOLEAN = { '1': 1, 'true': 1, 'on': 1 }] *)
Definition BOOLEAN (val : option string) : bool :=
  match val with
  | Some s => String.eqb s "1" || String.eqb s "true" || String.eqb s "on"
  | None => false
  end.

Definition nonempty (val : option string) : option string :=
  match val with
  | Some EmptyString => None
  | _ => val
  end.

(** The [switch (meta.type)] of [TP.parseData] on [data.line[pos]], which
    is undefined past the end of the line. *)
Definition decode (esc : bool) (t : coltype) (val : option string) : jsval :=
  match t with
  | TString =>
      match val with
      | None => VUndefined
      | Some s => VStr (if esc && negb (String.eqb s EmptyString) then unescape s else s)
      end
  | TNumber =>
      VNum (match val with
            | Some s => JS.to_number s
            | None => JS.NaN
            end)
  | TBoolean => VBool (BOOLEAN val)
  | TDate =>
      match nonempty val with
      | Some s =>
          VDate (match String.get 10 s with
                 | Some "T"%char => Date_parse s
                 | _ => JS.to_number s
                 end)
      | None => VNull
      end
  | TObject =>
      match nonempty val with
      | Some s => parseJSON (if esc then unescape s else s)
      | None => VNull
      end
  end.

(** [cache && cache[key] != null] *)
Definition cached (cache : option doc) (key : string) : option jsval :=
  match cache with
  | Some c =>
      match c !! key with
      | Some VNull | Some VUndefined | None => None
      | Some v => Some v
      end
  | None => None
  end.

(** The loop of [TP.parseData] over [data.keys]. *)
Fixpoint parse_loop (T : table) (line : list string) (cache : option doc)
    (esc : bool) (ks : list string) (obj : doc) : doc :=
  match ks with
  | [] => obj
  | key :: rest =>
      match cached cache key with
      | Some v => parse_loop T line cache esc rest (<[key := v]> obj)
      | None =>
          match schema T !! key with
          | None => parse_loop T line cache esc rest obj
          | Some m =>
              parse_loop T line cache esc rest
                (<[key := decode esc (type m) (JS.at_index line (pos m + 1))]> obj)
          end
      end
  end.

(** [var esc = data.line[0] === '*'] *)
Definition escaped (line : list string) : bool :=
  match line with
  | marker :: _ => String.eqb marker "*"
  | [] => false
  end.

(** [TP.parseData(data, cache)] with [data.line] and [data.keys]. *)
Definition parseData (T : table) (line ks : list string) (cache : option doc) : doc :=
  parse_loop T line cache (escaped line) ks ∅.

(** Decoding a stored line with all the columns: the readers split the
    line at [|] and call [parseData]. *)
Definition decode_line (T : table) (line : string) : doc :=
  parseData T (JS.split PIPE line) (keys T) None.



(** [const TABLERECORD = { '+': 1, '-': 1, '*': 1 }] *)
Definition TABLERECORD (marker : option string) : bool :=
  match marker with
  | Some s => String.eqb s "+" || String.eqb s "-" || String.eqb s "*"
  | None => false
  end.

(** [fs.ondocuments] of [TP.$reader] for one value of [fs.docs]: the
    [data.line] arrays that are parsed and handed to every reader's
    predicate, and the new value of [indexer]. The first line of the first
    batch is the schema header. *)
Definition TP_reader_ondocuments (indexer : Z) (docs : string) : list (list string) * Z :=
  let lines := JS.split Stream.NEWLINE docs in
  let rest := if (indexer =? 0)%Z then tl lines else lines in
  (map (JS.split PIPE) rest, (indexer + 2 * Z.of_nat (length rest))%Z).

Fixpoint TP_reader_lines (indexer : Z) (batches : list string) : list (list string) :=
  match batches with
  | [] => []
  | docs :: rest =>
      let '(ls, i) := TP_reader_ondocuments indexer docs in
      ls ++ TP_reader_lines i rest
  end.

(** [fs.ondocuments] of [TP.$reader3]: lines whose first field is not a
    record marker (the header) are passed over. *)
Definition TP_reader3_ondocuments (docs : string) : list (list string) :=
  List.filter (fun line => TABLERECORD (JS.at_index line 0))
         (map (JS.split PIPE) (JS.split Stream.NEWLINE docs)).

Definition TP_reader3_lines (batches : list string) : list (list string) :=
  flat_map TP_reader3_ondocuments batches.

Section Readers.
Context (COMPARER : string -> string -> Z).
Context (quicksort : string -> bool -> list doc -> list doc).
Context {acc : Type} (scalar_step : Reader.scalartype -> doc -> option acc -> option acc).

Definition divider : string := String Stream.NEWLINE EmptyString.

(** [TP.$reader] on a file: the response of every pending reader (find,
    one, count and scalar jobs alike). [data_keys] is [data.keys]. *)
Definition TP_reader (T : table) (data_keys : list string) (buffercount : nat)
    (items : list (@Reader.item acc)) (content : string) : list (@Reader.result acc) :=
  Reader.reader2 COMPARER quicksort scalar_step items
    (map (fun line => parseData T line data_keys None)
         (TP_reader_lines 0 (Stream.openread divider buffercount content))).

(** [TP.$reader3], the reverse reader. *)
Definition TP_reader3 (T : table) (data_keys : list string) (buffercount : nat)
    (items : list (@Reader.item acc)) (content : string) : list (@Reader.result acc) :=
  Reader.reader2 COMPARER quicksort scalar_step items
    (map (fun line => parseData T line data_keys None)
         (TP_reader3_lines (Stream.openreadreverse divider buffercount content))).

End Readers.

End Parse.

End Table.

(** ** The counter engine: [CP.hit], [CP.min], [CP.max], [CP.save] *)

Module Counter.
Local Open Scope string_scope.

(** A value of [self.cache]: a running sum, a [[min, max]] pair, [null]
    after [remove], or nothing. A pair component is undefined when [min]
    or [max] was called without a count. *)
Inductive cval :=
| CUndefined
| CNull
| CNum (z : Z)
| CPair (a b : option Z).

(** The cache object; [Object.keys] returns its keys in insertion order,
    which is the order in which [save] appends new lines. An object holds
    a key once: a list stands for a cache when its keys are distinct. *)
Abbreviation cache := (list (string * cval)).

Fixpoint get (c : cache) (key : string) : cval :=
  match c with
  | [] => CUndefined
  | (k, v) :: r => if String.eqb k key then v else get r key
  end.

(** [cache[key] = v]: in place for a known key, at the end for a new one. *)
Fixpoint set (key : string) (v : cval) (c : cache) : cache :=
  match c with
  | [] => [(key, v)]
  | (k, w) :: r => if String.eqb k key then (k, v) :: r else (k, w) :: set key v r
  end.

Definition truthy (v : cval) : bool :=
  match v with
  | CNum z => negb (z =? 0)%Z
  | CPair _ _ => true
  | _ => false
  end.

(** The cache object behind [self.cache], which is created on demand. *)
Definition entries (c : option cache) : cache :=
  match c with
  | Some m => m
  | None => []
  end.

(** What a key reads in a cache that may not exist yet. *)
Definition pending (c : option cache) (key : string) : cval := get (entries c) key.

(** An id argument: one id or an array of them. *)
Inductive cid :=
| Id (s : string)
| Ids (l : list cid).

Section Now.

(** [NOW.getFullYear()] and [NOW.format('MMdd')]. *)
Context (year : Z) (MMdd : string).

Definition year_text : string := JS.number_to_string (JS.Num year).

(** [CP.empty(key, value)]: the third character of the key tells a sum
    from a pair. *)
Definition empty (key : string) (value : option Z) (c : option cache) : option cache :=
  let v := match String.get 2 key with
           | Some "m"%char => match value with Some z => CNum z | None => CUndefined end
           | _ => CPair value value
           end in
  Some (set key v (entries c)).

(** [a > b] on counts that may be undefined. *)
Definition gt (a b : option Z) : bool :=
  match a, b with
  | Some x, Some y => (y <? x)%Z
  | _, _ => false
  end.

(** The body of [CP.min] and of [CP.max] for one id: both keep the
    minimum in the first and the maximum in the second component. *)
Definition minmax_one (id : string) (count : option Z) (c : option cache) : option cache :=
  let key := "mma" ++ year_text ++ id in
  match c with
  | None => empty key count c
  | Some m =>
      if negb (truthy (get m key)) then empty key count c
      else
        match get m key with
        | CPair a b =>
            let a' := if gt a count then count else a in
            let b' := if gt count b then count else b in
            Some (set key (CPair a' b') m)
        | _ => c
        end
  end.

(** [CP.min(id, count)] *)
Fixpoint min (id : cid) (count : option Z) (c : option cache) : option cache :=
  match id with
  | Ids l => fold_left (fun acc e => min e count acc) l c
  | Id s => minmax_one s count c
  end.

(** [CP.max(id, count)]: an array is handed to [self.min] element by
    element. *)
Definition max (id : cid) (count : option Z) (c : option cache) : option cache :=
  match id with
  | Ids l => fold_left (fun acc e => min e count acc) l c
  | Id s => minmax_one s count c
  end.

(** [count || 1] *)
Definition or1 (count : option Z) : Z :=
  match count with
  | Some z => if (z =? 0)%Z then 1%Z else z
  | None => 1%Z
  end.

(** ['sum' + NOW.getFullYear() + '' + id] *)
Definition sum_key (id : string) : string := "sum" ++ year_text ++ id.

(** [CP.hit(id, count)] (also [CP.inc]). A key starting with [sum] never
    holds a pair, so [+=] on a pair (a string concatenation) is left
    out. The counts are integers and [+=] adds them as such, which is
    what the engine does while the sums stay safe integers ([weight]
    below bounds them). *)
Definition hit (id : cid) (count : option Z) (c : option cache) : option cache :=
  match id with
  | Ids l => fold_left (fun acc e => min e count acc) l c
  | Id s =>
      let key := sum_key s in
      match c with
      | None => empty key (Some (or1 count)) c
      | Some m =>
          if negb (truthy (get m key)) then empty key (Some (or1 count)) c
          else
            match get m key with
            | CNum z => Some (set key (CNum (z + or1 count)) m)
            | _ => c
            end
      end
  end.

(** [const NEWLINE = '\n'] *)
Definition NEWLINE : string := String "010"%char EmptyString.

(** [var dt = NOW.format('MMdd') + '='] *)
Definition dt : string := MMdd ++ "=".

Definition print (z : Z) : string := JS.number_to_string (JS.Num z).

Definition opt_text (o : option Z) : string :=
  match o with
  | Some z => print z
  | None => "undefined"
  end.

Definition to_num (o : option Z) : JS.number :=
  match o with
  | Some z => JS.Num z
  | None => JS.NaN
  end.

(** [count instanceof Array ? (count[0] + 'X' + count[1]) : count] *)
Definition cval_text (v : cval) : string :=
  match v with
  | CPair a b => opt_text a ++ "X" ++ opt_text b
  | CNum z => print z
  | CNull => "null"
  | CUndefined => "undefined"
  end.

(** [count[0]] and [count[1]] *)
Definition fst_of (v : cval) : option Z := match v with CPair a _ => a | _ => None end.
Definition snd_of (v : cval) : option Z := match v with CPair _ b => b | _ => None end.

(** [count] as an operand of [+], [Math.max] and [Math.min]; a pair is
    never stored under a [sum], [max] or [min] key. *)
Definition as_number (v : cval) : JS.number :=
  match v with
  | CNum z => JS.Num z
  | _ => JS.NaN
  end.

Definition Math_max (a b : JS.number) : JS.number :=
  match a, b with
  | JS.Num x, JS.Num y => JS.Num (Z.max x y)
  | _, _ => JS.NaN
  end.

Definition Math_min (a b : JS.number) : JS.number :=
  match a, b with
  | JS.Num x, JS.Num y => JS.Num (Z.min x y)
  | _, _ => JS.NaN
  end.

(** The [minXmax] text merged with a pending pair, as both [case 'mma']
    blocks do it through [COUNTER_MMA]. *)
Definition merge_mma (tmp : string) (count : cval) : string :=
  let tmpi := JS.indexOf "X" tmp in
  let m0 := JS.to_number (JS.substring 0 tmpi tmp) in
  let m1 := JS.to_number (JS.substring_from (tmpi + 1) tmp) in
  let m0' := if JS.gt m0 (to_num (fst_of count)) then to_num (fst_of count) else m0 in
  let m1' := if JS.lt m1 (to_num (snd_of count)) then to_num (snd_of count) else m1 in
  JS.number_to_string m0' ++ "X" ++ JS.number_to_string m1'.

(** [// Update summarization]: the new [arr[0]]. The sum is [JS.plus],
    exact on safe integers ([takes_in] below). *)
Definition update_head (type : string) (count : cval) (arr0 : string) : string :=
  let index := JS.indexOf "=" arr0 in
  let head := JS.substring 0 (index + 1) arr0 in
  let rest := JS.substring_from (index + 1) arr0 in
  if String.eqb type "mma" then head ++ merge_mma rest count
  else if String.eqb type "max"
  then head ++ JS.number_to_string (Math_max (JS.to_number rest) (as_number count))
  else if String.eqb type "min"
  then head ++ JS.number_to_string (Math_min (JS.to_number rest) (as_number count))
  else if String.eqb type "sum"
  then head ++ JS.number_to_string (JS.plus (JS.to_number rest) (as_number count))
  else arr0.

(** The loop over [arr[1..]]: the first bucket of the current day is
    merged; the flag is the variable [is] of the source. *)
Fixpoint update_buckets (type : string) (count : cval) (items : list string)
    : list string * bool :=
  match items with
  | [] => ([], false)
  | item :: rest =>
      let curr := JS.substring 0 5 item in
      if String.eqb curr dt then
        ((if String.eqb type "mma" then curr ++ merge_mma (JS.substring_from 5 item) count
          else if String.eqb type "sum"
          then curr ++ JS.number_to_string
                         (JS.plus (JS.to_number (JS.substring_from 5 item)) (as_number count))
          else item) :: rest, true)
      else
        let '(rest', found) := update_buckets type count rest in
        (item :: rest', found)
  end.

(** The handler of [reader.on('data', ...)] for one line [value] (line
    feed included): the local cache afterwards and what is written. *)
Definition on_data (c : cache) (value : string) : cache * list string :=
  let id := JS.substring 0 (JS.indexOf "=" value) value in
  match get c id with
  | CNull => (c, [])
  | CUndefined => (c, [value])
  | count =>
      match JS.split ";" (JS.trim value) with
      | [] => (c, [])
      | arr0 :: buckets =>
          let type := JS.substring 0 3 id in
          let arr0' := update_head type count arr0 in
          let '(buckets', found) := update_buckets type count buckets in
          let pushed := if found then [] else [dt ++ cval_text count] in
          let arr := arr0' :: (buckets' ++ pushed)%list in
          (set id CUndefined c, [JS.join ";" arr ++ NEWLINE])
      end
  end.

(** [flush]: the pending keys that met no line, in insertion order. *)
Fixpoint flush (c : cache) : list string :=
  match c with
  | [] => []
  | (key, item) :: rest =>
      match item with
      | CNull | CUndefined => flush rest
      | _ =>
          (key ++ "=" ++ cval_text item ++ ";" ++ dt ++ cval_text item ++ NEWLINE)
            :: flush rest
      end
  end.

(** The stream of the counter file through [on_data]. *)
Fixpoint stream (c : cache) (file : list string) : cache * list string :=
  match file with
  | [] => (c, [])
  | line :: rest =>
      let '(c1, out1) := on_data c (line ++ NEWLINE) in
      let '(c2, out2) := stream c1 rest in
      (c2, (out1 ++ out2)%list)
  end.

(** [CP.save]: what is written to the new counter file, chunk by chunk.
    The file is given by its lines; the framework's [streamer] (not part
    of this file) hands each of them, line feed included, to [on_data].
    A missing file reads as no line at all. *)
Definition save (c : cache) (file : list string) : list string :=
  let '(c', out) := stream c file in
  (out ++ flush c')%list.

(** A sequence of [hit(id, n)] calls for one id. *)
Definition hits (id : string) (counts : list (option Z)) (c : option cache) : option cache :=
  fold_left (fun acc n => hit (Id id) n acc) counts c.

(** A well-formed counter line: the key, its head aggregate and the
    daily buckets. *)
Definition bucket_text (b : string * Z) : string := fst b ++ "=" ++ print (snd b).

Definition render (key : string) (head : Z) (buckets : list (string * Z)) : string :=
  JS.join ";" ((key ++ "=" ++ print head) :: map bucket_text buckets).

(** The buckets of a line once [t] is merged on day [MMdd]: the bucket of
    that day grows by [t], or a new bucket holding [t] is added at the
    end. *)
Fixpoint bump (t : Z) (buckets : list (string * Z)) : list (string * Z) :=
  match buckets with
  | [] => [(MMdd, t)]
  | (d, v) :: rest =>
      if String.eqb d MMdd then (d, (v + t)%Z) :: rest
      else (d, v) :: bump t rest
  end.

(** The sum of the counts as [hit] takes them. *)
Definition total (counts : list (option Z)) : Z :=
  fold_right (fun n s => (or1 n + s)%Z) 0%Z counts.

(** The magnitudes of the counts, added up: while this is a safe
    integer, so is every sum that [hit] passes through, and [+=] adds as
    on integers. *)
Definition weight (counts : list (option Z)) : Z :=
  fold_right (fun n s => (Z.abs (or1 n) + s)%Z) 0%Z counts.

(** An id that can be found again in a line of the file: it holds no
    [=], no [;] and no line feed. The empty id is one of them: [hit] and
    the flush treat it like any other id; [CP.read] does not, and the
    ids it is asked for are those of [CounterMore.own_id]. The name of a
    daily bucket: four characters, as [NOW.format('MMdd')] gives them,
    none of them a [;] or a line feed. *)
Definition plain_id (id : string) : Prop :=
  JS.contains "=" id = false /\ JS.contains ";" id = false
  /\ JS.contains "010" id = false.

Definition day_name (d : string) : Prop :=
  String.length d = 4%nat /\ JS.contains ";" d = false /\ JS.contains "010" d = false.

(** A stored number that takes a pending sum [t] in: both, and what they
    add up to, are safe integers. *)
Definition takes_in (t v : Z) : Prop :=
  JS.safe_integer v /\ JS.safe_integer (v + t).

(** The id under which [on_data] looks a line up. *)
Definition line_id (line : string) : string :=
  JS.substring 0 (JS.indexOf "=" (line ++ NEWLINE)) (line ++ NEWLINE).

(** A line of the counter file as the streamer cuts it out: it holds no
    line feed, and the key it starts with is none that the cache object,
    an object literal, inherits (for which [cache[id]] is not
    [undefined] although nothing is pending). *)
Definition file_line (line : string) : Prop :=
  JS.contains "010" line = false /\ JS.own_key (line_id line).

End Now.

End Counter.

(** ** The counter: [CP.remove] and the summary of [CP.read] *)

Module CounterMore.
Import Counter.
Local Open Scope string_scope.

(** [CP.remove(id)]: the key, or every key of an array, is set to [null]
    in the cache, which is created on demand. The keys are the ones the
    counter file starts its lines with. *)
Definition remove (id : string + list string) (c : option cache) : option cache :=
  Some (match id with
        | inl s => set s CNull (entries c)
        | inr l => fold_left (fun m n => set n CNull m) l (entries c)
        end).

(** [output || 0] on the running total of [CP.read], which starts as
    [null]. *)
Definition or0 (output : option JS.number) : JS.number :=
  match output with
  | Some (JS.Num z) => if (z =? 0)%Z then JS.Num 0 else JS.Num z
  | _ => JS.Num 0
  end.

(** [value.substring(index + 1, value.indexOf(';'))]: the head aggregate
    of a line. *)
Definition head_text (value : string) : string :=
  JS.substring (JS.indexOf "=" value + 1) (JS.indexOf ";" value) value.

(** [value.substring(7, index)] and [value.substring(0, 3)] *)
Definition read_key (value : string) : string :=
  JS.substring 7 (JS.indexOf "=" value) value.
Definition read_type (value : string) : string := JS.substring 0 3 value.


(** The same handler when ids are given: [keys[type + key]] holds for the
    keys named in [options.id], and [output[key] = +val]. *)
Definition read_ids_data (ids : list string) (output : list (string * JS.number))
    (value : string) : list (string * JS.number) :=
  if negb (String.eqb "sum" (read_type value)) then output
  else if existsb (String.eqb (read_key value)) ids
  then (read_key value, JS.to_number (head_text value))
         :: List.filter (fun kv => negb (String.eqb (fst kv) (read_key value))) output
  else output.

(** [output[options.id[0]] || 0] *)
Definition lookup_or0 (output : list (string * JS.number)) (id : string) : JS.number :=
  or0 (option_map snd (List.find (fun kv => String.eqb (fst kv) id) output)).

(** [CP.count(id, callback)] with one id, and [CP.count(callback)]: what
    the callback receives. The file is given by the chunks the
    framework's [streamer] (not part of this file) hands over: its lines,
    line feed included. A missing file gives no chunk. The id is one
    that [CP.read] takes for a key of its own ([own_id] below): the empty
    id is read as no id, and for a name that [output] inherits
    [output[id] || 0] finds the inherited value when no line was read. *)
Definition count_id (id : string) (values : list string) : JS.number :=
  lookup_or0 (fold_left (read_ids_data [id]) values []) id.


(** The sum of the daily buckets of a line. *)
Definition bucket_sum (buckets : list (string * Z)) : Z :=
  fold_right (fun b s => (snd b + s)%Z) 0%Z buckets.

(** A line of the counter file as [CP.save] writes it for a sum: the year
    and the id of its key, the head aggregate and the daily buckets. *)
Record sum_line := mkline {
  l_year : Z;
  l_id : string;
  l_head : Z;
  l_buckets : list (string * Z)
}.

Definition line_text (l : sum_line) : string :=
  render (sum_key (l_year l) (l_id l)) (l_head l) (l_buckets l).

(** The id holds neither [=] nor [;], the year prints with four digits
    and there is at least one bucket. *)
Definition well_line (l : sum_line) : Prop :=
  plain_id (l_id l) /\ String.length (year_text (l_year l)) = 4%nat /\ l_buckets l <> [].

(** The line has one bucket at least, and its buckets are named by days. *)
Definition day_line (l : sum_line) : Prop :=
  well_line l /\ Forall (fun b => day_name (fst b)) (l_buckets l).


(** A line in balance: its head aggregate is the sum of its daily
    buckets. With an id free of [=], [;] and line feeds and buckets named
    by days, the text of the line gives its key, head and buckets back
    ([split_render] below), so that this is a property of the text. *)
Definition balanced (l : sum_line) : Prop :=
  plain_id (l_id l) /\ Forall (fun b => day_name (fst b)) (l_buckets l)
  /\ l_head l = bucket_sum (l_buckets l).

(** A number of less than [2 ^ 52] in magnitude: two of them add up to a
    safe integer, so that the engine adds them as integers are added. *)
Definition modest (z : Z) : Prop := (Z.abs z < 2 ^ 52)%Z.

Definition modest_line (l : sum_line) : Prop :=
  modest (l_head l) /\ Forall (fun b => modest (snd b)) (l_buckets l).

(** An entry of the cache that belongs to a sum: its key is the one
    [hit] makes of a plain id, and it holds a modest number, [null] after
    [remove], or nothing. *)
Definition sum_entry (kv : string * cval) : Prop :=
  (exists y id, fst kv = sum_key y id /\ plain_id id)
  /\ match snd kv with
     | CNum t => modest t
     | CPair _ _ => False
     | CNull | CUndefined => True
     end.


(** The magnitudes of the buckets of a line, added up. *)
Definition bucket_weight (buckets : list (string * Z)) : Z :=
  fold_right (fun b s => (Z.abs (snd b) + s)%Z) 0%Z buckets.

(** An id that [CP.read] takes for one key: it is not empty (an empty id
    is falsy, and the read then runs over all lines), and it is none of
    the names the [output] object, an object literal, inherits (for
    which [output[id]] is not [undefined] although no line was read). *)
Definition own_id (id : string) : Prop := id <> "" /\ JS.own_key id.

End CounterMore.

(** ** The backup writer: [Backuper] *)

Module Backuper.
Local Open Scope string_scope.

(** A [Backuper] and its file: [this.items], [this.is], the text handed
    to an [Fs.appendFile] whose callback has not run yet, and the content
    of the file. Appends are taken to succeed. *)
Record state := mkstate {
  items : list string;
  is_ : bool;
  inflight : option string;
  file : string
}.

(** [new Backuper(filename)] on an empty file. *)
Definition init : state := mkstate [] false None EmptyString.

(** [Backuper.prototype.flush] *)
Definition flush (s : state) : state :=
  if is_ s then s
  else match items s with
       | [] => s
       | _ :: _ => mkstate [] true (Some (JS.join EmptyString (items s))) (file s)
       end.

(** [Backuper.prototype.write]: [this.items.push(value); this.flush()] *)
Definition write (value : string) (s : state) : state :=
  flush (mkstate (items s ++ [value]) (is_ s) (inflight s) (file s)).

(** The callback of [Fs.appendFile], once the text is in the file:
    [self.is = false; self.flush()]. *)
Definition appended (s : state) : state :=
  match inflight s with
  | Some value => flush (mkstate (items s) false None (file s ++ value))
  | None => s
  end.

(** What happens to a backuper: a call of [write], or the completion of
    the append that is under way. *)
Inductive event :=
| Write (value : string)
| Appended.

Definition step (s : state) (e : event) : state :=
  match e with
  | Write value => write value s
  | Appended => appended s
  end.

Definition run (es : list event) : state := fold_left step es init.

(** The values written so far, in order. *)
Definition written (es : list event) : list string :=
  flat_map (fun e => match e with Write v => [v] | Appended => [] end) es.

(** The text that is in the file or on its way to it. *)
Definition content (s : state) : string :=
  file s ++ match inflight s with Some v => v | None => EmptyString end
         ++ JS.join EmptyString (items s).

End Backuper.

(** ** The header of a table file: [TP.parseSchema] and [TP.stringifySchema] *)

Module Schema.
Import Table.
Local Open Scope string_scope.

(** [String.prototype.toLowerCase] on characters below 256: the ASCII
    capitals and the capitals of the Latin-1 range. *)
Definition lower_char (c : ascii) : ascii :=
  let n := nat_of_ascii c in
  if ((65 <=? n) && (n <=? 90))%nat
     || ((192 <=? n) && (n <=? 222) && negb (n =? 215))%nat
  then ascii_of_nat (n + 32) else c.

Fixpoint toLowerCase (s : string) : string :=
  match s with
  | EmptyString => EmptyString
  | String c r => String (lower_char c) (toLowerCase r)
  end.

(** The [switch ((arg[1] || '').toLowerCase().trim())] of
    [TP.parseSchema]. *)
Definition parse_type (arg1 : option string) : coltype :=
  let t := JS.trim (toLowerCase (match arg1 with Some a => a | None => EmptyString end)) in
  if String.eqb t "number" then TNumber
  else if String.eqb t "boolean" || String.eqb t "bool" then TBoolean
  else if String.eqb t "date" then TDate
  else if String.eqb t "object" then TObject
  else TString.

(** One element of the array given to [TP.parseSchema]:
    [arg = arr[i].split(':')], the name [arg[0].trim()] and the type. *)
Definition parse_column (col : string) : string * coltype :=
  let arg := JS.split ":" col in
  (JS.trim (match JS.at_index arg 0 with Some a => a | None => EmptyString end),
   parse_type (JS.at_index arg 1)).

(** [TP.parseSchema(arr)] on an array of [name:type] texts. *)
Definition TP_parseSchema (arr : list string) : table :=
  parseSchema (map parse_column arr).

(** The [switch (meta.type)] of [TP.stringifySchema]. *)
Definition type_name (t : coltype) : string :=
  match t with
  | TString => "string"
  | TNumber => "number"
  | TBoolean => "boolean"
  | TDate => "date"
  | TObject => "object"
  end.

(** The loop of [TP.stringifySchema]; [None] when a key has no entry in
    [$schema] and reading [meta.type] throws. *)
Fixpoint stringify_keys (T : table) (ks : list string) : option (list string) :=
  match ks with
  | [] => Some []
  | key :: rest =>
      match schema T !! key, stringify_keys T rest with
      | Some m, Some data => Some ((key ++ ":" ++ type_name (type m)) :: data)
      | _, _ => None
      end
  end.

(** [TP.stringifySchema()] *)
Definition stringifySchema (T : table) : option string :=
  option_map (JS.join "|") (stringify_keys T (keys T)).

(** A column name that the header gives back: plain ASCII without [:] and
    [|], and without white space at its ends. *)
Definition is_ascii (c : ascii) : bool := (nat_of_ascii c <? 128)%nat.

Definition plain_name (name : string) : Prop :=
  JS.trim name = name /\ JS.contains ":" name = false /\ JS.contains "|" name = false
  /\ JS.all_chars is_ascii name = true.

End Schema.

(** ** Paging: [DatabaseBuilder.prototype.paginate], [DP.listing] and [listing] *)

Module Paging.
Import Doc Reader.

(** [DatabaseBuilder.prototype.paginate(page, limit, maxlimit)] on integer
    arguments. A missing argument is given as 0: [limit || 0] and
    [page || 0] read it so, [maxlimit && ...] skips it, and the [undefined]
    or [NaN] it leaves in [take] and [skip] is as falsy as 0 for the
    reader and for [listing]. The product [page * limit] is that of the
    integers; it is the one the engine computes as long as the arguments
    and the product are safe integers ([JS.safe_integer]). *)
Definition paginate (page limit maxlimit : Z) (o : options) : options :=
  let limit2 := limit in
  let page2 := page - 1 in
  let page2 := if page2 <? 0 then 0 else page2 in
  let limit2 := if negb (maxlimit =? 0) && (maxlimit <? limit2) then maxlimit else limit2 in
  let limit2 := if limit2 =? 0 then maxlimit else limit2 in
  mkoptions (first o) limit2 (page2 * limit2) (sort o) (scalar o) (listing o).

(** [DP.listing]: [builder.$options.listing = true] and
    [builder.$options.take = 100]; the job is queued like that of
    [DP.find]. *)
Definition DP_listing (o : options) : options :=
  mkoptions (first o) 100 (skip o) (sort o) (scalar o) true.

(** The object [listing(builder, item)] builds. *)
Record page_info := mkinfo {
  page : Q;
  pages : Z;
  limit_ : Z;
  count_items : Z;
  items_ : list doc
}.

(** [listing(builder, item)], on the fields the reader hands over. With
    [take] 0 the divisions give [NaN] or an infinity, which are outside
    this model. The quotients are those of the rationals: [skip / take]
    is the number the engine computes when it is an integer and [skip],
    [take] are safe integers, and the ceiling of [count / take] is the one
    [Math.ceil] gives on the rounded quotient when [count] and [take] are
    safe integers (the quotient, if no integer, is at least [1 / take]
    away from the next integer below, more than rounding moves it). *)
Definition listing_info (skip take count : Z) (items : list doc) : option page_info :=
  if take =? 0 then None
  else Some (mkinfo (inject_Z skip / inject_Z take + 1)%Q
                    (if count =? 0 then 0 else Qceiling (inject_Z count / inject_Z take))
                    take count items).

(** What the callback of a job receives when it is a listing. *)
Definition listing_of {acc : Type} (r : option (@result acc)) : option page_info :=
  match r with
  | Some (Listing s t c l) => listing_info s t c l
  | _ => None
  end.

End Paging.

(** ** Modify jobs in memory: the key loop of [DP.$update_inmemory] *)

Module ModifyMore.
Import Modify.
Local Open Scope string_scope.

(** The field a key of the object given to [DP.modify] stands for
    ([key.substring(1)] under an operator), and the operator [key[0]]. *)
Definition target (key : string) : string :=
  match key with
  | String c tmp => if is_sign c then tmp else key
  | EmptyString => key
  end.

Definition sign_of (key : string) : option ascii :=
  match key with
  | String c _ => if is_sign c then Some c else None
  | EmptyString => None
  end.

(** One key of the loop [for (var j = 0, jl = item.keys.length; j < jl; j++)]
    of [DP.$update_inmemory]: a function is called with the old field and
    the document, every other value is stored; [item.inc] is not read. *)
Definition apply_key_inmemory (j : job) (key : string) (d : gmap string Q) : gmap string Q :=
  match doc j !! key with
  | None => d
  | Some (Fn f) => <[key := f (d !! key) d]> d
  | Some (Val val) => <[key := val]> d
  end.

Definition apply_keys_inmemory (j : job) (d : gmap string Q) : gmap string Q :=
  fold_left (fun o key => apply_key_inmemory j key o) (keys j) d.

(** An object whose values are numbers. *)
Definition as_values (data : list (string * Q)) : list (string * modval) :=
  map (fun kv => (fst kv, Val (snd kv))) data.

(** An integer of less than [2 ^ 52] in magnitude: the engine, whose
    numbers are doubles, holds it exactly, and the sum and the difference
    of two of them as well. *)
Definition modest (q : Q) : Prop :=
  exists z : Z, q = inject_Z z /\ (Z.abs z < 2 ^ 52)%Z.

(** The operands on which [Modify.apply_inc], which computes with
    rationals, gives the number the engine computes: a modest value;
    under an operator a modest old field, if there is one; and for [/] a
    divisor other than 0 that divides the old field, the quotient being
    an integer then, and that is positive when the old field is 0
    (division by 0 gives an infinity or [NaN], a quotient that is no
    integer is rounded, and 0 divided by a negative number is the
    negative zero of the doubles). *)
Definition exact_operands (sign : option ascii) (old : option Q) (val : Q) : Prop :=
  modest val
  /\ match sign with
     | None => True
     | Some c =>
         match old with Some q => modest q | None => True end
         /\ (c = "/"%char ->
             ~ (val == 0)%Q
             /\ ((or0 old == 0)%Q -> (0 < val)%Q)
             /\ exists k : Z, (or0 old == inject_Z k * val)%Q)
     end.

End ModifyMore.

(** ** The update pass of a database kept in memory: [DP.$update_inmemory] *)

Module UpdateInmemory.
Import Modify ModifyMore.

(** Documents hold numbers, as in [Modify]. The stored documents and the
    documents of the jobs are taken to be different objects, and an
    update job holds a document: [update(fn)] with a function is outside
    this model. *)
Abbreviation document := (gmap string Q).

(** What a job of [pending_update] holds: [item.keys] and the values of a
    modify job, or the document [item.doc] of an update job. *)
Inductive work :=
| Keys (j : job)
| Whole (d : document).

(** An entry of [pending_update] with its compiled filter ([item.compare],
    of which the loop needs the truth value only) and [item.count]. *)
Record item := mkitem {
  compare : document -> bool;
  todo : work;
  count : Z
}.

Definition counted (it : item) : item := mkitem (compare it) (todo it) (count it + 1).

(** [doc[...] = ...] when [doc] is the document of job [k]. *)
Definition held_set (k : nat) (d : document) (its : list item) : list item :=
  alter (fun it => mkitem (compare it) (Whole d) (count it)) k its.

(** The loop over the jobs for one stored document. The variable [doc]
    starts as [data[a]]; [held] tells which object it refers to: the stored
    one ([None]) or, after [doc = item.doc], the document of job [k].
    [cur] is the content of that object and [stored] the content of
    [data[a]]. The jobs in [before] have been passed. *)
Fixpoint jobs_loop (before after : list item) (held : option nat)
    (cur stored : document) : document * list item :=
  match after with
  | [] => (stored, before)
  | it :: rest =>
      if compare it cur then
        match todo it with
        | Keys j =>
            let cur' := apply_keys_inmemory j cur in
            match held with
            | None => jobs_loop (before ++ [counted it]) rest None cur' cur'
            | Some k => jobs_loop (held_set k cur' before ++ [counted it]) rest held cur' stored
            end
        | Whole d =>
            jobs_loop (before ++ [counted it]) rest (Some (length before)) d stored
        end
      else jobs_loop (before ++ [it]) rest held cur stored
  end.

(** The loop over [self.inmemory['#']]. *)
Fixpoint documents_loop (data : list document) (its : list item)
    : list document * list item :=
  match data with
  | [] => ([], its)
  | d :: rest =>
      let '(d', its') := jobs_loop [] its None d d in
      let '(rest', its'') := documents_loop rest its' in
      (d' :: rest', its'')
  end.

(** The keys job of a modify job. *)
Definition kind (it : item) : option job :=
  match todo it with
  | Keys j => Some j
  | Whole _ => None
  end.

(** What the modify jobs make of a document, up to the first update job
    that accepts it. *)
Fixpoint modified (its : list item) (d : document) : document :=
  match its with
  | [] => d
  | it :: rest =>
      if compare it d then
        match todo it with
        | Keys j => modified rest (apply_keys_inmemory j d)
        | Whole _ => d
        end
      else modified rest d
  end.

End UpdateInmemory.

(** ** The remove pass: [DP.$remove] and [DP.$remove_inmemory] *)

Module Remove.
Section Jobs.
Context {doc : Type}.

(** An entry of [pending_remove] with its compiled filter (the loops need
    its truth value only), whether it asks for a backup
    ([item.backup || item.builder.$options.backup]) and [item.count]. *)
Record item := mkitem {
  compare : doc -> bool;
  backup : bool;
  count : Z
}.

Definition counted (it : item) : item := mkitem (compare it) (backup it) (count it + 1).

(** The loop [for (var i = 0; i < length; i++)] with its [break]: the
    index at which it stops, if a filter accepts the document. *)
Fixpoint first_match (d : doc) (its : list item) (i : nat) : option nat :=
  match its with
  | [] => None
  | it :: rest => if compare it d then Some i else first_match d rest (S i)
  end.

(** The body of the loop of [fs.ondocuments] in [DP.$remove] for one
    document ([TP.$remove] runs the same statements on the parsed rows):
    whether its line is rewritten with the tombstone marker, and the
    jobs. The variable [item] of [item.count++] is the one the last
    loop left: the job that accepted the document or, when the backup loop
    ran, the last job of the queue. *)
Definition remove_doc (d : doc) (its : list item) : bool * list item :=
  match first_match d its 0 with
  | None => (false, its)
  | Some i =>
      (true, alter counted (if existsb backup its then (length its - 1)%nat else i) its)
  end.

Fixpoint remove_pass (docs : list doc) (its : list item) : list bool * list item :=
  match docs with
  | [] => ([], its)
  | d :: rest =>
      let '(removed, its') := remove_doc d its in
      let '(flags, its'') := remove_pass rest its' in
      (removed :: flags, its'')
  end.

(** The loop of [DP.$remove_inmemory]: the documents kept in [arr], and
    the jobs. *)
Fixpoint remove_inmemory (data : list doc) (its : list item) : list doc * list item :=
  match data with
  | [] => ([], its)
  | json :: rest =>
      if existsb (fun it => compare it json) its then
        remove_inmemory rest (map counted its)
      else
        let '(arr, its') := remove_inmemory rest its in
        (json :: arr, its')
  end.

(** Whether some job accepts the document. *)
Definition accepted (its : list item) (d : doc) : bool :=
  existsb (fun it => compare it d) its.

End Jobs.
Arguments item : clear implicits.
End Remove.

(** ** The counter: yearly statistics, [CP.yearly] and [counter_parse_years] *)

Module CounterStats.
Import Counter CounterMore.
Local Open Scope string_scope.

(** An element of the array [counter_parse_years] returns:
    [{ id: year, year: +year, value: ... }]. *)
Record year_stat := mkyear {
  y_id : string;
  y_year : JS.number;
  y_value : JS.number
}.

(** The body of the loop of [counter_parse_years] for [type = 'sum'] and
    no [type2]; the state is [tmp[year]]. *)
Definition parse_years_cell (year : string) (tmp : option year_stat) (cell : string)
    : option year_stat :=
  let val := JS.substring_from 5 cell in
  match tmp with
  | Some s => Some (mkyear (y_id s) (y_year s) (JS.plus (y_value s) (JS.to_number val)))
  | None => Some (mkyear year (JS.to_number year) (JS.to_number val))
  end.

(** [counter_parse_years(value, year, opt)]: the loop starts at [arr[1]]. *)
Definition counter_parse_years (value year : string) : list year_stat :=
  match fold_left (parse_years_cell year) (tl (JS.split ";" (JS.trim value))) None with
  | Some s => [s]
  | None => []
  end.

(** [if (output[key]) output[key].push.apply(output[key], tmp); else output[key] = tmp] *)
Fixpoint push_at (key : string) (tmp : list year_stat)
    (output : list (string * list year_stat)) : list (string * list year_stat) :=
  match output with
  | [] => [(key, tmp)]
  | (k, v) :: r =>
      if String.eqb k key then (k, (v ++ tmp)%list) :: r else (k, v) :: push_at key tmp r
  end.

(** The handler of [reader.on('data', ...)] in [CP.read] for
    [options.subtype = 1], [options.type = 'sum'] and given ids. *)
Definition read_years_data (ids : list string) (output : list (string * list year_stat))
    (value : string) : list (string * list year_stat) :=
  if negb (String.eqb "sum" (read_type value)) then output
  else if existsb (String.eqb (read_key value)) ids
  then push_at (read_key value) (counter_parse_years value (JS.substring 3 7 value)) output
  else output.

(** [output[options.id[0]] || EMPTYARRAY] *)
Definition lookup_or_empty (output : list (string * list year_stat)) (id : string)
    : list year_stat :=
  match List.find (fun kv => String.eqb (fst kv) id) output with
  | Some kv => snd kv
  | None => []
  end.

(** [CP.yearly(id, callback)] with one id: what the callback receives,
    the file given by its lines, line feed included. The id is one that
    [CP.read] takes for a key of its own ([own_id]): the empty id is read
    as no id, and for a name that [output] inherits [output[key]] is
    truthy before any line is read, [push] is then looked up on the
    inherited value, and the read throws. *)
Definition yearly_id (id : string) (values : list string) : list year_stat :=
  lookup_or_empty (fold_left (read_years_data [id]) values []) id.

End CounterStats.

(** ** Scalar queries: the [switch (builder.$options.scalar)] of [DP.$reader2] *)

Module Scalar.
Import Doc Reader.

(** [item.scalar]: undefined at first, then a number or, for [group], an
    object of counters. Values and operations that leave the integers
    (texts, dates, objects and what [+], [<] and [>] make of them) are
    gathered in [SOutside]. *)
Inductive sval :=
| SUndefined
| SNum (n : JS.number)
| SGroup (g : list (string * Z))
| SOutside.

(** [item.scalar] and [item.scalarcount]. *)
Record acc := mkacc {
  item_scalar : sval;
  item_scalarcount : Z
}.

(** The state of a job: [fil.scalarcount = 0] and no [scalar] yet. *)
Definition state (a : option acc) : acc :=
  match a with
  | Some x => x
  | None => mkacc SUndefined 0
  end.

Definition num_truthy (n : JS.number) : bool :=
  match n with
  | JS.Num z => negb (z =? 0)
  | JS.NaN => false
  end.

(** [output[field] || 0], when it is a number. *)
Definition or_zero (v : jsval) : option JS.number :=
  if truthy v then match v with VNum n => Some n | _ => None end
  else Some (JS.Num 0).

(** [item.scalar = item.scalar ? item.scalar + val : val]; the sum is
    that of the integers, which is the sum of the doubles while both
    operands and the sum are safe integers. *)
Definition add (s : sval) (val : JS.number) : sval :=
  match s with
  | SUndefined => SNum val
  | SNum n => if num_truthy n then SNum (JS.plus n val) else SNum val
  | SGroup _ | SOutside => SOutside
  end.

(** [if (item.scalar) { if (item.scalar > val) item.scalar = val; } else item.scalar = val] *)
Definition lower (s : sval) (val : JS.number) : sval :=
  match s with
  | SUndefined => SNum val
  | SNum n => if num_truthy n then (if JS.gt n val then SNum val else SNum n) else SNum val
  | SGroup _ | SOutside => SOutside
  end.

(** The same with [<]. *)
Definition higher (s : sval) (val : JS.number) : sval :=
  match s with
  | SUndefined => SNum val
  | SNum n => if num_truthy n then (if JS.lt n val then SNum val else SNum n) else SNum val
  | SGroup _ | SOutside => SOutside
  end.

(** [if (item.scalar[val]) item.scalar[val]++; else item.scalar[val] = 1],
    on an object whose keys are in insertion order. *)
Fixpoint group_bump (key : string) (g : list (string * Z)) : list (string * Z) :=
  match g with
  | [] => [(key, 1)]
  | (k, n) :: r =>
      if String.eqb k key then (k, if n =? 0 then 1 else n + 1) :: r
      else (k, n) :: group_bump key r
  end.

(** The property name a value turns into, for numbers, texts and
    booleans. *)
Definition group_key (v : jsval) : option string :=
  match v with
  | VNum n => Some (JS.number_to_string n)
  | VStr s => Some s
  | VBool true => Some "true"%string
  | VBool false => Some "false"%string
  | _ => None
  end.

(** The [switch (builder.$options.scalar)] of [DP.$reader2], for the
    field [builder.$options.scalarfield]. The field is read as a key of
    the document's own ([JS.own_key]): under a name that every object
    inherits, a document without the field holds the inherited value. *)
Definition scalar_step (field : string) (t : scalartype) (output : doc) (a : option acc)
    : option acc :=
  let s := item_scalar (state a) in
  let n := item_scalarcount (state a) in
  let v := get output field in
  Some
    match t with
    | count_ => mkacc (add s (JS.Num 1)) n
    | sum_ =>
        match or_zero v with
        | Some val => mkacc (add s val) n
        | None => mkacc SOutside n
        end
    | min_ =>
        match or_zero v with
        | Some val => mkacc (lower s val) n
        | None => mkacc SOutside n
        end
    | max_ =>
        match v with
        | VUndefined | VNull => mkacc s n
        | VNum val => mkacc (higher s val) n
        | _ => mkacc SOutside n
        end
    | avg_ =>
        match v with
        | VUndefined | VNull => mkacc s n
        | VNum val => mkacc (add s val) (n + 1)
        | _ => mkacc SOutside (n + 1)
        end
    | group_ =>
        let g := match s with
                 | SUndefined => Some []
                 | SGroup g => Some g
                 | SNum x => if num_truthy x then None else Some []
                 | SOutside => None
                 end in
        match v, g with
        | (VUndefined | VNull), Some g => mkacc (SGroup g) n
        | _, Some g =>
            match group_key v with
            | Some key => mkacc (SGroup (group_bump key g)) n
            | None => mkacc SOutside n
            end
        | _, None => mkacc SOutside n
        end
    end.

(** The integer in a field; 0 for anything else. *)
Definition number_of (v : jsval) : Z :=
  match v with
  | VNum (JS.Num z) => z
  | _ => 0
  end.

(** The field holds an integer or something falsy, and the field holds an
    integer other than 0. *)
Definition summable (field : string) (m : doc) : Prop :=
  (exists z, get m field = VNum (JS.Num z)) \/ truthy (get m field) = false.

Definition nonzero (field : string) (m : doc) : Prop :=
  exists z, get m field = VNum (JS.Num z) /\ z <> 0.

Definition total (l : list Z) : Z := fold_right Z.add 0 l.
Definition least (l : list Z) : Z := fold_left Z.min (tl l) (hd 0 l).
Definition greatest (l : list Z) : Z := fold_left Z.max (tl l) (hd 0 l).

(** The magnitudes of the numbers, added up: while this is a safe
    integer, so is every sum the loop passes through, and [add] computes
    what [item.scalar + val] does. *)
Definition weight (l : list Z) : Z := fold_right (fun z s => Z.abs z + s) 0 l.

End Scalar.

(** * Part II: the properties *)

#[local] Arguments String.append !_ _ / : simpl nomatch.

(** ** Scheduler *)

Section SchedulerFacts.
Import Scheduler.
Context {job : Type}.
Implicit Types (d : db job) (p : phase).

Lemma next_body_writing mem type d p :
  next_body mem type d = Start p -> writing_phase p = true -> writting d = false.
Proof.
  unfold next_body.
  destruct (writting d); [| reflexivity].
  cbn [negb andb].
  repeat (match goal with
          | |- context [if ?b then _ else _] => destruct b
          end; try discriminate);
    intros [= <-]; try destruct mem; discriminate.
Qed.

Lemma next_body_reading mem type d p :
  next_body mem type d = Start p -> reading_phase p = true -> reading d = false.
Proof.
  unfold next_body.
  destruct (reading d); [| reflexivity].
  rewrite !andb_false_r. cbn [negb andb].
  repeat (match goal with
          | |- context [if ?b then _ else _] => destruct b
          end; try discriminate);
    intros [= <-]; try destruct mem; discriminate.
Qed.

(** C5. A call of [next(type)] with a nonzero [type] while [step] is one
    of the NEXTWAIT steps (7, 8, 9, 12, 13, 14) starts no operation; and
    neither [DP.next] nor [TP.next] ever starts an append, update or
    remove while the writing flag is set, or a reader, reverse reader or
    streamer while the reading flag is set. *)
Theorem next_phase_exclusivity (type : Z) d :
  (type <> 0 -> NEXTWAIT (step d) = true ->
     starts_nothing (DP_next type d) /\ starts_nothing (TP_next type d)) /\
  (forall p, DP_next type d = Start p \/ TP_next type d = Start p ->
     (writing_phase p = true -> writting d = false) /\
     (reading_phase p = true -> reading d = false)).
Proof.
  split.
  - intros Hty Hwait. unfold DP_next, TP_next, neqb.
    apply Z.eqb_neq in Hty. rewrite Hty, Hwait. cbn.
    rewrite orb_true_r. split; intros p; discriminate.
  - intros p [H | H].
    + unfold DP_next in H.
      destruct (neqb type 0 && NEXTWAIT (step d)); [discriminate |].
      split; [eapply next_body_writing | eapply next_body_reading]; eassumption.
    + unfold TP_next in H.
      destruct (negb (ready d) || neqb type 0 && NEXTWAIT (step d)); [discriminate |].
      split; [eapply next_body_writing | eapply next_body_reading]; eassumption.
Qed.

End SchedulerFacts.

Lemma next_phase_exclusivity_witness :
  (Scheduler.starts_nothing
     (Scheduler.DP_next 1
        (Scheduler.mkdb true 13 false false false false false
           [] [] [] [1%nat] [] [] [2%nat] [] []))
   /\ Scheduler.starts_nothing
        (Scheduler.TP_next 1
           (Scheduler.mkdb true 13 false false false false false
              [] [] [] [1%nat] [] [] [2%nat] [] [])))
  /\ Scheduler.writting
       (Scheduler.mkdb true 0 false true false false false
          [] [] [] [1%nat] [] [] [2%nat] [] []) = false.
Proof.
  split.
  - apply (proj1 (next_phase_exclusivity 1 _)); [lia | reflexivity].
  - apply (proj2 (next_phase_exclusivity 1
             (Scheduler.mkdb true 0 false true false false false
                [] [] [] [1%nat] [] [] [2%nat] [] [])) Scheduler.append).
    + left. reflexivity.
    + reflexivity.
Defined.

(** ** Modify operators *)

Section ModifyFacts.
Import Modify.
Local Open Scope string_scope.

(** The three operators that do what their prefix says. *)
Lemma apply_inc_plus old val : apply_inc "+" old val = Some (or0 old + val)%Q.
Proof. reflexivity. Qed.

Lemma apply_inc_minus old val : apply_inc "-" old val = Some (or0 old - val)%Q.
Proof. reflexivity. Qed.

Lemma apply_inc_divide old val : apply_inc "/" old val = Some (or0 old / val)%Q.
Proof. reflexivity. Qed.

(** The [*] prefix runs the same statement as [+]. *)
Lemma apply_inc_star old val : apply_inc "*" old val = apply_inc "+" old val.
Proof. reflexivity. Qed.

(** A missing field counts as 0. *)
Lemma or0_missing : or0 None = 0%Q.
Proof. reflexivity. Qed.

(** A job made of one prefixed key: the prefix is recorded in [inc] and
    the value moved to the bare key. *)
Lemma modify_one_prefixed (c : ascii) (field : string) (val : Q) :
  is_sign c = true ->
  modify [(String c field, Val val)]
  = Some (mkjob (delete (String c field) (<[field := Val val]> {[String c field := Val val]}))
                [field] (Some {[field := c]})).
Proof.
  intros Hc. unfold modify. cbn [map fst modify_keys]. rewrite Hc.
  cbn [doc keys inc]. unfold move_field.
  cbn [list_to_map foldr uncurry].
  rewrite lookup_insert_eq. rewrite insert_empty. reflexivity.
Qed.

Lemma string_cons_neq (c : ascii) (s : string) : String c s <> s.
Proof.
  intros H. apply (f_equal String.length) in H. cbn in H. lia.
Qed.

(** The whole path for one prefixed key: after the update pass the field
    holds what [apply_inc] computes from its old value. *)
Lemma modify_prefixed_field (c : ascii) (field : string) (val : Q) (output : gmap string Q) :
  is_sign c = true ->
  (j ← modify [(String c field, Val val)]; apply_keys j output !! field)
  = apply_inc c (output !! field) val.
Proof.
  intros Hc. rewrite (modify_one_prefixed c field val Hc). cbn [mbind option_bind].
  unfold apply_keys. cbn [keys fold_left]. unfold apply_key. cbn [doc inc].
  rewrite lookup_delete_ne by apply string_cons_neq.
  rewrite lookup_insert_eq. cbn [mbind option_bind].
  rewrite lookup_singleton_eq.
  unfold is_sign in Hc. unfold apply_inc.
  destruct (Ascii.eqb c "+"); [apply lookup_insert_eq |].
  destruct (Ascii.eqb c "-"); [apply lookup_insert_eq |].
  destruct (Ascii.eqb c "*"); [apply lookup_insert_eq |].
  destruct (Ascii.eqb c "/"); [apply lookup_insert_eq | discriminate].
Qed.

(** C3. [modify({'*n': 3})] on a document with [n = 2] leaves [n = 5]:
    the [*] prefix adds, where the claim asks for the product 6. *)
Theorem modify_star_adds :
  (j ← modify [("*n", Val 3)]; apply_keys j {["n" := 2%Q]} !! "n") = Some 5%Q
  /\ ~ (5 == 2 * 3)%Q.
Proof.
  split.
  - vm_compute. reflexivity.
  - intros H. vm_compute in H. discriminate.
Qed.

End ModifyFacts.

(** ** Counter: the write API *)

Section CounterFacts.
Import Counter.
Local Open Scope string_scope.
Context (year : Z).


Lemma get_set_eq key v (c : cache) : get (set key v c) key = v.
Proof.
  induction c as [| [k w] r IH]; cbn.
  - rewrite String.eqb_refl. reflexivity.
  - destruct (String.eqb k key) eqn:E; cbn; rewrite E; [reflexivity | apply IH].
Qed.











End CounterFacts.


(** ** Strings *)

Section StringFacts.
Local Open Scope string_scope.
Implicit Types (s t u : string) (c : ascii).

Lemma app_nil_r_s s : s ++ "" = s.
Proof. induction s as [| c s IH]; cbn [String.append String.length JS.take]; [reflexivity | now rewrite IH]. Qed.

Lemma app_assoc_s s t u : (s ++ t) ++ u = s ++ (t ++ u).
Proof. induction s as [| c s IH]; cbn [String.append String.length JS.take]; [reflexivity | now rewrite IH]. Qed.

Lemma length_app_s s t : String.length (s ++ t) = (String.length s + String.length t)%nat.
Proof. induction s as [| c s IH]; cbn [String.append String.length JS.take]; [reflexivity | now rewrite IH]. Qed.

Lemma drop_app_s s t : JS.drop (String.length s) (s ++ t) = t.
Proof. induction s as [| c s IH]; cbn [String.append String.length JS.drop]; [now destruct t | exact IH]. Qed.

Lemma take_app_s s t : JS.take (String.length s) (s ++ t) = s.
Proof. induction s as [| c s IH]; cbn [String.append String.length JS.take]; [now destruct t | now rewrite IH]. Qed.

Lemma take_all_s s : JS.take (String.length s) s = s.
Proof. induction s as [| c s IH]; cbn [String.append String.length JS.take]; [reflexivity | now rewrite IH]. Qed.

End StringFacts.

(** Appends nested to the right, characters pulled out in front. *)
Ltac normalize_app :=
  repeat first [rewrite app_assoc_s | progress cbn [String.append]].

(** ** The append path *)

Section AppendFacts.
Import Append.
Local Open Scope string_scope.
Context {builder : Type}.
Implicit Types (l g : list (item builder)) (es : list (event builder)).

Lemma limit_fuel_concat fuel max l :
  (0 < max)%nat -> (length l <= fuel)%nat -> concat (limit_fuel fuel max l) = l.
Proof.
  intros Hmax. revert l. induction fuel as [| f IH]; intros l Hlen.
  - destruct l; [reflexivity | cbn in Hlen; lia].
  - destruct l as [| x r]; [reflexivity |].
    cbn [limit_fuel concat]. rewrite IH.
    + apply firstn_skipn.
    + rewrite length_skipn. cbn [length] in *. lia.
Qed.

Lemma limit_fuel_sizes fuel max l :
  (0 < max)%nat ->
  Forall (fun g => (1 <= length g <= max)%nat) (limit_fuel fuel max l).
Proof.
  intros Hmax. revert l. induction fuel as [| f IH]; intros l; [constructor |].
  destruct l as [| x r]; [constructor |].
  cbn [limit_fuel]. constructor; [| apply IH].
  rewrite length_firstn. cbn [length]. lia.
Qed.

(** All groups but the last are full. *)
Lemma limit_fuel_full fuel max l :
  (0 < max)%nat ->
  Forall (fun g => length g = max) (removelast (limit_fuel fuel max l)).
Proof.
  intros Hmax. revert l. induction fuel as [| f IH]; intros l; [constructor |].
  destruct l as [| x r]; [constructor |].
  cbn [limit_fuel].
  destruct (limit_fuel f max (skipn max (x :: r))) as [| g gs] eqn:E; [constructor |].
  change (removelast (firstn max (x :: r) :: g :: gs))
    with (firstn max (x :: r) :: removelast (g :: gs)).
  constructor; [| rewrite <- E; apply IH].
  rewrite length_firstn.
  destruct (Nat.le_gt_cases max (length (x :: r))) as [Hle | Hgt]; [lia |].
  rewrite skipn_all2 in E by lia.
  destruct f; discriminate.
Qed.

Lemma group_json_app l g : group_json (l ++ g) = group_json l ++ group_json g.
Proof.
  induction l as [| x r IH]; cbn [group_json app]; [reflexivity |].
  rewrite IH. now rewrite !app_assoc_s.
Qed.

Lemma appended_callbacks g : appended (group_callbacks g) = [].
Proof.
  unfold appended.
  induction g as [| x r IH]; cbn [group_callbacks]; [reflexivity |].
  destruct (callback x); [cbn [flat_map app]; exact IH | exact IH].
Qed.

Lemma callbacks_group g :
  callbacks (group_callbacks g) = map (fun i => (builder_ i, 1)) (List.filter callback g).
Proof.
  unfold callbacks.
  induction g as [| x r IH]; cbn [group_callbacks List.filter]; [reflexivity |].
  destruct (callback x); cbn [flat_map map app]; now rewrite IH.
Qed.

Lemma appended_groups (groups : list (list (item builder))) :
  appended (concat (map append_group groups)) = map group_json groups.
Proof.
  induction groups as [| g gs IH]; [reflexivity |].
  cbn [map concat]. unfold appended in *. rewrite flat_map_app, IH.
  unfold append_group. cbn [flat_map]. fold (appended (group_callbacks g)).
  now rewrite appended_callbacks.
Qed.

Lemma callbacks_groups (groups : list (list (item builder))) :
  callbacks (concat (map append_group groups))
  = map (fun i => (builder_ i, 1)) (List.filter callback (concat groups)).
Proof.
  induction groups as [| g gs IH]; [reflexivity |].
  cbn [map concat]. rewrite List.filter_app, map_app, <- IH, <- callbacks_group.
  unfold callbacks, append_group. rewrite flat_map_app. reflexivity.
Qed.

Lemma file_after_groups (groups : list (list (item builder))) (f : string) :
  file_after (concat (map append_group groups)) f = f ++ group_json (concat groups).
Proof.
  revert f. induction groups as [| g gs IH]; intros f.
  - cbn. now rewrite app_nil_r_s.
  - cbn [map concat]. unfold file_after in *. rewrite fold_left_app.
    rewrite group_json_app, <- app_assoc_s, <- IH. f_equal.
    unfold append_group. cbn [fold_left].
    generalize (f ++ group_json g). intros a.
    induction g as [| x r IHg]; cbn [group_callbacks fold_left]; [reflexivity |].
    destruct (callback x); cbn [fold_left]; exact IHg.
Qed.

(** C9. A drained batch of pending appends is written group by group:
    the groups are consecutive, hold at most [JSONBUFFER] records (20, or
    40 in worker mode) and all but the last are full; each group costs one
    [appendFile] call whose data are the encoded lines of the group in
    submission order, so that the file grows by all lines in submission
    order; and every job with a callback sees it called once with
    count 1. *)
Theorem append_batches (worker : bool) (s : state builder) :
  pending_append s <> [] ->
  JSONBUFFER worker = (if worker then 40 else 20)%nat
  /\ exists groups,
      concat groups = pending_append s
      /\ Forall (fun g => (1 <= length g <= JSONBUFFER worker)%nat) groups
      /\ Forall (fun g => length g = JSONBUFFER worker) (removelast groups)
      /\ appended (snd (DP_append worker s)) = map group_json groups
      /\ file (fst (DP_append worker s)) = file s ++ group_json (pending_append s)
      /\ callbacks (snd (DP_append worker s))
         = map (fun i => (builder_ i, 1)) (List.filter callback (pending_append s))
      /\ pending_append (fst (DP_append worker s)) = []
      /\ writting (fst (DP_append worker s)) = false.
Proof.
  intros Hne. split; [reflexivity |].
  assert (Hmax : (0 < JSONBUFFER worker)%nat) by (destruct worker; cbn; lia).
  exists (limit (JSONBUFFER worker) (pending_append s)).
  assert (Hlimit : limit (JSONBUFFER worker) (pending_append s)
                   = limit_fuel (length (pending_append s)) (JSONBUFFER worker)
                       (pending_append s)).
  { unfold limit. destruct (JSONBUFFER worker); [lia | reflexivity]. }
  assert (Hcat : concat (limit (JSONBUFFER worker) (pending_append s)) = pending_append s).
  { rewrite Hlimit. apply limit_fuel_concat; [exact Hmax | lia]. }
  unfold DP_append. destruct (pending_append s) as [| x r] eqn:E; [congruence |].
  cbn [fst snd file pending_append writting].
  repeat split.
  - exact Hcat.
  - rewrite Hlimit. apply limit_fuel_sizes, Hmax.
  - rewrite Hlimit. apply limit_fuel_full, Hmax.
  - apply appended_groups.
  - rewrite file_after_groups, Hcat. reflexivity.
  - rewrite callbacks_groups, Hcat. reflexivity.
Qed.

End AppendFacts.

Lemma append_batches_witness :
  Append.appended
    (snd (Append.DP_append false
            (Append.mkstate 0 false
               [Append.mkitem "{}"%string 1%nat true; Append.mkitem "[]"%string 2%nat false]
               "x"%string)))
  = [String "{" (String "}" (String "010"%char
       (String "[" (String "]" (String "010"%char EmptyString)))))]
  /\ Append.callbacks
       (snd (Append.DP_append false
               (Append.mkstate 0 false
                  [Append.mkitem "{}"%string 1%nat true; Append.mkitem "[]"%string 2%nat false]
                  "x"%string)))
     = [(1%nat, 1)].
Proof.
  destruct (append_batches false
              (Append.mkstate 0 false
                 [Append.mkitem "{}"%string 1%nat true; Append.mkitem "[]"%string 2%nat false]
                 "x"%string)) as (_ & groups & _ & _ & _ & _ & _ & Hcb & _).
  - discriminate.
  - split; [vm_compute; reflexivity | exact Hcb].
Defined.

(** ** The write decision of the update pass *)

Section UpdateFacts.
Import Update.
Local Open Scope N_scope.
Implicit Types (s t upd : jsstring) (r : rec).

Lemma utf8_app_bounded (n : nat) s t :
  (length s <= n)%nat -> starts_low t = false -> utf8 (s ++ t) = utf8 s ++ utf8 t.
Proof.
  revert s. induction n as [| n IH]; intros s Hlen Ht.
  - destruct s; [reflexivity | cbn in Hlen; lia].
  - destruct s as [| c r]; [reflexivity |].
    cbn [length] in Hlen. cbn [utf8 app].
    destruct (c <? 0x80); [now rewrite IH by (first [lia | exact Ht]) |].
    destruct (c <? 0x800); [now rewrite <- app_assoc, IH by (first [lia | exact Ht]) |].
    destruct (is_high c).
    + destruct r as [| d r'].
      * cbn [app]. destruct t as [| d t']; [reflexivity |].
        cbn [starts_low] in Ht. rewrite Ht. reflexivity.
      * cbn [app length] in *. destruct (is_low d).
        -- now rewrite <- app_assoc, IH by (first [lia | exact Ht]).
        -- rewrite <- app_assoc. f_equal.
           change (d :: r' ++ t) with ((d :: r') ++ t). apply IH; [cbn; lia | exact Ht].
    + destruct (is_low c); now rewrite <- app_assoc, IH by (first [lia | exact Ht]).
Qed.

Lemma utf8_app s t : starts_low t = false -> utf8 (s ++ t) = utf8 s ++ utf8 t.
Proof. apply (utf8_app_bounded (length s)). lia. Qed.

Lemma utf8_newline s : utf8 (s ++ NEWLINE) = utf8 s ++ [10].
Proof. now rewrite utf8_app. Qed.

Lemma utf8_ascii c s : c < 0x80 -> utf8 (c :: s) = c :: utf8 s.
Proof. intros H. cbn [utf8]. apply N.ltb_lt in H. now rewrite H. Qed.

(** A random write of as many bytes as it replaces. *)
Lemma fs_write_exact (pre old data post : bytes) :
  length data = length old ->
  fs_write data (length pre) (pre ++ old ++ post) = pre ++ data ++ post.
Proof.
  intros Hlen. unfold fs_write.
  rewrite firstn_app, firstn_all, Nat.sub_diag, firstn_O, app_nil_r.
  rewrite skipn_app, skipn_all2 by lia. cbn [app].
  replace (length pre + length data - length pre)%nat with (length old) by lia.
  rewrite skipn_app, skipn_all, Nat.sub_diag, skipn_O. reflexivity.
Qed.

Lemma jsstring_eqb_eq upd s : jsstring_eqb upd s = true <-> upd = s.
Proof. unfold jsstring_eqb. apply bool_decide_eq_true. Qed.

(** What [update_writes] decides, case by case. *)
Lemma update_writes_cases upd r :
  (upd = doc r -> update_writes upd r = [])
  /\ (upd <> doc r -> length upd = length (doc r) -> byteLength upd = length_ r ->
      in_place (update_writes upd r) r upd)
  /\ (upd <> doc r -> length upd <> length (doc r) \/ byteLength upd <> length_ r ->
      tombstone_and_append (update_writes upd r) r upd).
Proof.
  unfold update_writes, in_place, tombstone_and_append.
  destruct (jsstring_eqb upd (doc r)) eqn:E.
  - apply jsstring_eqb_eq in E. repeat split; intros; first [reflexivity | contradiction].
  - assert (Hne : upd <> doc r).
    { intros H. apply jsstring_eqb_eq in H. congruence. }
    repeat split.
    + intros H. contradiction.
    + intros _ Hl Hb. rewrite Hl, Hb, !Nat.eqb_refl. reflexivity.
    + intros _ [Hl | Hb].
      * destruct (Nat.eqb_spec (length (doc r)) (length upd)); [congruence | reflexivity].
      * destruct (Nat.eqb_spec (length_ r) (byteLength upd)); [congruence |].
        now rewrite andb_false_r.
Qed.

(** C2 (amended). For a mutated document whose line starts with a
    one-byte character and sits at [position] in the file:
    if the new encoding is the old text, nothing is written; if it
    differs but has the same number of characters and the same byte
    length, it is written in place at the line's position and the file
    keeps its length; in every other case the line is rewritten at its
    position with the tombstone marker as its leading byte and the new
    encoding lands at the end of the file. *)
Theorem update_write_decision upd r (pre post : bytes) (c : N) (rest : jsstring) :
  doc r = c :: rest -> c < 0x80 ->
  position r = length pre -> length_ r = byteLength (doc r) ->
  let file := pre ++ utf8 (doc r) ++ [10] ++ post in
  let ws := update_writes upd r in
  (upd = doc r -> ws = [] /\ run_writes ws file [] = file)
  /\ (upd <> doc r -> length upd = length (doc r) -> byteLength upd = byteLength (doc r) ->
       in_place ws r upd
       /\ run_writes ws file [] = pre ++ utf8 upd ++ [10] ++ post)
  /\ (upd <> doc r ->
       length upd <> length (doc r) \/ byteLength upd <> byteLength (doc r) ->
       tombstone_and_append ws r upd
       /\ run_writes ws file [] = pre ++ [45] ++ utf8 rest ++ [10] ++ post ++ utf8 upd ++ [10]).
Proof.
  intros Hdoc Hc Hpos Hlen file ws.
  destruct (update_writes_cases upd r) as (Hsame & Hplace & Htomb).
  subst ws. split; [| split].
  - intros H. rewrite (Hsame H). cbn [run_writes]. split; [reflexivity | apply app_nil_r].
  - intros Hne Hl Hb. split; [apply Hplace; congruence |].
    rewrite Hplace by congruence. cbn [run_writes]. rewrite app_nil_r, Hpos, utf8_newline.
    subst file. rewrite (app_assoc (utf8 (doc r))).
    rewrite fs_write_exact; [now rewrite <- app_assoc |].
    rewrite !length_app. unfold byteLength in *. cbn [length]. lia.
  - intros Hne Hor. split; [apply Htomb; [assumption | rewrite Hlen; tauto] |].
    rewrite Htomb; [| assumption | rewrite Hlen; tauto].
    cbn [run_writes]. rewrite Hpos, Hdoc. cbn [substring1 tl remchar app].
    rewrite !utf8_newline, (utf8_ascii 45), utf8_newline by reflexivity.
    subst file. rewrite Hdoc, utf8_ascii by assumption.
    rewrite (app_assoc (c :: utf8 rest) [10] post).
    rewrite fs_write_exact by (cbn [length app]; reflexivity).
    rewrite <- !app_assoc. cbn [app]. rewrite <- !app_assoc. reflexivity.
Qed.

(** C2, as stated, fails: a new encoding of the same byte length as the
    original line, but with another number of characters, is not written
    in place. Here the line holds a two-byte letter and the new text two
    one-byte letters. *)
Lemma same_bytes_not_in_place :
  length_ (mkrec [123; 34; 97; 34; 58; 34; 233; 34; 125] 10 0)
  = byteLength [123; 34; 97; 34; 58; 34; 233; 34; 125]
  /\ byteLength [123; 34; 97; 34; 58; 34; 120; 121; 34; 125]
     = length_ (mkrec [123; 34; 97; 34; 58; 34; 233; 34; 125] 10 0)
  /\ ~ in_place
        (update_writes [123; 34; 97; 34; 58; 34; 120; 121; 34; 125]
           (mkrec [123; 34; 97; 34; 58; 34; 233; 34; 125] 10 0))
        (mkrec [123; 34; 97; 34; 58; 34; 233; 34; 125] 10 0)
        [123; 34; 97; 34; 58; 34; 120; 121; 34; 125]
  /\ tombstone_and_append
       (update_writes [123; 34; 97; 34; 58; 34; 120; 121; 34; 125]
          (mkrec [123; 34; 97; 34; 58; 34; 233; 34; 125] 10 0))
       (mkrec [123; 34; 97; 34; 58; 34; 233; 34; 125] 10 0)
       [123; 34; 97; 34; 58; 34; 120; 121; 34; 125].
Proof.
  repeat split; try reflexivity.
  intros H. vm_compute in H. discriminate.
Qed.

End UpdateFacts.

Lemma update_write_decision_witness :
  Update.run_writes
    (Update.update_writes [123; 34; 97; 34; 58; 49; 50; 125]%N
       (Update.mkrec [123; 34; 97; 34; 58; 49; 125]%N 7 3))
    ([120; 120; 10] ++ Update.utf8 [123; 34; 97; 34; 58; 49; 125]%N ++ [10] ++ [])%N []
  = ([120; 120; 10] ++ [45] ++ Update.utf8 [34; 97; 34; 58; 49; 125] ++ [10] ++ []
       ++ Update.utf8 [123; 34; 97; 34; 58; 49; 50; 125] ++ [10])%N.
Proof.
  apply (update_write_decision [123; 34; 97; 34; 58; 49; 50; 125]%N
           (Update.mkrec [123; 34; 97; 34; 58; 49; 125]%N 7 3)
           [120; 120; 10]%N [] 123%N [34; 97; 34; 58; 49; 125]%N).
  - reflexivity.
  - reflexivity.
  - reflexivity.
  - reflexivity.
  - discriminate.
  - left. cbn. lia.
Defined.

(** ** First-match readers *)

Section ReaderFacts.
Import Doc Reader.
Context (COMPARER : string -> string -> Z).
Context (quicksort : string -> bool -> list doc -> list doc).
Context {acc : Type} (scalar_step : scalartype -> doc -> option acc -> option acc).

Abbreviation item_step' := (item_step COMPARER quicksort scalar_step).
Abbreviation finish' := (@finish quicksort acc).

Lemma in_removelast {A : Type} (l : list A) x : In x (removelast l) -> In x l.
Proof.
  induction l as [| a r IH]; [cbn; tauto |].
  destruct r as [| b r']; [cbn; tauto |].
  change (removelast (a :: b :: r')) with (a :: removelast (b :: r')).
  intros [-> | H]; [now left | right; apply IH, H].
Qed.

Lemma resort_from_members s d (arr : list doc) beg :
  arr <> [] ->
  resort_from COMPARER s d arr beg <> []
  /\ forall x, In x (resort_from COMPARER s d arr beg) -> x = d \/ In x arr.
Proof.
  revert beg. induction arr as [| a r IH]; intros beg Hne; [congruence |].
  cbn [resort_from]. destruct beg as [| k].
  - destruct (nosqlsortvalue COMPARER _ _ s).
    + split; [discriminate |]. intros x [-> | H]; [now left |].
      right. apply in_removelast, H.
    + split; [discriminate |]. intros x [-> | H]; [right; now left |].
      destruct r as [| b r']; [destruct H |].
      destruct (IH O ltac:(discriminate)) as [_ Hin].
      destruct (Hin x H) as [-> | Hx]; [now left | right; now right].
  - split; [discriminate |]. intros x [-> | H]; [right; now left |].
    destruct r as [| b r']; [destruct H |].
    destruct (IH k ltac:(discriminate)) as [_ Hin].
    destruct (Hin x H) as [-> | Hx]; [now left | right; now right].
Qed.

Lemma nosqlresort_members s (arr : list doc) d :
  arr <> [] ->
  nosqlresort COMPARER s arr d <> []
  /\ forall x, In x (nosqlresort COMPARER s arr d) -> x = d \/ In x arr.
Proof.
  intros Hne. unfold nosqlresort.
  destruct (nth_error arr (length arr - 1)) as [l |]; [| split; [exact Hne | auto]].
  destruct (negb _); [split; [exact Hne | auto] |].
  apply resort_from_members, Hne.
Qed.

Lemma nosqlinlinesorter_members (Hq : reorders quicksort) o s resp d :
  (forall arr, resp = Some arr -> arr <> []) ->
  nosqlinlinesorter COMPARER quicksort o s resp d <> []
  /\ forall x, In x (nosqlinlinesorter COMPARER quicksort o s resp d) ->
       x = d \/ exists arr, resp = Some arr /\ In x arr.
Proof.
  intros Hne. unfold nosqlinlinesorter. destruct resp as [arr |].
  - specialize (Hne arr eq_refl).
    assert (Happ : arr ++ [d] <> [] /\
                   forall x, In x (arr ++ [d]) -> x = d \/ exists a, Some arr = Some a /\ In x a).
    { split; [now destruct arr |]. intros x Hx. apply in_app_or in Hx.
      destruct Hx as [Hx | [-> | []]]; [right; eauto | now left]. }
    destruct (Z.of_nat (length arr) <? limit o).
    + destruct (limit o <=? Z.of_nat (length arr) + 1); [| exact Happ].
      pose proof (Hq (name s) (asc s) (arr ++ [d])) as Hp. split.
      * intros E. rewrite E in Hp. apply Permutation_nil in Hp. now apply Happ.
      * intros x Hx. apply Happ. eapply Permutation_in; eassumption.
    + destruct (nosqlresort_members s arr d Hne) as [H1 H2]. split; [exact H1 |].
      intros x Hx. destruct (H2 x Hx); [now left | right; eauto].
  - split; [discriminate |]. intros x [-> | []]. now left.
Qed.

Lemma settled_nonempty o p (it : @item acc) ms l :
  settled o p it ms -> response it = Some l -> ms <> [].
Proof.
  intros (_ & _ & _ & _ & _ & Hsome) Hr E. subst ms.
  destruct (Hsome l Hr) as (Hne & Hin & _).
  destruct l as [| x r]; [congruence |]. apply (Hin x). now left.
Qed.

Lemma count_app (ms : list doc) m n :
  n = Z.of_nat (length ms) -> n + 1 = Z.of_nat (length (ms ++ [m])).
Proof. intros ->. rewrite length_app. cbn [length]. lia. Qed.

(** A match that is passed over leaves the response as it is. *)
Lemma settled_skip o p (it : @item acc) ms m c :
  settled o p it ms -> response it <> None ->
  settled o p (set_state it (count it + 1) c (response it) (scalar_acc it)) (ms ++ [m]).
Proof.
  intros Hset Hresp. pose proof Hset as (Hb & Hc & Hty & Hn & Hnone & Hsome).
  unfold settled, set_state. cbn [builder compare type_ count counter response].
  do 3 (split; [assumption |]). split; [now apply count_app |].
  split; [intros H; contradiction |].
  intros l H. destruct (Hsome l H) as (Hne & Hin & Hhd).
  split; [exact Hne |]. split.
  - intros x Hx. apply in_or_app. left. now apply Hin.
  - intros Hsort. rewrite (Hhd Hsort).
    pose proof (settled_nonempty o p it ms l Hset H) as Hms.
    destruct ms; [congruence | reflexivity].
Qed.

(** A match that is pushed on the response. *)
Lemma settled_push o p (it : @item acc) ms m c a :
  settled o p it ms ->
  settled o p (set_state it (count it + 1) c (Some (default [] (response it) ++ [m])) a)
          (ms ++ [m]).
Proof.
  intros Hset. pose proof Hset as (Hb & Hc & Hty & Hn & Hnone & Hsome).
  unfold settled, set_state. cbn [builder compare type_ count counter response].
  do 3 (split; [assumption |]). split; [now apply count_app |].
  split; [discriminate |].
  intros l H. injection H as <-.
  split; [now destruct (default [] (response it)) |]. split.
  - intros x Hx. apply in_app_or in Hx. apply in_or_app.
    destruct Hx as [Hx | Hx]; [left | now right].
    destruct (response it) as [l0 |] eqn:E; [| destruct Hx].
    now apply (Hsome l0 eq_refl).
  - intros Hsort.
    destruct (response it) as [l0 |] eqn:E.
    + destruct (Hsome l0 eq_refl) as (Hne & _ & Hhd).
      pose proof (settled_nonempty o p it ms l0 Hset E) as Hms.
      cbn. destruct l0; [congruence |]. destruct ms; [congruence |].
      specialize (Hhd Hsort). exact Hhd.
    + destruct (Hnone eq_refl) as [-> _]. reflexivity.
Qed.

(** A match that goes through the inline sorter. *)
Lemma settled_inline (Hq : reorders quicksort) o p (it : @item acc) ms m c a s :
  sort_truthy o = true -> settled o p it ms ->
  settled o p
    (set_state it (count it + 1) c
       (Some (nosqlinlinesorter COMPARER quicksort o s (response it) m)) a)
    (ms ++ [m]).
Proof.
  intros Hsort Hset. pose proof Hset as (Hb & Hc & Hty & Hn & Hnone & Hsome).
  destruct (nosqlinlinesorter_members Hq o s (response it) m) as [Hne Hin].
  { intros arr H. now apply (Hsome arr H). }
  unfold settled, set_state. cbn [builder compare type_ count counter response].
  do 3 (split; [assumption |]). split; [now apply count_app |].
  split; [discriminate |].
  intros l H. injection H as <-.
  split; [exact Hne |]. split.
  - intros x Hx. apply in_or_app.
    destruct (Hin x Hx) as [-> | (arr & Harr & Hx')]; [right; now left | left].
    now apply (Hsome arr Harr).
  - congruence.
Qed.

(** One document and one reader: nothing changes without a match, and a
    match keeps the state settled; the end of the loop body is only
    reached with a response in hand. *)
Lemma item_step_settled (Hq : reorders quicksort) o p (it : @item acc) ms d :
  plain_first o -> settled o p it ms ->
  match p d with
  | None => item_step' d it = (it, false)
  | Some m =>
      settled o p (fst (item_step' d it)) (ms ++ [m])
      /\ (snd (item_step' d it) = true -> response (fst (item_step' d it)) <> None)
  end.
Proof.
  intros (Hf & Hs & Hsc & Ht & Hname) Hset.
  pose proof Hset as (Hb & Hc & Hty & Hn & Hnone & Hsome).
  unfold item_step. rewrite Hc, Hb. destruct (p d) as [m |]; [| reflexivity].
  rewrite Hs, Hsc, Hty. cbn [Z.eqb negb andb orb].
  destruct (inlinesort o) eqn:Ei; cbn [negb andb].
  - destruct (sort o) as [| | s] eqn:Es;
      try (unfold inlinesort in Ei; rewrite Es, andb_false_r in Ei; discriminate).
    cbn [fst snd]. split; [| discriminate].
    apply settled_inline; [exact Hq | | exact Hset].
    unfold sort_truthy. now rewrite Es.
  - destruct (negb (take o =? 0) && le_counter (take o) (counter it)) eqn:Ec.
    + cbn [fst snd]. split; [| discriminate].
      apply settled_skip; [exact Hset |].
      intros Hr. apply andb_prop in Ec. destruct Ec as [E1 E2].
      apply negb_true_iff, Z.eqb_neq in E1.
      destruct (Hnone Hr) as [_ [Hk | Hk]]; rewrite Hk in E2; cbn in E2; [discriminate |].
      apply Z.leb_le in E2. lia.
    + assert (Hpush : forall c a,
                 settled o p
                   (set_state it (count it + 1) c
                      (Some (default [] (response it) ++ [m])) a) (ms ++ [m]))
        by (intros; now apply settled_push).
      destruct (sort o); cbn [fst snd]; (split; [apply Hpush | discriminate]).
Qed.

(** The end of the pass for a settled reader. *)
Lemma finish_settled (Hq : reorders quicksort) o p (it : @item acc) ms :
  plain_first o -> settled o p it ms ->
  (ms = [] -> finish' it = One None)
  /\ (ms <> [] -> exists d, finish' it = One (Some d) /\ In d ms
                          /\ (sort_truthy o = false -> head ms = Some d)).
Proof.
  intros (Hf & Hs & Hsc & Ht & Hname) Hset.
  pose proof Hset as (Hb & Hc & Hty & Hn & Hnone & Hsome).
  assert (Hplain : (ms = [] -> deliver it (output_of it (response it)) = One None)
            /\ (sort_truthy o = false -> ms <> [] ->
                exists d, deliver it (output_of it (response it)) = One (Some d)
                          /\ In d ms /\ head ms = Some d)).
  { unfold deliver, output_of. rewrite Hty, Hb, Hf. cbn [Z.eqb]. split.
    - intros ->. destruct (response it) as [l |] eqn:E; [| reflexivity].
      now destruct (settled_nonempty o p it [] l Hset E).
    - intros Hsort Hms. destruct (response it) as [l |] eqn:E.
      + destruct (Hsome l eq_refl) as (Hne & Hin & Hhd).
        destruct l as [| x r]; [congruence |]. exists x. cbn. split; [reflexivity |].
        split; [apply Hin; now left | now rewrite <- (Hhd Hsort)].
      + now destruct (Hnone eq_refl). }
  unfold finish. rewrite Hb, Hsc. destruct (sort o) as [| | s] eqn:Es.
  - split; [apply Hplain |]. intros Hms.
    destruct (proj2 Hplain) as (d & H1 & H2 & H3); [unfold sort_truthy; now rewrite Es | exact Hms |].
    exists d. auto.
  - split; [apply Hplain |]. intros Hms.
    destruct (proj2 Hplain) as (d & H1 & H2 & H3); [unfold sort_truthy; now rewrite Es | exact Hms |].
    exists d. auto.
  - split.
    + intros ->. rewrite Hn. cbn [length Z.of_nat Z.eqb]. now apply Hplain.
    + intros Hms. rewrite Hn.
      destruct (Z.eqb_spec (Z.of_nat (length ms)) 0) as [E0 | _];
        [destruct ms; [congruence | cbn in E0; lia] |].
      destruct (response it) as [arr |] eqn:E; [| now destruct (Hnone eq_refl)].
      destruct (Hsome arr eq_refl) as (Hne & Hin & _).
      destruct (String.eqb_spec (name s) EmptyString) as [E1 | _];
        [now apply Hname in E1 |].
      rewrite Hs. cbn [Z.eqb negb andb].
      replace (negb (inlinesort o) && negb (take o =? 0)) with false
        by (unfold inlinesort; rewrite Es; now destruct (take o =? 0)).
      set (arr1 := if negb (inlinesort o) || negb (take o =? Z.of_nat (length arr))
                   then quicksort (name s) (asc s) arr else arr).
      assert (Hp : Permutation arr1 arr).
      { subst arr1. destruct (negb (inlinesort o) || negb _); [apply Hq | reflexivity]. }
      unfold deliver, output_of. rewrite Hty, Hb, Hf. cbn [Z.eqb].
      destruct arr1 as [| x r] eqn:E1.
      * apply Permutation_nil in Hp. congruence.
      * exists x. cbn. split; [reflexivity |]. split.
        -- apply Hin. eapply Permutation_in; [exact Hp | now left].
        -- unfold sort_truthy. rewrite Es. discriminate.
Qed.

Abbreviation step_items' := (step_items COMPARER quicksort scalar_step).
Abbreviation ondocuments' := (ondocuments COMPARER quicksort scalar_step).

(** Without the early exit every reader walks the whole file on its
    own. *)
Lemma step_items_all d (items : list (@item acc)) :
  step_items' false d items = (map (fun it => fst (item_step' d it)) items, false).
Proof.
  induction items as [| it r IH]; [reflexivity |].
  cbn [step_items map]. destruct (item_step' d it) as [it1 through].
  cbn [andb fst]. now rewrite IH.
Qed.

Lemma ondocuments_all docs (items : list (@item acc)) :
  ondocuments' false docs items
  = map (fun it => fold_left (fun i d => fst (item_step' d i)) docs it) items.
Proof.
  revert items. induction docs as [| d ds IH]; intros items.
  - cbn. now rewrite map_id.
  - cbn [ondocuments fold_left]. rewrite step_items_all, IH, map_map. reflexivity.
Qed.

Lemma fold_settled (Hq : reorders quicksort) o p docs (it : @item acc) ms :
  plain_first o -> settled o p it ms ->
  settled o p (fold_left (fun i d => fst (item_step' d i)) docs it) (ms ++ matches p docs).
Proof.
  intros Ho. revert it ms. induction docs as [| d ds IH]; intros it ms Hset.
  - cbn. now rewrite app_nil_r.
  - cbn [fold_left matches].
    pose proof (item_step_settled Hq o p it ms d Ho Hset) as Hstep.
    destruct (p d) as [m |].
    + destruct Hstep as [Hnext _].
      change (m :: matches p ds) with ([m] ++ matches p ds). rewrite app_assoc.
      apply IH, Hnext.
    + rewrite Hstep. cbn [fst]. apply IH, Hset.
Qed.

(** A lone first-match reader stops at its first match: what it has
    seen is a front part of the matches, empty only if there is none. *)
Lemma ondocuments_single (Hq : reorders quicksort) o p docs (it : @item acc) ms :
  plain_first o -> settled o p it ms ->
  exists it' ms' rest,
    ondocuments' true docs [it] = [it'] /\ settled o p it' ms'
    /\ ms ++ matches p docs = ms' ++ rest /\ (ms' = [] -> rest = []).
Proof.
  intros Ho. revert it ms. induction docs as [| d ds IH]; intros it ms Hset.
  - exists it, ms, []. cbn. auto.
  - cbn [ondocuments step_items matches].
    pose proof (item_step_settled Hq o p it ms d Ho Hset) as Hstep.
    destruct (p d) as [m |].
    + destruct Hstep as [Hnext Hthrough].
      destruct (item_step' d it) as [it1 through]. cbn [fst snd andb] in *.
      destruct through.
      * exists it1, (ms ++ [m]), (matches p ds). split; [reflexivity |].
        split; [exact Hnext |]. split; [now rewrite <- app_assoc |].
        intros E. now destruct ms.
      * destruct (IH it1 (ms ++ [m]) Hnext) as (it' & ms' & rest & H1 & H2 & H3 & H4).
        exists it', ms', rest. split; [exact H1 |]. split; [exact H2 |].
        split; [| exact H4]. rewrite <- H3, <- app_assoc. reflexivity.
    + rewrite Hstep. cbn [andb]. apply IH, Hset.
Qed.

Lemma new_item_settled o p c :
  c = None \/ c = Some 0 -> settled o p (@new_item acc o p c) [].
Proof.
  intros Hc. unfold settled, new_item. cbn. repeat split; auto; discriminate.
Qed.

(** The loop of [fs.$callback] reaches a reader exactly when no reader
    queued before it throws. *)
Lemma callbacks_nth (rs : list (@result acc)) (i : nat) :
  existsb is_throw (firstn i rs) = false -> nth_error (callbacks rs) i = nth_error rs i.
Proof.
  revert i. induction rs as [| r rest IH]; intros i H; [reflexivity |].
  destruct i as [| i].
  - cbn [callbacks]. now destruct r.
  - cbn [firstn existsb] in H. apply orb_false_iff in H. destruct H as [Hr H].
    destruct r; cbn [is_throw] in Hr; try discriminate; cbn [callbacks nth_error];
      now apply IH.
Qed.

Lemma callbacks_cut (rs : list (@result acc)) (i : nat) :
  existsb is_throw (firstn i rs) = true -> nth_error (callbacks rs) i = None.
Proof.
  revert i. induction rs as [| r rest IH]; intros i H.
  - now rewrite firstn_nil in H.
  - destruct i as [| i]; [discriminate H |].
    cbn [firstn existsb] in H.
    destruct r; cbn [is_throw orb] in H; cbn [callbacks nth_error];
      first [now apply IH | now destruct i].
Qed.

Lemma reader2_nth (items : list (@item acc)) (docs : list doc) (i : nat) :
  thrown_before COMPARER quicksort scalar_step i items docs = false ->
  nth_error (reader2 COMPARER quicksort scalar_step items docs) i
  = nth_error (responses COMPARER quicksort scalar_step items docs) i.
Proof. apply callbacks_nth. Qed.

(** After a reader that throws, no reader of the pass gets a callback. *)
Lemma no_callback_after_throw (items : list (@item acc)) (docs : list doc) (i : nat) :
  thrown_before COMPARER quicksort scalar_step i items docs = true ->
  nth_error (reader2 COMPARER quicksort scalar_step items docs) i = None.
Proof. apply callbacks_cut. Qed.

(** When [finish] throws: on the sorting path, with at least one match
    counted, when no response was collected or the sort object has no
    name. *)
Lemma finish_throws (it : @item acc) :
  finish' it = Throws ->
  scalar (builder it) = None /\ count it <> 0
  /\ exists s, sort (builder it) = By s
               /\ (response it = None \/ name s = EmptyString).
Proof.
  unfold finish, deliver, output_of.
  destruct (scalar (builder it)); [destruct (type_ it =? 1); discriminate |].
  destruct (sort (builder it)) as [| | s];
    try (destruct (type_ it =? 1), (first (builder it)), (listing (builder it)); discriminate).
  destruct (Z.eqb_spec (count it) 0) as [E | E];
    [destruct (type_ it =? 1), (first (builder it)), (listing (builder it)); discriminate |].
  intros H. split; [reflexivity |]. split; [exact E |]. exists s. split; [reflexivity |].
  destruct (response it); [| now left].
  destruct (String.eqb_spec (name s) EmptyString) as [-> | _]; [now right |].
  destruct (type_ it =? 1), (first (builder it)), (listing (builder it)); discriminate.
Qed.

(** C7 (amended). A reader queued by [find()] or [one()] whose builder
    has [first()] set, sets neither [skip] nor a scalar, has no negative
    [take] and sorts, if at all, by a named field, hands its callback
    exactly one document when at least one document matches: a matching
    one, and the first match in file order unless a sort object is set.
    When nothing matches the callback gets no document ([undefined]).
    This holds whatever other readers share the pass, as long as none of
    the readers queued before it throws in [fs.$callback]: after such a
    reader no callback is called ([no_callback_after_throw]). *)
Theorem first_returns_one (Hq : reorders quicksort) (items : list (@item acc)) (i : nat)
    (o : options) (p : doc -> option doc) (c : option Z) (docs : list doc) :
  plain_first o -> c = None \/ c = Some 0 ->
  nth_error items i = Some (new_item o p c) ->
  thrown_before COMPARER quicksort scalar_step i items docs = false ->
  exists res,
    nth_error (reader2 COMPARER quicksort scalar_step items docs) i = Some res
    /\ (matches p docs = [] -> res = One None)
    /\ (matches p docs <> [] ->
        exists d, res = One (Some d) /\ In d (matches p docs)
                  /\ (sort_truthy o = false -> head (matches p docs) = Some d)).
Proof.
  intros Ho Hc Hnth Hquiet.
  pose proof (new_item_settled o p c Hc) as Hinit.
  rewrite (reader2_nth items docs i Hquiet). clear Hquiet.
  unfold responses. destruct (first_only items) eqn:Ef.
  - unfold first_only in Ef. apply andb_prop in Ef. destruct Ef as [_ Hlen].
    apply Nat.leb_le in Hlen.
    destruct items as [| it [| it2 r]]; [destruct i; discriminate | | cbn in Hlen; lia].
    destruct i as [| i]; [| destruct i; discriminate]. injection Hnth as ->.
    destruct (ondocuments_single Hq o p docs _ [] Ho Hinit)
      as (it' & ms' & rest & Hrun & Hset & Hms & Hrest).
    rewrite Hrun. cbn [map nth_error]. exists (finish' it'). split; [reflexivity |].
    cbn [app] in Hms.
    destruct (finish_settled Hq o p it' ms' Ho Hset) as [Hnone Hsome]. split.
    + intros E. apply Hnone. rewrite E in Hms. symmetry in Hms.
      now apply app_eq_nil in Hms.
    + intros Hne. destruct Hsome as (d & H1 & H2 & H3).
      { intros E. apply Hne. rewrite Hms, E, (Hrest E). reflexivity. }
      exists d. split; [exact H1 |]. rewrite Hms. split; [apply in_or_app; now left |].
      intros Hsort. specialize (H3 Hsort). now destruct ms'.
  - rewrite ondocuments_all, map_map, nth_error_map, Hnth. cbn [option_map].
    eexists. split; [reflexivity |].
    pose proof (fold_settled Hq o p docs _ [] Ho Hinit) as Hset. cbn [app] in Hset.
    destruct (finish_settled Hq o p _ (matches p docs) Ho Hset) as [Hnone Hsome].
    split; [exact Hnone | exact Hsome].
Qed.

End ReaderFacts.

(** C7, as stated, fails on builders that also set [skip], a scalar or a
    negative [take]: one document matches, yet the callback gets no
    document, or a scalar. *)
Lemma first_with_skip_returns_nothing :
  Reader.first (Reader.skip_ 1 (Reader.first_ Reader.new_builder)) = true
  /\ Reader.matches Some [(∅ : gmap string Doc.jsval)] = [∅]
  /\ Reader.reader2 (fun _ _ => 0) (fun _ _ l => l) (fun _ _ (a : option unit) => a)
       [Reader.new_item (Reader.skip_ 1 (Reader.first_ Reader.new_builder)) Some (Some 0)]
       [∅]
     = [Reader.One None]
  /\ Reader.reader2 (fun _ _ => 0) (fun _ _ l => l) (fun _ _ (a : option unit) => a)
       [Reader.new_item (Reader.take_ (-1) (Reader.first_ Reader.new_builder)) Some (Some 0)]
       [∅]
     = [Reader.One None]
  /\ Reader.reader2 (fun _ _ => 0) (fun _ _ l => l) (fun _ _ (a : option unit) => Some tt)
       [Reader.new_item (Reader.scalar_ Reader.count_ (Reader.first_ Reader.new_builder))
          Some (Some 0)]
       [∅]
     = [Reader.Scalar (Some tt)].
Proof.
  repeat split; reflexivity.
Qed.

Lemma first_returns_one_witness :
  exists res,
    nth_error
      (Reader.reader2 (fun _ _ => 0) (fun _ _ l => l) (fun _ _ (a : option unit) => a)
         [Reader.new_item (Reader.first_ Reader.new_builder) Some (Some 0)]
         [{["id" := Doc.VStr "A"]}; {["id" := Doc.VStr "B"]}]) 0
    = Some res
    /\ (Reader.matches Some [{["id" := Doc.VStr "A"]}; {["id" := Doc.VStr "B"]}] = []
        -> res = Reader.One None)
    /\ (Reader.matches Some [{["id" := Doc.VStr "A"]}; {["id" := Doc.VStr "B"]}] <> [] ->
        exists d, res = Reader.One (Some d)
          /\ In d (Reader.matches Some [{["id" := Doc.VStr "A"]}; {["id" := Doc.VStr "B"]}])
          /\ (Reader.sort_truthy (Reader.first_ Reader.new_builder) = false ->
              head (Reader.matches Some [{["id" := Doc.VStr "A"]}; {["id" := Doc.VStr "B"]}])
              = Some d)).
Proof.
  apply (first_returns_one (fun _ _ => 0) (fun _ _ l => l) (fun _ _ (a : option unit) => a))
    with (c := Some 0).
  - intros n a l. reflexivity.
  - unfold Reader.plain_first. cbn. repeat split; [lia | discriminate].
  - right. reflexivity.
  - reflexivity.
  - reflexivity.
Defined.

(** ** Splitting and joining *)

Section SplitFacts.
Local Open Scope string_scope.
Implicit Types (s t : string) (c : ascii) (l : list string).

Lemma split_nonempty c s : JS.split c s <> [].
Proof.
  destruct s as [| d r]; cbn [JS.split]; [discriminate |].
  destruct (Ascii.eqb d c); [discriminate |]. now destruct (JS.split c r).
Qed.

(** No piece of a split holds the separator. *)
Lemma split_pieces c s x : In x (JS.split c s) -> JS.contains c x = false.
Proof.
  revert x. induction s as [| d r IH]; intros x; cbn [JS.split].
  - intros [<- | []]. reflexivity.
  - destruct (Ascii.eqb d c) eqn:E.
    + intros [<- | H]; [reflexivity | now apply IH].
    + destruct (JS.split c r) as [| h t] eqn:Es.
      * intros [<- | []]. cbn. now rewrite E.
      * intros [<- | H].
        -- cbn [JS.contains]. rewrite E. apply IH. now left.
        -- apply IH. now right.
Qed.

Lemma split_clean c s : JS.contains c s = false -> JS.split c s = [s].
Proof.
  induction s as [| d r IH]; cbn [JS.contains JS.split]; [reflexivity |].
  intros H. apply orb_false_iff in H. destruct H as [E H].
  rewrite E, (IH H). reflexivity.
Qed.

Lemma split_app c s t :
  JS.contains c s = false ->
  JS.split c (s ++ String c t) = s :: JS.split c t.
Proof.
  induction s as [| d r IH]; cbn [JS.contains String.append JS.split].
  - intros _. now rewrite Ascii.eqb_refl.
  - intros H. apply orb_false_iff in H. destruct H as [E H].
    rewrite E, (IH H). reflexivity.
Qed.

(** Splitting what was joined gives the pieces back. *)
Lemma split_join c l :
  l <> [] -> Forall (fun x => JS.contains c x = false) l ->
  JS.split c (JS.join (String c EmptyString) l) = l.
Proof.
  intros Hne Hall. induction Hall as [| x r Hx Hr IH]; [congruence |].
  unfold JS.join in *. cbn [String.concat]. destruct r as [| y r'].
  - now apply split_clean.
  - cbn [String.append]. rewrite split_app by exact Hx.
    f_equal. apply IH. discriminate.
Qed.

End SplitFacts.

(** ** Tombstoned lines and the table readers *)

Section TombstoneFacts.
Import Stream Table.
Local Open Scope string_scope.
Implicit Types (content s : string) (l b : list string) (line : list string).

Lemma batches_fuel_members fuel n l b x :
  In b (batches_fuel fuel n l) -> In x b -> In x l.
Proof.
  revert l. induction fuel as [| f IH]; intros l Hb Hx; [destruct Hb |].
  destruct l as [| y r]; [destruct Hb |].
  cbn [batches_fuel] in Hb. destruct Hb as [<- | Hb].
  - rewrite <- (firstn_skipn n (y :: r)). apply in_or_app. now left.
  - rewrite <- (firstn_skipn n (y :: r)). apply in_or_app. right. now apply IH.
Qed.

Lemma batches_fuel_nonempty fuel n l b :
  (0 < n)%nat -> In b (batches_fuel fuel n l) -> b <> [].
Proof.
  intros Hn. revert l. induction fuel as [| f IH]; intros l Hb; [destruct Hb |].
  destruct l as [| y r]; [destruct Hb |].
  cbn [batches_fuel] in Hb. destruct Hb as [<- | Hb]; [| now apply (IH _ Hb)].
  destruct n; [lia | discriminate].
Qed.

Lemma batches_members n l b x : In b (batches n l) -> In x b -> In x l.
Proof. destruct n; [intros [] | apply batches_fuel_members]. Qed.

Lemma batches_nonempty n l b : In b (batches n l) -> b <> [].
Proof. destruct n; [intros [] | apply batches_fuel_nonempty; lia]. Qed.

Lemma lines_clean content s : In s (lines content) -> JS.contains NEWLINE s = false.
Proof. intros H. apply in_removelast in H. eapply split_pieces, H. Qed.

(** A batch of a session, split again at the divider, is a list of live
    lines of the file. *)
Lemma session_batch (source : list string) n docs x :
  (forall s, In s source -> JS.contains NEWLINE s = false) ->
  In docs (map (JS.join divider)
             (batches n (List.filter (fun y => negb (tombstoned y)) source))) ->
  In x (JS.split NEWLINE docs) ->
  In x source /\ tombstoned x = false.
Proof.
  intros Hclean Hdocs Hx. apply in_map_iff in Hdocs. destruct Hdocs as (b & <- & Hb).
  assert (Hlive : forall y, In y b -> In y source /\ tombstoned y = false).
  { intros y Hy. pose proof (batches_members _ _ _ _ Hb Hy) as Hf.
    apply filter_In in Hf. destruct Hf as [H1 H2]. split; [exact H1 |].
    now apply negb_true_iff in H2. }
  unfold divider in Hx. rewrite split_join in Hx.
  - now apply Hlive.
  - eapply batches_nonempty, Hb.
  - apply List.Forall_forall. intros y Hy. apply Hclean. exact (proj1 (Hlive y Hy)).
Qed.

Lemma TP_reader_lines_source indexer (bs : list string) line :
  In line (TP_reader_lines indexer bs) ->
  exists docs x, In docs bs /\ In x (JS.split NEWLINE docs) /\ line = JS.split PIPE x.
Proof.
  revert indexer. induction bs as [| docs r IH]; intros indexer H; [destruct H |].
  cbn [TP_reader_lines TP_reader_ondocuments] in H. apply in_app_or in H.
  destruct H as [H | H].
  - apply in_map_iff in H. destruct H as (x & <- & Hx).
    exists docs, x. split; [now left |]. split; [| reflexivity].
    destruct (indexer =? 0)%Z; [| exact Hx].
    destruct (JS.split NEWLINE docs); [destruct Hx | now right].
  - destruct (IH _ H) as (d & x & H1 & H2 & H3). exists d, x. split; [now right | auto].
Qed.

Lemma TP_reader3_lines_source (bs : list string) line :
  In line (TP_reader3_lines bs) ->
  exists docs x, In docs bs /\ In x (JS.split NEWLINE docs) /\ line = JS.split PIPE x.
Proof.
  unfold TP_reader3_lines. intros H. apply in_flat_map in H.
  destruct H as (docs & Hd & H). unfold TP_reader3_ondocuments in H.
  apply filter_In in H. destruct H as [H _].
  apply in_map_iff in H. destruct H as (x & <- & Hx). eauto.
Qed.

(** The first field of a live line does not start with the marker. *)
Lemma live_marker s marker :
  tombstoned s = false -> JS.at_index (JS.split PIPE s) 0 = Some marker ->
  tombstoned marker = false.
Proof.
  destruct s as [| d r]; cbn [JS.split JS.at_index nth_error tombstoned].
  - intros _ [= <-]. reflexivity.
  - intros Hd. destruct (Ascii.eqb d PIPE).
    + intros [= <-]. reflexivity.
    + destruct (JS.split PIPE r); intros [= <-]; exact Hd.
Qed.

Lemma delivered_live (buffercount : nat) content line :
  In line (TP_reader_lines 0 (openread divider buffercount content))
  \/ In line (TP_reader3_lines (openreadreverse divider buffercount content)) ->
  exists s, In s (lines content) /\ tombstoned s = false /\ line = JS.split PIPE s.
Proof.
  intros [H | H].
  - apply TP_reader_lines_source in H. destruct H as (docs & x & Hd & Hx & ->).
    destruct (session_batch (lines content) buffercount docs x) as [H1 H2]; eauto.
    apply lines_clean.
  - apply TP_reader3_lines_source in H. destruct H as (docs & x & Hd & Hx & ->).
    destruct (session_batch (rev (lines content)) buffercount docs x) as [H1 H2]; eauto.
    + intros s Hs. apply in_rev in Hs. now apply lines_clean in Hs.
    + apply in_rev in H1. eauto.
Qed.

Context (COMPARER : string -> string -> Z).
Context (quicksort : string -> bool -> list Doc.doc -> list Doc.doc).
Context {acc : Type}.
Context (scalar_step : Reader.scalartype -> Doc.doc -> option acc -> option acc).
Context (Date_parse : string -> JS.number) (parseJSON : string -> Doc.jsval).

(** C4. Whatever the file holds, the forward and the reverse table
    reader hand to the predicates of their pending readers (find, one,
    count and scalar jobs alike) only rows parsed from lines of the file
    whose leading byte is not the tombstone marker, and the responses are
    computed from those rows alone. *)
Theorem readers_skip_tombstones (T : table) (data_keys : list string) (buffercount : nat)
    (items : list (@Reader.item acc)) (content : string) :
  (exists delivered,
      TP_reader Date_parse parseJSON COMPARER quicksort scalar_step
        T data_keys buffercount items content
      = Reader.reader2 COMPARER quicksort scalar_step items
          (map (fun line => parseData Date_parse parseJSON T line data_keys None) delivered)
      /\ Forall (fun line =>
                   (exists s, In s (lines content) /\ tombstoned s = false
                              /\ line = JS.split PIPE s)
                   /\ forall marker, JS.at_index line 0 = Some marker ->
                                     tombstoned marker = false) delivered)
  /\ (exists delivered,
      TP_reader3 Date_parse parseJSON COMPARER quicksort scalar_step
        T data_keys buffercount items content
      = Reader.reader2 COMPARER quicksort scalar_step items
          (map (fun line => parseData Date_parse parseJSON T line data_keys None) delivered)
      /\ Forall (fun line =>
                   (exists s, In s (lines content) /\ tombstoned s = false
                              /\ line = JS.split PIPE s)
                   /\ forall marker, JS.at_index line 0 = Some marker ->
                                     tombstoned marker = false) delivered).
Proof.
  split.
  - exists (TP_reader_lines 0 (openread divider buffercount content)).
    split; [reflexivity |]. apply List.Forall_forall. intros line Hl.
    destruct (delivered_live buffercount content line (or_introl Hl)) as (s & H1 & H2 & ->).
    split; [eauto |]. intros marker. now apply live_marker.
  - exists (TP_reader3_lines (openreadreverse divider buffercount content)).
    split; [reflexivity |]. apply List.Forall_forall. intros line Hl.
    destruct (delivered_live buffercount content line (or_intror Hl)) as (s & H1 & H2 & ->).
    split; [eauto |]. intros marker. now apply live_marker.
Qed.

End TombstoneFacts.

(** A table file with one tombstoned row, read forward and in reverse. *)
Example tombstone_skipped :
  Table.TP_reader_lines 0
    (Stream.openread Table.divider 2
       (String.concat Table.divider ["id:string"; "+|a"; "-|b"; "*|c"; ""]%string))
  = [["+"; "a"]; ["*"; "c"]]%string
  /\ Table.TP_reader3_lines
       (Stream.openreadreverse Table.divider 2
          (String.concat Table.divider ["id:string"; "+|a"; "-|b"; "*|c"; ""]%string))
     = [["*"; "c"]; ["+"; "a"]]%string.
Proof. split; vm_compute; reflexivity. Qed.

(** ** The boolean rewrite of the JSON codec *)

Section JsonFacts.
Import Json.
Local Open Scope string_scope.
Implicit Types (p q : string) (d : value).

(** A match of [REGBOOL] never runs into a following double quote. *)
Lemma prefix_REGBOOL_app p q :
  p <> "" -> String.prefix REGBOOL (p ++ String dquote q) = String.prefix REGBOOL p.
Proof.
  intros Hp. unfold REGBOOL.
  destruct p as [| c1 p]; [congruence |]. cbn [String.append String.prefix].
  destruct (ascii_dec dquote c1); [| reflexivity].
  destruct p as [| c2 p]; [reflexivity |]. cbn [String.append String.prefix].
  destruct (ascii_dec ":" c2); [| reflexivity].
  destruct p as [| c3 p]; [reflexivity |]. cbn [String.append String.prefix].
  destruct (ascii_dec "t" c3); [| reflexivity].
  destruct p as [| c4 p]; [reflexivity |]. cbn [String.append String.prefix].
  destruct (ascii_dec "r" c4); [| reflexivity].
  destruct p as [| c5 p]; [reflexivity |]. cbn [String.append String.prefix].
  destruct (ascii_dec "u" c5); [| reflexivity].
  destruct p as [| c6 p]; [reflexivity |]. cbn [String.append String.prefix].
  destruct (ascii_dec "e" c6); [now destruct p | reflexivity].
Qed.

Lemma prefix_REGBOOL_length p :
  String.prefix REGBOOL p = true -> (6 <= String.length p)%nat.
Proof.
  unfold REGBOOL. intros E.
  destruct p as [| c1 [| c2 [| c3 [| c4 [| c5 [| c6 r]]]]]]; cbn [String.prefix] in E;
    repeat (match type of E with
            | (if ?x then _ else _) = true => destruct x; try discriminate
            end); try discriminate.
  cbn [String.length]. lia.
Qed.

(** The rewrite of a text cut in front of a double quote is the rewrite
    of its two parts. *)
Lemma replace_app k p q :
  (k <= String.length p)%nat ->
  replace_from k (p ++ String dquote q) = replace_from k p ++ replace_from 0 (String dquote q).
Proof.
  revert k. induction p as [| c r IH]; intros k Hk.
  - cbn [String.length] in Hk. assert (k = 0)%nat as -> by lia. reflexivity.
  - cbn [String.append]. cbn [replace_from]. destruct k as [| k].
    + change (String c (r ++ String dquote q)) with (String c r ++ String dquote q).
      rewrite prefix_REGBOOL_app by discriminate.
      destruct (String.prefix REGBOOL (String c r)) eqn:E.
      * apply prefix_REGBOOL_length in E. cbn [String.length] in E.
        rewrite IH by lia. now rewrite app_assoc_s.
      * cbn [String.append]. rewrite IH by lia. reflexivity.
    + cbn [String.length] in Hk. apply IH. lia.
Qed.

Lemma replace_field b q :
  String.length (replace_from 0 (field_text b ++ q))
  = (7 + String.length (replace_from 0 q))%nat.
Proof. destruct b, q; reflexivity. Qed.

(** Toggling the boolean after a key keeps the length of the encoded
    text, whatever surrounds it. *)
Lemma replace_toggle_length p q b :
  String.length (replace_REGBOOL (p ++ field_text b ++ q))
  = String.length (replace_REGBOOL (p ++ field_text (negb b) ++ q)).
Proof.
  unfold replace_REGBOOL.
  change (field_text b ++ q) with (String dquote ((":" ++ bool_text b) ++ q)).
  change (field_text (negb b) ++ q) with (String dquote ((":" ++ bool_text (negb b)) ++ q)).
  rewrite !replace_app by lia. rewrite !length_app_s. f_equal.
  change (String dquote ((":" ++ bool_text b) ++ q)) with (field_text b ++ q).
  change (String dquote ((":" ++ bool_text (negb b)) ++ q)) with (field_text (negb b) ++ q).
  now rewrite !replace_field.
Qed.

(** An element of a comma-separated list sits between two texts that do
    not depend on it. *)
Lemma commas_hole {A : Type} (f : A -> string) (l1 l2 : list A) :
  exists a b, forall x, commas f (l1 ++ x :: l2)%list = a ++ f x ++ b.
Proof.
  induction l1 as [| y r IH].
  - exists "", (match l2 with [] => "" | _ :: _ => "," ++ commas f l2 end).
    intros x. reflexivity.
  - destruct IH as (a & b & H). exists (f y ++ "," ++ a), b. intros x.
    cbn [app]. change (commas f (y :: r ++ x :: l2))
      with (f y ++ match (r ++ x :: l2)%list with
                   | [] => ""
                   | _ :: _ => "," ++ commas f (r ++ x :: l2)
                   end).
    destruct (r ++ x :: l2)%list eqn:E; [now destruct r |].
    rewrite <- E, H, !app_assoc_s. reflexivity.
Qed.

Lemma update_member_hole k f (l l' : list (string * value)) :
  update_member k f l = Some l' ->
  exists l1 v v' l2,
    l = (l1 ++ (k, v) :: l2)%list /\ f v = Some v' /\ l' = (l1 ++ (k, v') :: l2)%list.
Proof.
  revert l'. induction l as [| [k' v] r IH]; intros l' H; [discriminate |].
  cbn [update_member] in H. destruct (String.eqb_spec k' k) as [-> | Hne].
  - destruct (f v) as [v' |] eqn:E; [| discriminate]. injection H as <-.
    exists [], v, v', r. auto.
  - destruct (update_member k f r) as [r' |]; [| discriminate]. injection H as <-.
    destruct (IH r' eq_refl) as (l1 & w & w' & l2 & -> & Hf & ->).
    exists ((k', v) :: l1), w, w', l2. auto.
Qed.

Lemma update_element_hole i f (l l' : list value) :
  update_element i f l = Some l' ->
  exists l1 v v' l2,
    l = (l1 ++ v :: l2)%list /\ f v = Some v' /\ l' = (l1 ++ v' :: l2)%list.
Proof.
  revert i l'. induction l as [| v r IH]; intros i l' H; [destruct i; discriminate |].
  destruct i as [| i]; cbn [update_element] in H.
  - destruct (f v) as [v' |] eqn:E; [| discriminate]. cbn [option_map] in H. injection H as <-.
    exists [], v, v', r. auto.
  - destruct (update_element i f r) as [r' |] eqn:E; [| discriminate]. cbn [option_map] in H. injection H as <-.
    destruct (IH i r' E) as (l1 & w & w' & l2 & -> & Hf & ->).
    exists (v :: l1), w, w', l2. auto.
Qed.

(** A toggled document differs from the original in one boolean field,
    inside the same surrounding text. *)
Lemma toggle_context (path : list step) d d' :
  toggle path d = Some d' ->
  exists a b t,
    stringify d = a ++ field_text t ++ b /\ stringify d' = a ++ field_text (negb t) ++ b.
Proof.
  revert d d'. induction path as [| s path IH]; intros d d' H; [discriminate |].
  destruct s as [k | i].
  - assert (Hobj : exists l l' f, d = JObj l /\ d' = JObj l'
                   /\ update_member k f l = Some l'
                   /\ (path = [] /\ f = flip_bool \/ f = toggle path)).
    { cbn [toggle] in H. destruct path as [| s' path'].
      - destruct d as [| | | | | l]; try discriminate.
        destruct (update_member k flip_bool l) as [l' |] eqn:E; [| discriminate].
        injection H as <-. exists l, l', flip_bool.
        do 3 (split; [first [reflexivity | exact E] |]). left. split; reflexivity.
      - destruct d as [| | | | | l]; try discriminate.
        destruct (update_member k (toggle (s' :: path')) l) as [l' |] eqn:E;
          [| discriminate].
        injection H as <-. exists l, l', (toggle (s' :: path')).
        do 3 (split; [first [reflexivity | exact E] |]). right. reflexivity. }
    destruct Hobj as (l & l' & f & -> & -> & Hup & Hf).
    apply update_member_hole in Hup. destruct Hup as (l1 & v & v' & l2 & -> & Hv & ->).
    destruct (commas_hole (fun m => quote (fst m) ++ ":" ++ stringify (snd m)) l1 l2)
      as (a & b & Hhole).
    cbn [stringify]. rewrite !Hhole. cbn [fst snd].
    destruct Hf as [[_ ->] | ->].
    + destruct v as [| t | | | |]; try discriminate. injection Hv as <-.
      exists ("{" ++ a ++ String dquote (escape k)), (b ++ "}"), t.
      unfold quote, field_text. cbn [stringify]. normalize_app. split; reflexivity.
    + destruct (IH v v' Hv) as (a1 & b1 & t & -> & ->).
      exists ("{" ++ a ++ quote k ++ ":" ++ a1), (b1 ++ b ++ "}"), t.
      normalize_app. split; reflexivity.
  - cbn [toggle] in H. destruct d as [| | | | l |]; try discriminate.
    destruct (update_element i (toggle path) l) as [l' |] eqn:E; [| discriminate].
    injection H as <-.
    apply update_element_hole in E. destruct E as (l1 & v & v' & l2 & -> & Hv & ->).
    destruct (commas_hole stringify l1 l2) as (a & b & Hhole).
    cbn [stringify]. rewrite !Hhole.
    destruct (IH v v' Hv) as (a1 & b1 & t & -> & ->).
    exists ("[" ++ a ++ a1), (b1 ++ b ++ "]"), t.
    normalize_app. split; reflexivity.
Qed.

(** C6. Toggling any boolean field of a document between [true] and
    [false] leaves the byte length of its encoded line unchanged. *)
Theorem toggle_keeps_length (path : list step) d d' :
  toggle path d = Some d' -> byteLength (encode d') = byteLength (encode d).
Proof.
  intros H. apply toggle_context in H. destruct H as (a & b & t & Hd & Hd').
  unfold byteLength, encode. rewrite Hd, Hd'. symmetry. apply replace_toggle_length.
Qed.

End JsonFacts.

Lemma toggle_keeps_length_witness :
  Json.byteLength
    (Json.encode (Json.JObj [("id", Json.JStr "X"); ("active", Json.JBool false)]%string))
  = Json.byteLength
      (Json.encode (Json.JObj [("id", Json.JStr "X"); ("active", Json.JBool true)]%string)).
Proof.
  apply (toggle_keeps_length [Json.Key "active"]). reflexivity.
Defined.

(** ** Numbers and text *)

Section NumberFacts.
Local Open Scope string_scope.
Implicit Types (s t : string) (c : ascii) (z : Z).

(** A safe integer is a double. *)
Lemma round_double_safe z : JS.safe_integer z -> JS.round_double z = z.
Proof.
  unfold JS.safe_integer, JS.round_double. intros H.
  destruct (Z.ltb_spec (Z.abs z) (2 ^ 53)) as [_ | Hge]; [reflexivity | lia].
Qed.

(** While the sum is a safe integer, the engine adds as integers are
    added. *)
Lemma plus_double_safe (x y : Z) :
  JS.safe_integer (x + y) -> JS.plus_double (JS.Num x) (JS.Num y) = JS.plus (JS.Num x) (JS.Num y).
Proof. intros H. cbn [JS.plus_double JS.plus]. now rewrite round_double_safe. Qed.

(** Beyond the safe integers it does not: [2 ^ 53 + 1] is [2 ^ 53], and
    the product of 4503599627370495 and 3 is the double one below it. *)
Example plus_double_rounds :
  JS.plus_double (JS.Num 9007199254740992) (JS.Num 1) = JS.Num 9007199254740992
  /\ JS.round_double (4503599627370495 * 3) = 13510798882111484%Z.
Proof. split; reflexivity. Qed.

Lemma uint_chars (d : Decimal.uint) : JS.all_chars JS.numeric (NilEmpty.string_of_uint d) = true.
Proof. induction d; cbn [NilEmpty.string_of_uint JS.all_chars]; try rewrite IHd; reflexivity. Qed.

Lemma uint_nonempty (d : Decimal.uint) : d <> Decimal.Nil -> NilEmpty.string_of_uint d <> "".
Proof. destruct d; [congruence | discriminate ..]. Qed.

Lemma nilzero_uint (d : Decimal.uint) :
  d <> Decimal.Nil -> NilZero.string_of_uint d = NilEmpty.string_of_uint d.
Proof. destruct d; [congruence | reflexivity ..]. Qed.

(** A printed integer is a non-empty text of digits with an optional
    sign. *)
Lemma print_chars z : JS.all_chars JS.numeric (JS.number_to_string (JS.Num z)) = true.
Proof.
  unfold JS.number_to_string. destruct z as [| p | p]; cbn [Z.to_int NilZero.string_of_int].
  - reflexivity.
  - rewrite nilzero_uint by apply DecimalPos.Unsigned.to_uint_nonnil. apply uint_chars.
  - rewrite nilzero_uint by apply DecimalPos.Unsigned.to_uint_nonnil.
    cbn [JS.all_chars]. apply uint_chars.
Qed.

Lemma print_nonempty z : JS.number_to_string (JS.Num z) <> "".
Proof.
  unfold JS.number_to_string. destruct z as [| p | p]; cbn [Z.to_int NilZero.string_of_int].
  - discriminate.
  - rewrite nilzero_uint by apply DecimalPos.Unsigned.to_uint_nonnil.
    apply uint_nonempty, DecimalPos.Unsigned.to_uint_nonnil.
  - discriminate.
Qed.

Lemma all_chars_weaken (P Q : ascii -> bool) s :
  (forall c, P c = true -> Q c = true) -> JS.all_chars P s = true -> JS.all_chars Q s = true.
Proof.
  intros HPQ. induction s as [| c r IH]; cbn [JS.all_chars]; [reflexivity |].
  intros H. apply andb_prop in H. destruct H as [H1 H2].
  now rewrite (HPQ c H1), (IH H2).
Qed.

Lemma all_chars_app P s t :
  JS.all_chars P (s ++ t) = JS.all_chars P s && JS.all_chars P t.
Proof.
  induction s as [| c r IH]; cbn [JS.all_chars String.append]; [reflexivity |].
  now rewrite IH, andb_assoc.
Qed.

Lemma all_chars_contains c s :
  JS.all_chars (fun d => negb (Ascii.eqb d c)) s = negb (JS.contains c s).
Proof.
  induction s as [| d r IH]; cbn [JS.all_chars JS.contains]; [reflexivity |].
  now rewrite IH, negb_orb.
Qed.

(** A character that is not numeric does not occur in a printed
    integer. *)
Lemma print_lacks z c : JS.numeric c = false -> JS.contains c (JS.number_to_string (JS.Num z)) = false.
Proof.
  intros Hc. apply negb_true_iff. rewrite <- all_chars_contains.
  apply (all_chars_weaken JS.numeric); [| apply print_chars].
  intros d Hd. apply negb_true_iff. apply Ascii.eqb_neq. congruence.
Qed.

Lemma numeric_not_space c : JS.numeric c = true -> JS.is_space c = false.
Proof.
  unfold JS.numeric, JS.is_space. intros H.
  apply orb_true_iff in H. apply orb_false_iff.
  destruct H as [H | H].
  - apply andb_prop in H. destruct H as [H1 H2]. apply Nat.leb_le in H1.
    split; [apply andb_false_iff; right; apply Nat.leb_gt; lia | apply Nat.eqb_neq; lia].
  - apply Nat.eqb_eq in H. rewrite H. split; reflexivity.
Qed.

Lemma trim_end_clean s :
  JS.all_chars JS.no_space s = true -> JS.trim_end s = s.
Proof.
  induction s as [| c r IH]; cbn [JS.all_chars JS.trim_end]; [reflexivity |].
  intros H. apply andb_prop in H. destruct H as [Hc Hr]. rewrite (IH Hr).
  apply negb_true_iff in Hc. rewrite Hc. now destruct r.
Qed.

(** Trailing white space goes, and only it, when the text ends with
    something else. *)
Lemma trim_end_app s t :
  t <> "" -> JS.all_chars JS.no_space t = true -> JS.trim_end (s ++ t) = s ++ t.
Proof.
  intros Hne Ht. induction s as [| c r IH]; cbn [String.append JS.trim_end].
  - now apply trim_end_clean.
  - rewrite IH. destruct (r ++ t) eqn:E; [| reflexivity].
    destruct r; [cbn in E; congruence | discriminate].
Qed.

Lemma trim_end_spaces s t :
  JS.all_chars JS.is_space t = true -> JS.trim_end (s ++ t) = JS.trim_end s.
Proof.
  intros Ht.
  assert (Hnil : JS.trim_end t = "").
  { induction t as [| c r IH]; cbn [JS.all_chars JS.trim_end] in *; [reflexivity |].
    apply andb_prop in Ht. destruct Ht as [Hc Hr]. now rewrite (IH Hr), Hc. }
  induction s as [| c r IH]; cbn [String.append JS.trim_end]; [exact Hnil |].
  now rewrite IH.
Qed.

Lemma trim_line c s t :
  JS.is_space c = false -> t <> "" -> JS.all_chars JS.no_space t = true ->
  JS.trim ((String c s ++ t) ++ Counter.NEWLINE) = String c s ++ t.
Proof.
  intros Hc Hne Ht. unfold JS.trim. cbn [String.append JS.trim_start]. rewrite Hc.
  change (String c ((s ++ t) ++ Counter.NEWLINE)) with ((String c s ++ t) ++ Counter.NEWLINE).
  rewrite trim_end_spaces by reflexivity. now apply trim_end_app.
Qed.

(** Reading back a printed integer. *)
Lemma to_number_print z : JS.to_number (JS.number_to_string (JS.Num z)) = JS.Num z.
Proof.
  unfold JS.to_number, JS.trim.
  assert (Hclean : JS.all_chars JS.no_space (JS.number_to_string (JS.Num z)) = true).
  { apply (all_chars_weaken JS.numeric); [| apply print_chars].
    intros c Hc. unfold JS.no_space. now rewrite numeric_not_space. }
  assert (Hstart : JS.trim_start (JS.number_to_string (JS.Num z))
                   = JS.number_to_string (JS.Num z)).
  { destruct (JS.number_to_string (JS.Num z)) as [| c r]; [reflexivity |].
    cbn [JS.all_chars JS.trim_start] in *. apply andb_prop in Hclean.
    destruct Hclean as [Hc _]. apply negb_true_iff in Hc. now rewrite Hc. }
  rewrite Hstart, trim_end_clean by exact Hclean.
  pose proof (print_nonempty z) as Hne.
  destruct (JS.number_to_string (JS.Num z)) as [| c r] eqn:E; [congruence |].
  rewrite <- E. unfold JS.number_to_string.
  rewrite NilZero.isi.
  - now rewrite DecimalZ.of_to.
  - destruct z; cbn [Z.to_int]; intros [= H]; now apply DecimalPos.Unsigned.to_uint_nonnil in H.
  - destruct z; cbn [Z.to_int]; intros [= H]; now apply DecimalPos.Unsigned.to_uint_nonnil in H.
Qed.

Lemma indexOf_from_app c s t i :
  JS.contains c s = false ->
  JS.indexOf_from c (s ++ String c t) i = (i + Z.of_nat (String.length s))%Z.
Proof.
  revert i. induction s as [| d r IH]; intros i; cbn [JS.contains String.append JS.indexOf_from].
  - intros _. rewrite Ascii.eqb_refl. cbn. lia.
  - intros H. apply orb_false_iff in H. destruct H as [Hd Hr].
    rewrite Hd, (IH _ Hr). cbn [String.length]. lia.
Qed.

Lemma indexOf_app c s t :
  JS.contains c s = false -> JS.indexOf c (s ++ String c t) = Z.of_nat (String.length s).
Proof. intros H. unfold JS.indexOf. now rewrite indexOf_from_app. Qed.

Lemma substring_head s t :
  JS.substring 0 (Z.of_nat (String.length s)) (s ++ t) = s.
Proof.
  unfold JS.substring. rewrite length_app_s.
  replace (Z.max 0 (Z.min 0 _)) with 0%Z by lia.
  replace (Z.max 0 (Z.min (Z.of_nat (String.length s)) _))
    with (Z.of_nat (String.length s)) by lia.
  replace (Z.min 0 (Z.of_nat (String.length s))) with 0%Z by lia.
  replace (Z.max 0 (Z.of_nat (String.length s)) - 0)%Z
    with (Z.of_nat (String.length s)) by lia.
  rewrite Nat2Z.id. cbn [Z.to_nat JS.drop]. apply take_app_s.
Qed.

Lemma substring_from_tail s t :
  JS.substring_from (Z.of_nat (String.length s)) (s ++ t) = t.
Proof.
  unfold JS.substring_from. replace (Z.max 0 (Z.of_nat (String.length s)))
    with (Z.of_nat (String.length s)) by lia.
  rewrite Nat2Z.id. apply drop_app_s.
Qed.

Lemma contains_app c s t : JS.contains c (s ++ t) = JS.contains c s || JS.contains c t.
Proof.
  induction s as [| d r IH]; cbn [JS.contains String.append]; [reflexivity |].
  now rewrite IH, orb_assoc.
Qed.

End NumberFacts.

(** ** Counter: the flush *)

Section SaveFacts.
Import Counter.
Local Open Scope string_scope.
Context (year : Z) (MMdd : string).
Implicit Types (s t key id : string) (c : cache) (bs : list (string * Z)).

Lemma ends_clean_app s t : JS.ends_clean t -> JS.ends_clean (s ++ t).
Proof.
  intros [Ht Hne]. split.
  - induction s as [| c r IH]; cbn [String.append JS.trim_end]; [exact Ht |].
    rewrite IH. destruct (r ++ t) eqn:E; [| reflexivity].
    destruct r; [cbn in E; congruence | discriminate].
  - destruct s; [exact Hne | discriminate].
Qed.

Lemma ends_clean_print z : JS.ends_clean (print z).
Proof.
  split; [| apply print_nonempty]. apply trim_end_clean.
  apply (all_chars_weaken JS.numeric); [| apply print_chars].
  intros c Hc. unfold JS.no_space. now rewrite numeric_not_space.
Qed.

Lemma ends_clean_join sep (parts : list string) :
  parts <> [] -> Forall JS.ends_clean parts -> JS.ends_clean (JS.join sep parts).
Proof.
  intros Hne Hall. induction Hall as [| x r Hx Hr IH]; [congruence |].
  unfold JS.join in *. cbn [String.concat]. destruct r as [| y r']; [exact Hx |].
  apply ends_clean_app, ends_clean_app, IH. discriminate.
Qed.

Lemma append_cancel_r s s' t : s ++ t = s' ++ t -> s = s'.
Proof.
  intros H.
  assert (Hlen : String.length s = String.length s').
  { apply (f_equal String.length) in H. rewrite !length_app_s in H. lia. }
  revert s' H Hlen. induction s as [| c r IH]; intros [| c' r'] H Hlen;
    try reflexivity; try discriminate.
  cbn [String.append String.length] in *. injection H as -> H.
  f_equal. apply IH; [exact H | lia].
Qed.

Lemma eqb_app_tail s s' t : String.eqb (s ++ t) (s' ++ t) = String.eqb s s'.
Proof.
  destruct (String.eqb_spec s s') as [-> | Hne]; [apply String.eqb_refl |].
  apply String.eqb_neq. intros H. apply Hne. eapply append_cancel_r, H.
Qed.

Lemma sum_key_clean id :
  plain_id id ->
  JS.contains "=" (sum_key year id) = false /\ JS.contains ";" (sum_key year id) = false.
Proof.
  intros (H1 & H2 & _). unfold sum_key, year_text.
  rewrite !contains_app, H1, H2.
  rewrite (print_lacks year "="), (print_lacks year ";") by reflexivity.
  split; reflexivity.
Qed.

Lemma bucket_text_clean (b : string * Z) :
  day_name (fst b) -> JS.contains ";" (bucket_text b) = false /\ JS.ends_clean (bucket_text b).
Proof.
  intros (_ & H & _). unfold bucket_text. split.
  - unfold print. rewrite !contains_app, H, (print_lacks _ ";") by reflexivity. reflexivity.
  - apply ends_clean_app, ends_clean_app, ends_clean_print.
Qed.

Lemma head_text_clean id z :
  plain_id id ->
  JS.contains ";" (sum_key year id ++ "=" ++ print z) = false
  /\ JS.ends_clean (sum_key year id ++ "=" ++ print z).
Proof.
  intros Hid. destruct (sum_key_clean id Hid) as [_ H]. split.
  - rewrite !contains_app, H. unfold print. rewrite (print_lacks _ ";") by reflexivity.
    reflexivity.
  - apply ends_clean_app, ends_clean_app, ends_clean_print.
Qed.

(** A rendered line starts with its key and an equals sign. *)
Lemma render_shape key z bs :
  exists rest, render key z bs = key ++ String "=" rest.
Proof.
  unfold render, JS.join. cbn [String.concat].
  destruct (map bucket_text bs) as [| x r].
  - exists (print z). reflexivity.
  - eexists. rewrite !app_assoc_s. cbn [String.append]. reflexivity.
Qed.

Lemma line_id_render id z bs :
  plain_id id -> line_id (render (sum_key year id) z bs) = sum_key year id.
Proof.
  intros Hid. destruct (sum_key_clean id Hid) as [Heq _].
  destruct (render_shape (sum_key year id) z bs) as (rest & ->).
  unfold line_id. rewrite app_assoc_s. cbn [String.append].
  rewrite indexOf_app by exact Heq. apply substring_head.
Qed.

(** What [on_data] splits a rendered line into. *)
Lemma split_render id z bs :
  plain_id id -> Forall (fun b => day_name (fst b)) bs ->
  JS.split ";" (JS.trim (render (sum_key year id) z bs ++ NEWLINE))
  = (sum_key year id ++ "=" ++ print z) :: map bucket_text bs.
Proof.
  intros Hid Hbs.
  assert (Hparts : Forall (fun x => JS.contains ";" x = false /\ JS.ends_clean x)
                     ((sum_key year id ++ "=" ++ print z) :: map bucket_text bs)).
  { constructor; [now apply head_text_clean |].
    apply List.Forall_map. eapply List.Forall_impl; [| exact Hbs].
    intros b Hb. now apply bucket_text_clean. }
  assert (Hclean : JS.ends_clean (render (sum_key year id) z bs)).
  { apply ends_clean_join; [discriminate |].
    eapply List.Forall_impl; [| exact Hparts]. now intros x [_ H]. }
  assert (Htrim : JS.trim (render (sum_key year id) z bs ++ NEWLINE) = render (sum_key year id) z bs).
  { assert (Hs : JS.trim_start (render (sum_key year id) z bs ++ NEWLINE)
                 = render (sum_key year id) z bs ++ NEWLINE).
    { destruct (render_shape (sum_key year id) z bs) as (rest & ->).
      unfold sum_key. cbn [String.append]. reflexivity. }
    unfold JS.trim. rewrite Hs, trim_end_spaces by reflexivity. apply Hclean. }
  rewrite Htrim. unfold render. apply split_join; [discriminate |].
  eapply List.Forall_impl; [| exact Hparts]. now intros x [H _].
Qed.

(** The head aggregate of a [sum] line grows by the pending count. *)
Lemma update_head_sum id (z t : Z) :
  plain_id id ->
  update_head "sum" (CNum t) (sum_key year id ++ "=" ++ print z)
  = sum_key year id ++ "=" ++ print (z + t).
Proof.
  intros Hid. destruct (sum_key_clean id Hid) as [Heq _].
  unfold update_head. cbn [String.eqb Ascii.eqb Bool.eqb].
  cbn [String.append]. rewrite indexOf_app by exact Heq.
  change (sum_key year id ++ String "=" (print z)) with (sum_key year id ++ "=" ++ print z).
  rewrite <- app_assoc_s.
  replace (Z.of_nat (String.length (sum_key year id)) + 1)%Z
    with (Z.of_nat (String.length (sum_key year id ++ "="))) by (rewrite length_app_s; cbn; lia).
  rewrite substring_head, substring_from_tail. unfold print.
  rewrite to_number_print. cbn [as_number JS.plus]. now rewrite app_assoc_s.
Qed.

Lemma bucket_parts (d : string) (z : Z) :
  String.length d = 4%nat ->
  JS.substring 0 5 (bucket_text (d, z)) = d ++ "="
  /\ JS.substring_from 5 (bucket_text (d, z)) = print z.
Proof.
  intros Hd. unfold bucket_text. cbn [fst snd]. rewrite <- app_assoc_s.
  replace 5%Z with (Z.of_nat (String.length (d ++ "=")))
    by (rewrite length_app_s, Hd; reflexivity).
  now rewrite substring_head, substring_from_tail.
Qed.

(** The bucket loop on the buckets of a [sum] line, with the bucket that
    is pushed when the day has none, computes [bump]. *)
Lemma update_buckets_sum (t : Z) bs :
  Forall (fun b => day_name (fst b)) bs ->
  (let '(items, found) := update_buckets MMdd "sum" (CNum t) (map bucket_text bs) in
   let pushed := if found then [] else [dt MMdd ++ cval_text (CNum t)] in
   (items ++ pushed)%list)
  = map bucket_text (bump MMdd t bs).
Proof.
  intros Hbs. induction Hbs as [| [d z] r [Hd _] Hr IH].
  - cbn. unfold bucket_text, dt. cbn [fst snd]. now rewrite app_assoc_s.
  - cbn [map update_buckets bump fst] in *.
    destruct (bucket_parts d z Hd) as [-> ->].
    unfold dt at 1. rewrite eqb_app_tail.
    destruct (String.eqb d MMdd) eqn:E.
    + cbn [String.eqb Ascii.eqb Bool.eqb]. unfold print at 1.
      rewrite to_number_print. cbn [as_number JS.plus app map].
      rewrite app_nil_r. unfold bucket_text at 2. cbn [fst snd].
      now rewrite app_assoc_s.
    + destruct (update_buckets MMdd "sum" (CNum t) (map bucket_text r)) as [items found].
      cbn [app map]. now rewrite IH.
Qed.

(** The handler on the stored line of a key with a pending sum: the head
    aggregate and the bucket of the day take the pending count in, and
    the key is no longer pending. *)
Lemma on_data_sum id c (z t : Z) bs :
  plain_id id -> Forall (fun b => day_name (fst b)) bs ->
  get c (sum_key year id) = CNum t ->
  on_data MMdd c (render (sum_key year id) z bs ++ NEWLINE)
  = (set (sum_key year id) CUndefined c,
     [render (sum_key year id) (z + t) (bump MMdd t bs) ++ NEWLINE]).
Proof.
  intros Hid Hbs Hget. unfold on_data.
  fold (line_id (render (sum_key year id) z bs)). rewrite line_id_render by exact Hid.
  rewrite Hget, split_render by assumption.
  assert (Htype : JS.substring 0 3 (sum_key year id) = "sum").
  { unfold sum_key. exact (substring_head "sum" _). }
  rewrite Htype, update_head_sum by exact Hid.
  pose proof (update_buckets_sum t bs Hbs) as Hb.
  destruct (update_buckets MMdd "sum" (CNum t) (map bucket_text bs)) as [items found].
  cbv zeta in *. rewrite Hb. reflexivity.
Qed.


Lemma stream_app c (f1 f2 : list string) :
  stream MMdd c (f1 ++ f2)
  = (fst (stream MMdd (fst (stream MMdd c f1)) f2),
     (snd (stream MMdd c f1) ++ snd (stream MMdd (fst (stream MMdd c f1)) f2))%list).
Proof.
  revert c. induction f1 as [| line r IH]; intros c.
  - cbn. now destruct (stream MMdd c f2).
  - cbn [app stream]. destruct (on_data MMdd c (line ++ NEWLINE)) as [c1 out1].
    rewrite IH. destruct (stream MMdd c1 r) as [c2 out2]. cbn [fst snd].
    destruct (stream MMdd c2 f2) as [c3 out3]. cbn [fst snd]. now rewrite app_assoc.
Qed.





Lemma bump_same (t v : Z) (b1 b2 : list (string * Z)) :
  Forall (fun b => fst b <> MMdd) b1 ->
  bump MMdd t (b1 ++ (MMdd, v) :: b2) = (b1 ++ (MMdd, (v + t)%Z) :: b2)%list.
Proof.
  intros Hall. induction Hall as [| [d w] r Hd Hr IH]; cbn [app bump].
  - now rewrite String.eqb_refl.
  - cbn [fst] in Hd. apply String.eqb_neq in Hd. now rewrite Hd, IH.
Qed.

Lemma bump_new (t : Z) (bs : list (string * Z)) :
  Forall (fun b => fst b <> MMdd) bs -> bump MMdd t bs = (bs ++ [(MMdd, t)])%list.
Proof.
  intros Hall. induction Hall as [| [d w] r Hd Hr IH]; cbn [app bump]; [reflexivity |].
  cbn [fst] in Hd. apply String.eqb_neq in Hd. now rewrite Hd, IH.
Qed.


End SaveFacts.



(** ** Table rows: escaping and unescaping *)

Section EscapeFacts.
Import Table.
Local Open Scope string_scope.
Implicit Types (s r : string) (a b c d : ascii).


Lemma special_pipe c : special c = false -> Ascii.eqb c PIPE = false.
Proof.
  unfold special. intros H. apply orb_false_iff in H. destruct H as [H _].
  apply orb_false_iff in H. apply H.
Qed.






Lemma test_pipe s : REGTESCAPETEST s = false -> JS.contains PIPE s = false.
Proof.
  induction s as [| c r IH]; [reflexivity |].
  cbn [REGTESCAPETEST JS.contains]. intros H. apply orb_false_iff in H.
  destruct H as [Hc Hr]. now rewrite (special_pipe _ Hc), IH.
Qed.












End EscapeFacts.

(** ** Table rows: one cell *)

Section CellFacts.
Import Doc Table.
Local Open Scope string_scope.
Context (Date_parse : string -> JS.number) (parseJSON : string -> jsval).








End CellFacts.

(** ** Table rows: the two loops *)

Section RowFacts.
Import Doc Table.
Local Open Scope string_scope.
Context (Date_parse : string -> JS.number) (parseJSON : string -> jsval).











End RowFacts.


(** Once one cell is escaped, [TP.stringify] writes the later cells as
    they are: a [|] in a second cell splits it on reading. *)
Example second_cell_not_escaped :
  Table.stringify
    (Table.parseSchema [("a"%string, Table.TString); ("b"%string, Table.TString)])
    (list_to_map [("a"%string, Doc.VStr "x|"); ("b"%string, Doc.VStr "y|")])
  = Some "*|x%7C|y|"%string
  /\ Table.decode_line (fun _ => JS.NaN) (fun _ => Doc.VNull)
       (Table.parseSchema [("a"%string, Table.TString); ("b"%string, Table.TString)])
       "*|x%7C|y|"
     = list_to_map [("a"%string, Doc.VStr "x|"); ("b"%string, Doc.VStr "y")].
Proof. split; reflexivity. Qed.


(** * Part III: further properties of the code *)

(** ** The scheduler at work and at rest *)

Section SchedulerMore.
Import Scheduler.
Context {job : Type}.
Implicit Types (d : db job).

Lemma nonempty_true (q : list job) : q <> [] -> nonempty q = true.
Proof. destruct q; [congruence | reflexivity]. Qed.

(** An idle scheduler (step 0, neither flag set) with work that may start
    starts an operation, whatever [type] it is called with: a job in any
    queue but the append queue, or a pending drop or append while no
    reindexing is pending. *)
Theorem next_progress (type : Z) d :
  writting d = false -> reading d = false -> step d = 0 ->
  (pending_clear d <> [] \/ pending_clean d <> [] \/ pending_locks d <> []
   \/ pending_update d <> [] \/ pending_remove d <> [] \/ pending_reader d <> []
   \/ pending_reader2 d <> [] \/ pending_streamer d <> []
   \/ (pending_reindex d = false /\ (pending_drops d = true \/ pending_append d <> []))) ->
  (exists p, DP_next type d = Start p)
  /\ (ready d = true -> exists p, TP_next type d = Start p).
Proof.
  intros Hw Hr Hs Hwork.
  assert (Hbody : forall mem, exists p, next_body mem type d = Start p).
  { intros mem. unfold next_body, neqb. rewrite Hw, Hr, Hs. cbn [negb andb Z.eqb].
    repeat match goal with
           | H : _ \/ _ |- _ => destruct H as [H | H]
           | H : _ /\ _ |- _ => destruct H
           | H : ?q <> [] |- _ => apply nonempty_true in H; rewrite H
           | H : _ = false |- _ => rewrite H
           | H : _ = true |- _ => rewrite H
           end;
      cbn [negb andb];
      repeat match goal with
             | |- context [if ?b then _ else _] => destruct b
             end; eauto. }
  split.
  - unfold DP_next. rewrite Hs. cbn [NEXTWAIT Z.eqb orb]. rewrite andb_false_r. apply Hbody.
  - intros Hready. unfold TP_next. rewrite Hs, Hready.
    cbn [NEXTWAIT Z.eqb orb negb]. rewrite andb_false_r. apply Hbody.
Qed.

(** With every queue empty and no drop pending, [next] starts nothing,
    and the rescheduling it may ask for ends at once: the call [next(0)]
    that follows returns without doing anything. *)
Theorem next_comes_to_rest (type : Z) d :
  pending_clear d = [] -> pending_clean d = [] -> pending_locks d = [] ->
  pending_append d = [] -> pending_update d = [] -> pending_remove d = [] ->
  pending_reader d = [] -> pending_reader2 d = [] -> pending_streamer d = [] ->
  pending_drops d = false ->
  (DP_next type d = Return
   \/ (DP_next type d = Reschedule /\ DP_next 0 (after Reschedule d) = Return))
  /\ (TP_next type d = Return
      \/ (TP_next type d = Reschedule /\ TP_next 0 (after Reschedule d) = Return)).
Proof.
  intros H1 H2 H3 H4 H5 H6 H7 H8 H9 H10.
  assert (Hbody : forall mem t d', 
            pending_clear d' = [] -> pending_clean d' = [] -> pending_locks d' = [] ->
            pending_append d' = [] -> pending_update d' = [] -> pending_remove d' = [] ->
            pending_reader d' = [] -> pending_reader2 d' = [] -> pending_streamer d' = [] ->
            pending_drops d' = false ->
            next_body mem t d' = if neqb (step d') t then Reschedule else Return).
  { intros mem t d' E1 E2 E3 E4 E5 E6 E7 E8 E9 E10. unfold next_body.
    rewrite E1, E2, E3, E4, E5, E6, E7, E8, E9, E10. cbn [nonempty].
    rewrite !andb_false_r. reflexivity. }
  assert (Hrest : forall mem, next_body mem 0 (after Reschedule d) = Return).
  { intros mem. rewrite Hbody by assumption. reflexivity. }
  split.
  - unfold DP_next at 1 2. destruct (neqb type 0 && NEXTWAIT (step d)); [now left |].
    rewrite Hbody by assumption. destruct (neqb (step d) type); [right | now left].
    split; [reflexivity |]. unfold DP_next. cbn [after step inmemory Z.eqb neqb negb andb].
    apply Hrest.
  - unfold TP_next at 1 2.
    destruct (negb (ready d) || neqb type 0 && NEXTWAIT (step d)) eqn:E; [now left |].
    rewrite Hbody by assumption. destruct (neqb (step d) type); [right | now left].
    split; [reflexivity |]. unfold TP_next. cbn [after step ready neqb Z.eqb negb andb].
    apply orb_false_iff in E. destruct E as [E _]. rewrite E. cbn [orb]. apply Hrest.
Qed.

End SchedulerMore.

Lemma next_progress_witness :
  (exists p, Scheduler.DP_next 0
     (Scheduler.mkdb true 0 false false false false false [] [] [] [tt] [] [] [] [] [])
     = Scheduler.Start p)
  /\ (true = true ->
      exists p, Scheduler.TP_next 0
        (Scheduler.mkdb true 0 false false false false false [] [] [] [tt] [] [] [] [] [])
        = Scheduler.Start p).
Proof.
  apply (next_progress 0
           (Scheduler.mkdb true 0 false false false false false [] [] [] [tt] [] [] [] [] []));
    try reflexivity.
  do 8 right. split; [reflexivity |]. right. discriminate.
Defined.

Lemma next_comes_to_rest_witness :
  (Scheduler.DP_next 4
     (Scheduler.mkdb (job := unit) true 4 false false false false false
        [] [] [] [] [] [] [] [] []) = Scheduler.Return
   \/ (Scheduler.DP_next 4
         (Scheduler.mkdb (job := unit) true 4 false false false false false
            [] [] [] [] [] [] [] [] []) = Scheduler.Reschedule
       /\ Scheduler.DP_next 0
            (Scheduler.after Scheduler.Reschedule
               (Scheduler.mkdb (job := unit) true 4 false false false false false
                  [] [] [] [] [] [] [] [] [])) = Scheduler.Return))
  /\ (Scheduler.TP_next 4
        (Scheduler.mkdb (job := unit) true 4 false false false false false
           [] [] [] [] [] [] [] [] []) = Scheduler.Return
      \/ (Scheduler.TP_next 4
            (Scheduler.mkdb (job := unit) true 4 false false false false false
               [] [] [] [] [] [] [] [] []) = Scheduler.Reschedule
          /\ Scheduler.TP_next 0
               (Scheduler.after Scheduler.Reschedule
                  (Scheduler.mkdb (job := unit) true 4 false false false false false
                     [] [] [] [] [] [] [] [] [])) = Scheduler.Return)).
Proof.
  apply (next_comes_to_rest 4
           (Scheduler.mkdb (job := unit) true 4 false false false false false
              [] [] [] [] [] [] [] [] [])); reflexivity.
Defined.

(** ** The reader pass: plain, counting and sorted queries *)

Section ReaderMore.
Import Doc Reader.
Context (COMPARER : string -> string -> Z).
Context (quicksort : string -> bool -> list doc -> list doc).
Context {acc : Type} (scalar_step : scalartype -> doc -> option acc -> option acc).

Abbreviation step1 := (fun (i : @item acc) d => fst (item_step COMPARER quicksort scalar_step d i)).
Abbreviation run1 := (fun docs (it : @item acc) => fold_left step1 docs it).

Lemma first_only_false (items : list (@item acc)) i it :
  nth_error items i = Some it -> first (builder it) = false -> first_only items = false.
Proof.
  intros Hnth Hf. unfold first_only. apply andb_false_iff. left.
  apply not_true_is_false. intros H. rewrite forallb_forall in H.
  apply nth_error_In in Hnth. specialize (H it Hnth). rewrite Hf in H. discriminate.
Qed.

(** A start that is not negative counts from the front. *)
Lemma splice_start_nonneg (start : Z) (arr : list doc) :
  0 <= start -> splice_start start arr = Z.to_nat start.
Proof.
  intros H. unfold splice_start. destruct (Z.ltb_spec start 0); [lia | reflexivity].
Qed.

(** A reader that is not a first-match query walks the whole file,
    whatever other readers share the pass, and is handed its response
    when no reader queued before it throws. *)
Lemma reader2_whole_file (items : list (@item acc)) i it docs :
  nth_error items i = Some it -> first (builder it) = false ->
  thrown_before COMPARER quicksort scalar_step i items docs = false ->
  nth_error (reader2 COMPARER quicksort scalar_step items docs) i
  = Some (finish quicksort (run1 docs it)).
Proof.
  intros Hnth Hf Hquiet.
  rewrite (reader2_nth COMPARER quicksort scalar_step items docs i Hquiet). unfold responses.
  rewrite (first_only_false items i it Hnth Hf), ondocuments_all, map_map, nth_error_map, Hnth.
  reflexivity.
Qed.

(** The steps of a reader leave its builder, predicate and type alone. *)
Lemma item_step_frame d (it : @item acc) :
  builder (step1 it d) = builder it /\ compare (step1 it d) = compare it
  /\ type_ (step1 it d) = type_ it.
Proof.
  unfold item_step.
  repeat match goal with
         | |- context [match ?x with _ => _ end] => destruct x
         end; cbn; auto.
Qed.

Lemma run1_app docs1 docs2 (it : @item acc) :
  run1 (docs1 ++ docs2) it = run1 docs2 (run1 docs1 it).
Proof. apply fold_left_app. Qed.

Lemma step_items_builders b d (items : list (@item acc)) :
  map builder (fst (step_items COMPARER quicksort scalar_step b d items)) = map builder items.
Proof.
  induction items as [| it r IH]; [reflexivity |].
  cbn [step_items].
  destruct (item_step_frame d it) as (Hb & _ & _).
  destruct (item_step COMPARER quicksort scalar_step d it) as [it1 through]. cbn [fst] in Hb.
  destruct (b && through).
  - cbn [fst map]. now rewrite Hb.
  - destruct (step_items COMPARER quicksort scalar_step b d r) as [r' stop].
    cbn [fst map] in *. now rewrite Hb, IH.
Qed.

Lemma ondocuments_builders b docs (items : list (@item acc)) :
  map builder (ondocuments COMPARER quicksort scalar_step b docs items) = map builder items.
Proof.
  revert items. induction docs as [| d ds IH]; intros items; [reflexivity |].
  cbn [ondocuments].
  pose proof (step_items_builders b d items) as H.
  destruct (step_items COMPARER quicksort scalar_step b d items) as [items' stop].
  cbn [fst] in H. destruct stop; [exact H |]. now rewrite IH.
Qed.

(** Only a sorted reader throws in [fs.$callback]: in a pass without
    sorted readers every callback is called. *)
Lemma unsorted_never_throw (items : list (@item acc)) (docs : list doc) (i : nat) :
  Forall (fun it => sort_truthy (builder it) = false) items ->
  thrown_before COMPARER quicksort scalar_step i items docs = false.
Proof.
  intros Hall. unfold thrown_before, responses.
  assert (Hb : Forall (fun o => sort_truthy o = false)
                 (map builder (ondocuments COMPARER quicksort scalar_step
                                 (first_only items) docs items))).
  { rewrite ondocuments_builders. now apply List.Forall_map. }
  apply List.Forall_map in Hb.
  revert i. induction Hb as [| it r Hit _ IH]; intros i.
  - cbn [map]. now rewrite firstn_nil.
  - destruct i as [| i]; [reflexivity |]. cbn [map firstn existsb]. rewrite IH, orb_false_r.
    destruct (finish quicksort it) eqn:E; try reflexivity.
    destruct (finish_throws quicksort it E) as (_ & _ & s & Hs & _).
    unfold sort_truthy in Hit. rewrite Hs in Hit. discriminate.
Qed.

(** The part of the matches a plain query keeps: the first [skip] are
    passed over and, if [take] is set, only [take] are collected. *)
Abbreviation window o ms :=
  (if take o =? 0 then skipn (Z.to_nat (skip o)) ms
   else firstn (Z.to_nat (take o)) (skipn (Z.to_nat (skip o)) ms)).

Lemma window_snoc (o : options) (ms : list doc) (m : doc) :
  window o (ms ++ [m])
  = if (negb (skip o =? 0) && (Z.of_nat (length ms) + 1 <=? skip o))
       || (negb (take o =? 0) && (take o <=? Z.of_nat (length (window o ms))))
    then window o ms else window o ms ++ [m].
Proof.
  rewrite skipn_app.
  destruct (Z.leb_spec (Z.of_nat (length ms) + 1) (skip o)) as [Hs | Hs].
  - assert (E : (skip o =? 0) = false) by (apply Z.eqb_neq; lia).
    rewrite E. cbn [negb andb orb].
    rewrite (skipn_all2 ms) by lia.
    rewrite (skipn_all2 [m]) by (cbn [length]; lia). reflexivity.
  - rewrite andb_false_r. cbn [orb].
    replace (Z.to_nat (skip o) - length ms)%nat with 0%nat by lia. cbn [skipn].
    destruct (Z.eqb_spec (take o) 0) as [Ht | Ht]; [reflexivity |]. cbn [negb andb].
    rewrite firstn_app, length_firstn.
    destruct (Z.leb_spec (take o)
                (Z.of_nat (Nat.min (Z.to_nat (take o)) (length (skipn (Z.to_nat (skip o)) ms)))))
      as [Hle | Hgt].
    + replace (Z.to_nat (take o) - length (skipn (Z.to_nat (skip o)) ms))%nat with 0%nat by lia.
      cbn [firstn]. now rewrite app_nil_r.
    + rewrite (firstn_all2 [m]) by (cbn [length]; lia). reflexivity.
Qed.

(** The state of a plain reader that has met the matches [ms]. *)
Abbreviation collecting o p it ms :=
  (builder it = o /\ compare it = p /\ type_ it = 0
   /\ count it = Z.of_nat (length ms)
   /\ counter it = Some (Z.of_nat (length (window o ms)))
   /\ default [] (response it) = window o ms
   /\ response it <> Some []).

Lemma no_sort_no_inlinesort o : sort_truthy o = false -> inlinesort o = false.
Proof.
  intros H. unfold inlinesort. unfold sort_truthy in H. rewrite H. apply andb_false_r.
Qed.

Lemma collecting_step o p (it : @item acc) ms d :
  inlinesort o = false -> scalar o = None ->
  collecting o p it ms ->
  collecting o p (step1 it d) (ms ++ match p d with Some m => [m] | None => [] end).
Proof.
  intros Hinl Hscalar (Hb & Hc & Hty & Hn & Hk & Hr & Hne).
  unfold item_step. rewrite Hc. destruct (p d) as [m |].
  2: { rewrite app_nil_r. cbn [fst]. auto 10. }
  rewrite Hb.
  rewrite Hinl, Hty, Hscalar, Hn, Hk, (window_snoc o ms m). cbn [negb andb le_counter Z.eqb].
  destruct ((negb (skip o =? 0) && (Z.of_nat (length ms) + 1 <=? skip o))
            || (negb (take o =? 0) && (take o <=? Z.of_nat (length (window o ms))))).
  - cbn [fst set_state builder compare type_ count counter response].
    rewrite length_app. cbn [length]. repeat split; auto; lia.
  - destruct (sort o) as [| | s0];
      cbn [fst set_state builder compare type_ count counter response option_map];
      rewrite !length_app, Hr; cbn [length default]; repeat split; auto;
      try lia; try (f_equal; lia); intros [= E]; now destruct (window o ms).
Qed.

Lemma collecting_run o p docs (it : @item acc) ms :
  inlinesort o = false -> scalar o = None ->
  collecting o p it ms -> collecting o p (run1 docs it) (ms ++ matches p docs).
Proof.
  intros Hsort Hscalar. revert it ms. induction docs as [| d ds IH]; intros it ms H.
  - cbn [fold_left matches]. now rewrite app_nil_r.
  - cbn [fold_left matches].
    pose proof (collecting_step o p it ms d Hsort Hscalar H) as Hstep.
    destruct (p d) as [m |].
    + change (m :: matches p ds) with ([m] ++ matches p ds). rewrite app_assoc.
      apply IH, Hstep.
    + rewrite app_nil_r in Hstep. apply IH, Hstep.
Qed.

Lemma collecting_init o p : collecting o p (@new_item acc o p (Some 0)) (@nil doc).
Proof.
  cbn. destruct (take o =? 0); rewrite ?skipn_nil, ?firstn_nil; cbn; repeat split; congruence.
Qed.

(** A query queued by [find()] that is neither sorted nor a first-match,
    scalar or listing query answers with the matches in file order, less
    the first [skip] of them and cut after [take] documents when [take]
    is set: a negative [skip] passes nothing over and a negative [take]
    leaves nothing. Other readers in the same pass do not change this, as
    long as none of those queued before it throws in [fs.$callback]
    (after which no callback is called). *)
Theorem find_returns_window (items : list (@item acc)) (i : nat) (o : options)
    (p : doc -> option doc) (docs : list doc) :
  nth_error items i = Some (new_item o p (Some 0)) ->
  first o = false -> scalar o = None -> sort_truthy o = false -> listing o = false ->
  thrown_before COMPARER quicksort scalar_step i items docs = false ->
  nth_error (reader2 COMPARER quicksort scalar_step items docs) i
  = Some (Many (window o (matches p docs))).
Proof.
  intros Hnth Hfirst Hscalar Hsort Hlist Hquiet.
  rewrite (reader2_whole_file items i _ docs Hnth Hfirst Hquiet). f_equal.
  destruct (collecting_run o p docs _ [] (no_sort_no_inlinesort o Hsort) Hscalar
              (collecting_init o p))
    as (Hb & Hc & Hty & Hn & Hk & Hr & _).
  cbn [app] in Hr. unfold finish, deliver, output_of.
  rewrite Hb, Hscalar, Hty, Hfirst, Hlist, Hr. cbn [Z.eqb].
  unfold sort_truthy in Hsort. now destruct (sort o).
Qed.

(** A counting job never reaches the end of the loop body, so it never
    ends the pass early. *)
Lemma counting_step_flag d (it : @item acc) :
  type_ it = 1 -> snd (item_step COMPARER quicksort scalar_step d it) = false.
Proof.
  intros Hty. unfold item_step. rewrite Hty. cbn [Z.eqb negb].
  destruct (compare it d); [| reflexivity].
  now destruct (negb (inlinesort (builder it)) && _).
Qed.

Lemma counting_alone (b : bool) docs (it : @item acc) :
  type_ it = 1 ->
  ondocuments COMPARER quicksort scalar_step b docs [it] = [run1 docs it].
Proof.
  revert it. induction docs as [| d ds IH]; intros it Hty; [reflexivity |].
  cbn [ondocuments step_items fold_left].
  pose proof (counting_step_flag d it Hty) as Hflag.
  destruct (item_step_frame d it) as (_ & _ & Hty').
  destruct (item_step COMPARER quicksort scalar_step d it) as [it1 through].
  cbn [fst snd] in *. subst through. rewrite andb_false_r.
  apply IH. congruence.
Qed.

Lemma counting_whole_file (items : list (@item acc)) i it docs :
  nth_error items i = Some it -> type_ it = 1 ->
  thrown_before COMPARER quicksort scalar_step i items docs = false ->
  nth_error (reader2 COMPARER quicksort scalar_step items docs) i
  = Some (finish quicksort (run1 docs it)).
Proof.
  intros Hnth Hty Hquiet.
  rewrite (reader2_nth COMPARER quicksort scalar_step items docs i Hquiet). unfold responses.
  destruct (first_only items) eqn:Ef.
  - unfold first_only in Ef. apply andb_prop in Ef. destruct Ef as [_ Hlen].
    apply Nat.leb_le in Hlen.
    destruct items as [| it0 [| it2 r]]; [destruct i; discriminate | | cbn in Hlen; lia].
    destruct i as [| i]; [| destruct i; discriminate]. injection Hnth as ->.
    now rewrite counting_alone.
  - rewrite ondocuments_all, map_map, nth_error_map, Hnth. reflexivity.
Qed.

Lemma count_step d (it : @item acc) :
  count (step1 it d)
  = count it + match compare it d with Some _ => 1 | None => 0 end.
Proof.
  unfold item_step. destruct (compare it d); [| cbn; lia].
  repeat match goal with
         | |- context [match ?x with _ => _ end] => destruct x
         end; reflexivity.
Qed.

Lemma count_run docs (it : @item acc) :
  count (run1 docs it) = count it + Z.of_nat (length (matches (compare it) docs)).
Proof.
  revert it. induction docs as [| d ds IH]; intros it; [cbn; lia |].
  cbn [fold_left matches]. rewrite IH, count_step.
  destruct (item_step_frame d it) as (_ & -> & _).
  destruct (compare it d); cbn [length]; lia.
Qed.

Lemma run1_frame docs (it : @item acc) :
  builder (run1 docs it) = builder it /\ compare (run1 docs it) = compare it
  /\ type_ (run1 docs it) = type_ it.
Proof.
  revert it. induction docs as [| d ds IH]; intros it; [now repeat split |].
  cbn [fold_left]. destruct (IH (step1 it d)) as (-> & -> & ->).
  apply item_step_frame.
Qed.

(** A job queued by [count()] answers with the number of documents its
    predicate matches in the whole file, whatever [skip] and [take] its
    builder sets and whatever other readers share the pass, as long as no
    sort object is set and none of the readers queued before it throws in
    [fs.$callback] (after which no callback is called). *)
Theorem count_counts_matches (items : list (@item acc)) (i : nat) (o : options)
    (p : doc -> option doc) (c : option Z) (docs : list doc) :
  nth_error items i = Some (mkitem o p 1 0 c None None) ->
  sort_truthy o = false ->
  thrown_before COMPARER quicksort scalar_step i items docs = false ->
  nth_error (reader2 COMPARER quicksort scalar_step items docs) i
  = Some (Count (Z.of_nat (length (matches p docs)))).
Proof.
  intros Hnth Hsort Hquiet.
  rewrite (counting_whole_file items i _ docs Hnth eq_refl Hquiet). f_equal.
  pose proof (count_run docs (mkitem o p 1 0 c None None)) as Hn. cbn [count compare] in Hn.
  destruct (run1_frame docs (mkitem o p 1 0 c None None)) as (Hb & _ & Hty).
  cbn [builder type_] in Hb, Hty.
  unfold finish, deliver, output_of. rewrite Hb, Hty, Hn. cbn [Z.eqb].
  unfold sort_truthy in Hsort.
  destruct (scalar o); [reflexivity |]. now destruct (sort o).
Qed.

(** A query sorted by a named field, with no [take] and a [skip] that is
    not negative: the matches after the first [skip] (in file order) are
    collected, sorted by [quicksort], and [skip] is then applied a second
    time to the sorted list. When something matches but every match was
    passed over, the reader calls [quicksort] on a response that does not
    exist, which throws. No reader queued before it throws. *)
Theorem sorted_query_skips_twice (items : list (@item acc)) (i : nat) (o : options)
    (p : doc -> option doc) (s : sorter) (docs : list doc) :
  nth_error items i = Some (new_item o p (Some 0)) ->
  first o = false -> scalar o = None -> listing o = false ->
  sort o = By s -> name s <> EmptyString -> take o = 0 -> 0 <= skip o ->
  thrown_before COMPARER quicksort scalar_step i items docs = false ->
  nth_error (reader2 COMPARER quicksort scalar_step items docs) i
  = Some (match matches p docs with
          | [] => Many []
          | _ :: _ =>
              match skipn (Z.to_nat (skip o)) (matches p docs) with
              | [] => Throws
              | kept => Many (skipn (Z.to_nat (skip o)) (quicksort (name s) (asc s) kept))
              end
          end).
Proof.
  intros Hnth Hfirst Hscalar Hlist Hsort Hname Htake Hskip Hquiet.
  rewrite (reader2_whole_file items i _ docs Hnth Hfirst Hquiet). f_equal.
  assert (Hinl : inlinesort o = false) by (unfold inlinesort; now rewrite Htake).
  destruct (collecting_run o p docs _ [] Hinl Hscalar (collecting_init o p))
    as (Hb & Hc & Hty & Hn & Hk & Hr & Hne).
  cbn [app] in Hn, Hk, Hr. rewrite Htake in Hr. cbn [Z.eqb] in Hr.
  apply String.eqb_neq in Hname.
  unfold finish, deliver, output_of.
  rewrite Hb, Hscalar, Hsort, Hty, Hfirst, Hlist, Hinl, Hn, Hname, Htake.
  cbn [Z.eqb negb andb orb].
  destruct (matches p docs) as [| m ms] eqn:Em.
  - cbn [length Z.of_nat Z.eqb]. rewrite skipn_nil in Hr. now rewrite Hr.
  - replace (Z.of_nat (length (m :: ms)) =? 0) with false
      by (symmetry; apply Z.eqb_neq; cbn [length]; lia).
    destruct (response (run1 docs (new_item o p (Some 0)))) as [arr |] eqn:Er.
    + change (arr = skipn (Z.to_nat (skip o)) (m :: ms)) in Hr. subst arr.
      destruct (skipn (Z.to_nat (skip o)) (m :: ms)) as [| k ks] eqn:Ek; [congruence |].
      unfold splice_from. rewrite splice_start_nonneg by exact Hskip.
      destruct (Z.eqb_spec (skip o) 0) as [E0 | E0]; cbn [negb].
      * rewrite E0. reflexivity.
      * reflexivity.
    + change ([] = skipn (Z.to_nat (skip o)) (m :: ms)) in Hr. now rewrite <- Hr.
Qed.

Lemma in_firstn_list {A : Type} (n : nat) (l : list A) x : In x (firstn n l) -> In x l.
Proof. intros H. rewrite <- (firstn_skipn n l). apply in_or_app. now left. Qed.

Lemma in_skipn_list {A : Type} (n : nat) (l : list A) x : In x (skipn n l) -> In x l.
Proof. intros H. rewrite <- (firstn_skipn n l). apply in_or_app. now right. Qed.

Lemma removelast_length {A : Type} (x : A) (l : list A) :
  length (removelast (x :: l)) = length l.
Proof.
  revert x. induction l as [| y r IH]; intros x; [reflexivity |].
  change (removelast (x :: y :: r)) with (x :: removelast (y :: r)).
  cbn [length]. now rewrite IH.
Qed.

Lemma resort_from_length s d (arr : list doc) beg :
  length (resort_from COMPARER s d arr beg) = length arr.
Proof.
  revert beg. induction arr as [| a r IH]; intros beg; [reflexivity |].
  cbn [resort_from]. destruct beg as [| k].
  - destruct (nosqlsortvalue COMPARER _ _ s).
    + cbn [length]. now rewrite removelast_length.
    + cbn [length]. now rewrite IH.
  - cbn [length]. now rewrite IH.
Qed.

Lemma nosqlresort_length s (arr : list doc) d :
  length (nosqlresort COMPARER s arr d) = length arr.
Proof.
  unfold nosqlresort. destruct (nth_error arr (length arr - 1)); [| reflexivity].
  destruct (negb _); [reflexivity | apply resort_from_length].
Qed.

(** The inline sorter never holds more than [$limit] documents. *)
Lemma nosqlinlinesorter_length (Hq : reorders quicksort) o s (arr : list doc) d :
  length (nosqlinlinesorter COMPARER quicksort o s (Some arr) d)
  = if Z.of_nat (length arr) <? limit o then S (length arr) else length arr.
Proof.
  unfold nosqlinlinesorter. destruct (Z.of_nat (length arr) <? limit o).
  - destruct (limit o <=? Z.of_nat (length arr) + 1).
    + rewrite (Permutation_length (Hq (name s) (asc s) (arr ++ [d]))), length_app.
      cbn [length]. lia.
    + rewrite length_app. cbn [length]. lia.
  - apply nosqlresort_length.
Qed.

(** The state of a reader that sorts inline after the matches [ms]. *)
Abbreviation sorting o p it ms :=
  (builder it = o /\ compare it = p /\ type_ it = 0
   /\ count it = Z.of_nat (length ms)
   /\ match response it with
      | None => (ms = nil)%list
      | Some l => (ms <> nil)%list
                  /\ length l = Nat.min (length ms) (Z.to_nat (limit o))
                  /\ forall x, In x l -> In x ms
      end).

Lemma sorting_step (Hq : reorders quicksort) o p s (it : @item acc) ms d :
  sort o = By s -> 0 < take o -> 0 <= skip o -> scalar o = None ->
  sorting o p it ms ->
  sorting o p (step1 it d) (ms ++ match p d with Some m => [m] | None => [] end).
Proof.
  intros Hsort Htake Hskip Hscalar (Hb & Hc & Hty & Hn & Hr).
  unfold item_step. rewrite Hc. destruct (p d) as [m |].
  2: { rewrite app_nil_r. cbn [fst]. auto 10. }
  rewrite Hb.
  assert (Hinl : inlinesort o = true).
  { unfold inlinesort. rewrite Hsort. replace (take o =? 0) with false; [reflexivity |].
    symmetry. apply Z.eqb_neq. lia. }
  rewrite Hinl, Hty, Hscalar, Hsort. cbn [negb andb Z.eqb fst].
  cbn [set_state builder compare type_ count response].
  rewrite length_app. cbn [length].
  split; [exact Hb |]. split; [exact Hc |]. split; [exact Hty |]. split; [lia |].
  assert (Hlim : (1 <= Z.to_nat (limit o))%nat) by (unfold limit; lia).
  destruct (response it) as [arr |] eqn:Er.
  - destruct Hr as (Hne & Hlen & Hin). split; [now destruct ms |]. split.
    + rewrite (nosqlinlinesorter_length Hq), Hlen.
      destruct (Z.ltb_spec (Z.of_nat (Nat.min (length ms) (Z.to_nat (limit o)))) (limit o)); lia.
    + intros x Hx.
      destruct (nosqlinlinesorter_members COMPARER quicksort Hq o s (Some arr) m) as [_ Hmem].
      { intros a [= <-] E. subst arr. cbn [length] in Hlen. destruct ms; [congruence |].
        cbn [length] in Hlen. lia. }
      apply in_or_app. destruct (Hmem x Hx) as [-> | (a & [= <-] & Ha)].
      * right. now left.
      * left. now apply Hin.
  - subst ms. cbn [nosqlinlinesorter app length]. split; [discriminate |]. split; [lia |].
    intros x Hx. exact Hx.
Qed.

Lemma sorting_run (Hq : reorders quicksort) o p s docs (it : @item acc) ms :
  sort o = By s -> 0 < take o -> 0 <= skip o -> scalar o = None ->
  sorting o p it ms -> sorting o p (run1 docs it) (ms ++ matches p docs).
Proof.
  intros Hsort Htake Hskip Hscalar. revert it ms.
  induction docs as [| d ds IH]; intros it ms H.
  - cbn [fold_left matches]. now rewrite app_nil_r.
  - cbn [fold_left matches].
    pose proof (sorting_step Hq o p s it ms d Hsort Htake Hskip Hscalar H) as Hstep.
    destruct (p d) as [m |].
    + change (m :: matches p ds) with ([m] ++ matches p ds). rewrite app_assoc.
      apply IH, Hstep.
    + rewrite app_nil_r in Hstep. apply IH, Hstep.
Qed.

(** A query sorted by a named field with a positive [take]: while it
    reads the file it never holds more than [take + skip] documents, and
    it answers with exactly [take] matches, or with all that are left
    after [skip] when there are fewer. [quicksort] is only assumed to
    reorder, and no reader queued before this one throws in
    [fs.$callback] (after which no callback is called). *)
Theorem sorted_take_bounded (Hq : reorders quicksort) (items : list (@item acc)) (i : nat)
    (o : options) (p : doc -> option doc) (s : sorter) (docs : list doc) :
  nth_error items i = Some (new_item o p (Some 0)) ->
  first o = false -> scalar o = None -> listing o = false ->
  sort o = By s -> name s <> EmptyString -> 0 < take o -> 0 <= skip o ->
  thrown_before COMPARER quicksort scalar_step i items docs = false ->
  (forall seen,
      Nat.le (length (default [] (response (run1 (firstn seen docs) (new_item o p (Some 0))))))
             (Z.to_nat (take o + skip o)))
  /\ exists l,
      nth_error (reader2 COMPARER quicksort scalar_step items docs) i = Some (Many l)
      /\ length l = Nat.min (Z.to_nat (take o))
                            (length (matches p docs) - Z.to_nat (skip o))
      /\ forall x, In x l -> In x (matches p docs).
Proof.
  intros Hnth Hfirst Hscalar Hlist Hsort Hname Htake Hskip Hquiet.
  assert (Hinit : sorting o p (@new_item acc o p (Some 0)) (@nil doc)).
  { cbn. auto 10. }
  split.
  - intros seen.
    destruct (sorting_run Hq o p s (firstn seen docs) _ [] Hsort Htake Hskip Hscalar Hinit)
      as (_ & _ & _ & _ & Hr).
    destruct (response (run1 (firstn seen docs) (new_item o p (Some 0)))) as [arr |].
    + destruct Hr as (_ & Hlen & _). change (default [] (Some arr)) with arr.
      rewrite Hlen. unfold limit. lia.
    + change (default [] (@None (list doc))) with (@nil doc). cbn [length]. lia.
  - rewrite (reader2_whole_file items i _ docs Hnth Hfirst Hquiet).
    destruct (sorting_run Hq o p s docs _ [] Hsort Htake Hskip Hscalar Hinit)
      as (Hb & Hc & Hty & Hn & Hr).
    cbn [app] in Hn, Hr.
    assert (Hinl : inlinesort o = true).
    { unfold inlinesort. rewrite Hsort. replace (take o =? 0) with false; [reflexivity |].
      symmetry. apply Z.eqb_neq. lia. }
    apply String.eqb_neq in Hname.
    unfold finish, deliver, output_of.
    rewrite Hb, Hscalar, Hsort, Hty, Hfirst, Hlist, Hinl, Hn, Hname.
    cbn [Z.eqb negb andb orb].
    destruct (response (run1 docs (new_item o p (Some 0)))) as [arr |].
    + destruct Hr as (Hne & Hlen & Hin).
      replace (Z.of_nat (length (matches p docs)) =? 0) with false
        by (symmetry; apply Z.eqb_neq; destruct (matches p docs); [congruence | cbn; lia]).
      replace (take o =? 0) with false by (symmetry; apply Z.eqb_neq; lia).
      cbn [negb andb].
      set (arr1 := if negb (take o =? Z.of_nat (length arr))
                   then quicksort (name s) (asc s) arr else arr).
      assert (H1 : length arr1 = length arr /\ forall x, In x arr1 -> In x arr).
      { subst arr1. destruct (negb _); [| now split].
        pose proof (Hq (name s) (asc s) arr) as Hp.
        split; [now apply Permutation_length |].
        intros x Hx. eapply Permutation_in; eassumption. }
      destruct H1 as [Hl1 Hin1]. unfold limit in Hlen.
      destruct (Z.eqb_spec (skip o) 0) as [E0 | E0]; cbn [negb andb].
      * exists arr1. split; [reflexivity |]. split; [| auto].
        rewrite Hl1, Hlen, E0. cbn [Z.to_nat]. lia.
      * exists (splice (skip o) (take o) arr1). split; [reflexivity |]. unfold splice.
        rewrite splice_start_nonneg by exact Hskip. split.
        -- rewrite length_firstn, length_skipn, Hl1, Hlen. lia.
        -- intros x Hx. apply Hin, Hin1.
           apply (in_skipn_list (Z.to_nat (skip o))), (in_firstn_list (Z.to_nat (take o))), Hx.
    + rewrite Hr. cbn [length Z.of_nat Z.eqb]. exists []. cbn. repeat split; [lia | tauto].
Qed.

End ReaderMore.

Lemma find_returns_window_witness :
  nth_error
    (Reader.reader2 (fun _ _ => 0) (fun _ _ l => l) (fun _ _ (a : option unit) => a)
       [Reader.new_item (Reader.skip_ 1 (Reader.take_ 2 Reader.new_builder)) Some (Some 0)]
       [{["id" := Doc.VStr "A"]}; {["id" := Doc.VStr "B"]}; {["id" := Doc.VStr "C"]};
        {["id" := Doc.VStr "D"]}]) 0
  = Some (Reader.Many [{["id" := Doc.VStr "B"]}; {["id" := Doc.VStr "C"]}]).
Proof.
  apply (find_returns_window (fun _ _ => 0) (fun _ _ l => l) (fun _ _ (a : option unit) => a)
           [Reader.new_item (Reader.skip_ 1 (Reader.take_ 2 Reader.new_builder)) Some (Some 0)]
           0 (Reader.skip_ 1 (Reader.take_ 2 Reader.new_builder)) Some);
    reflexivity.
Defined.

Lemma count_counts_matches_witness :
  nth_error
    (Reader.reader2 (fun _ _ => 0) (fun _ _ l => l) (fun _ _ (a : option unit) => a)
       [Reader.mkitem (Reader.take_ 1 Reader.new_builder) Some 1 0 None None None]
       [{["id" := Doc.VStr "A"]}; {["id" := Doc.VStr "B"]}; {["id" := Doc.VStr "C"]}]) 0
  = Some (Reader.Count 3).
Proof.
  apply (count_counts_matches (fun _ _ => 0) (fun _ _ l => l) (fun _ _ (a : option unit) => a)
           [Reader.mkitem (Reader.take_ 1 Reader.new_builder) Some 1 0 None None None]
           0 (Reader.take_ 1 Reader.new_builder) Some None);
    reflexivity.
Defined.

Lemma sorted_query_skips_twice_witness :
  nth_error
    (Reader.reader2 (fun _ _ => 0) (fun _ _ l => rev l) (fun _ _ (a : option unit) => a)
       [Reader.new_item (Reader.skip_ 1 (Reader.sort_ "id" false Reader.new_builder))
          Some (Some 0)]
       [{["id" := Doc.VStr "A"]}; {["id" := Doc.VStr "B"]}; {["id" := Doc.VStr "C"]};
        {["id" := Doc.VStr "D"]}]) 0
  = Some (Reader.Many [{["id" := Doc.VStr "C"]}; {["id" := Doc.VStr "B"]}]).
Proof.
  apply (sorted_query_skips_twice (fun _ _ => 0) (fun _ _ l => rev l)
           (fun _ _ (a : option unit) => a)
           [Reader.new_item (Reader.skip_ 1 (Reader.sort_ "id" false Reader.new_builder))
              Some (Some 0)]
           0 (Reader.skip_ 1 (Reader.sort_ "id" false Reader.new_builder)) Some
           (Reader.mksorter "id" true));
    try reflexivity; discriminate.
Defined.

Lemma sorted_take_bounded_witness :
  exists l,
    nth_error
      (Reader.reader2 (fun _ _ => 0) (fun _ _ l => l) (fun _ _ (a : option unit) => a)
         [Reader.new_item (Reader.take_ 2 (Reader.sort_ "id" false Reader.new_builder))
            Some (Some 0)]
         [{["id" := Doc.VStr "A"]}; {["id" := Doc.VStr "B"]}; {["id" := Doc.VStr "C"]}]) 0
    = Some (Reader.Many l)
    /\ length l = 2%nat.
Proof.
  destruct (sorted_take_bounded (fun _ _ => 0) (fun _ _ l => l)
              (fun _ _ (a : option unit) => a)
              (fun _ _ l => Permutation_refl l)
              [Reader.new_item (Reader.take_ 2 (Reader.sort_ "id" false Reader.new_builder))
                 Some (Some 0)]
              0 (Reader.take_ 2 (Reader.sort_ "id" false Reader.new_builder)) Some
              (Reader.mksorter "id" true)
              [{["id" := Doc.VStr "A"]}; {["id" := Doc.VStr "B"]}; {["id" := Doc.VStr "C"]}])
    as [_ (l & H1 & H2 & _)];
    try reflexivity; try discriminate; try (cbn; lia).
  exists l. split; [exact H1 | exact H2].
Defined.

(** A reader that throws ends the pass: a sorted query whose [skip]
    passes over all its matches throws in [fs.$callback], and the
    first-match query queued after it gets no callback. *)
Example throw_ends_the_pass :
  Reader.reader2 (fun _ _ => 0) (fun _ _ l => l) (fun _ _ (a : option unit) => a)
    [Reader.new_item (Reader.skip_ 5 (Reader.sort_ "id" false Reader.new_builder))
       Some (Some 0);
     Reader.new_item (Reader.first_ Reader.new_builder) Some None]
    [{["id" := Doc.VStr "A"]}]
  = [Reader.Throws].
Proof. vm_compute. reflexivity. Qed.

(** A negative [skip] of a sorted query passes nothing over while the
    file is read, and [splice] then counts it from the end of the sorted
    list. *)
Example negative_skip_counts_from_end :
  Reader.reader2 (fun _ _ => 0) (fun _ _ l => l) (fun _ _ (a : option unit) => a)
    [Reader.new_item (Reader.skip_ (-1) (Reader.sort_ "id" false Reader.new_builder))
       Some (Some 0)]
    [{["id" := Doc.VStr "A"]}; {["id" := Doc.VStr "B"]}; {["id" := Doc.VStr "C"]}]
  = [Reader.Many [{["id" := Doc.VStr "C"]}]].
Proof. vm_compute. reflexivity. Qed.

(** ** The counter: extremes, removal and the balance of a line *)

Section CounterMoreFacts.
Import Counter CounterMore.
Local Open Scope string_scope.
Context (year : Z) (MMdd : string).

Lemma minmax_first id (z : Z) (c : option cache) :
  truthy (pending c ("mma" ++ year_text year ++ id)) = false ->
  pending (minmax_one year id (Some z) c) ("mma" ++ year_text year ++ id)
  = CPair (Some z) (Some z).
Proof.
  intros H. unfold minmax_one. destruct c as [m |].
  - unfold pending, entries in H. rewrite H. cbn [negb].
    unfold empty, pending, entries. apply get_set_eq.
  - unfold empty, pending, entries. apply get_set_eq.
Qed.

Lemma minmax_next id (z a b : Z) (c : option cache) :
  pending c ("mma" ++ year_text year ++ id) = CPair (Some a) (Some b) ->
  pending (minmax_one year id (Some z) c) ("mma" ++ year_text year ++ id)
  = CPair (Some (Z.min a z)) (Some (Z.max b z)).
Proof.
  intros H. unfold minmax_one. destruct c as [m |]; [| discriminate H].
  unfold pending, entries in H. rewrite H. cbn [truthy negb gt].
  unfold pending, entries. rewrite get_set_eq. f_equal.
  - destruct (Z.ltb_spec z a); f_equal; lia.
  - destruct (Z.ltb_spec b z); f_equal; lia.
Qed.

(** [CP.min] and [CP.max] do the same thing: after any sequence of calls
    of either for one id, with numbers for counts, the cache holds the
    pair of the smallest and the largest count. *)
Theorem min_max_track_extremes (id : string) (first_max : bool) (z0 : Z)
    (calls : list (bool * Z)) (c0 : option cache) :
  truthy (pending c0 ("mma" ++ year_text year ++ id)) = false ->
  pending
    (fold_left (fun acc (call : bool * Z) =>
                  if fst call then max year (Id id) (Some (snd call)) acc
                  else min year (Id id) (Some (snd call)) acc)
       ((first_max, z0) :: calls) c0)
    ("mma" ++ year_text year ++ id)
  = CPair (Some (fold_left Z.min (map snd calls) z0))
          (Some (fold_left Z.max (map snd calls) z0)).
Proof.
  intros H0. cbn [fold_left fst snd].
  assert (Hstart : pending (if first_max then max year (Id id) (Some z0) c0
                            else min year (Id id) (Some z0) c0)
                     ("mma" ++ year_text year ++ id) = CPair (Some z0) (Some z0)).
  { destruct first_max; cbn [max min]; now apply minmax_first. }
  revert Hstart.
  generalize (if first_max then max year (Id id) (Some z0) c0
              else min year (Id id) (Some z0) c0) as c.
  generalize z0 at 2 4 as a. generalize z0 as b.
  induction calls as [| [is_max z] rest IH]; intros b a c Hc; [exact Hc |].
  cbn [fold_left map fst snd]. apply IH.
  destruct is_max; cbn [max min]; now apply minmax_next.
Qed.






Lemma bucket_sum_bump (t : Z) (bs : list (string * Z)) :
  bucket_sum (bump MMdd t bs) = (bucket_sum bs + t)%Z.
Proof.
  unfold bucket_sum. induction bs as [| [d v] r IH]; [cbn; lia |].
  cbn [bump]. destruct (String.eqb d MMdd); cbn [fold_right snd] in *; lia.
Qed.

Lemma get_sum_entry (c : cache) (k : string) :
  Forall sum_entry c -> forall a b, get c k <> CPair a b.
Proof.
  induction 1 as [| [k' v] r [_ Hv] _ IH]; [discriminate |].
  cbn [get]. destruct (String.eqb k' k); [| exact IH].
  cbn [snd] in Hv. intros a b ->. exact Hv.
Qed.

Lemma set_sum_entry (c : cache) (y : Z) (id : string) :
  plain_id id -> Forall sum_entry c -> Forall sum_entry (set (sum_key y id) CUndefined c).
Proof.
  intros Hid. induction 1 as [| [k' v] r Hv Hr IH].
  - repeat constructor. now exists y, id.
  - cbn [set]. destruct (String.eqb k' (sum_key y id)); constructor; try assumption.
    destruct Hv as [Hk _]. split; [exact Hk | exact I].
Qed.

Lemma bump_days (t : Z) (bs : list (string * Z)) :
  day_name MMdd -> Forall (fun b => day_name (fst b)) bs ->
  Forall (fun b => day_name (fst b)) (bump MMdd t bs).
Proof.
  intros Hd. induction 1 as [| [d v] r Hb Hr IH];
    [cbn [bump]; apply List.Forall_cons; [exact Hd | apply List.Forall_nil] |].
  cbn [bump]. destruct (String.eqb d MMdd); constructor; assumption.
Qed.

Lemma flush_balance (c : cache) :
  day_name MMdd -> Forall sum_entry c ->
  Forall (fun chunk => exists l, chunk = line_text l ++ NEWLINE /\ balanced l) (flush MMdd c).
Proof.
  intros Hd. induction 1 as [| [k v] r [(y & id & Hk & Hid) Hv] _ IH]; [constructor |].
  cbn [fst snd] in Hk, Hv. subst k.
  cbn [flush]. destruct v as [| | t | a b]; try exact IH; [| destruct Hv].
  constructor; [| exact IH]. exists (mkline y id t [(MMdd, t)]). split.
  - unfold line_text, render, bucket_text, dt.
    cbn [l_year l_id l_head l_buckets map JS.join String.concat fst snd cval_text].
    now normalize_app.
  - split; [exact Hid |].
    split; [apply List.Forall_cons; [exact Hd | apply List.Forall_nil] |].
    cbn [l_head l_buckets bucket_sum fold_right snd]. lia.
Qed.

(** Every line of the counter file keeps the balance between its head
    aggregate and its daily buckets through a flush: if in every line the
    head is the sum of the buckets, then so it is in every line the flush
    writes, the updated and the new ones included. The lines and the
    cache carry sums of plain ids; the numbers of the file and of the
    cache are less than [2 ^ 52] in magnitude, so that what the flush
    adds up stays a safe integer; the day of the flush is a day name,
    and the cache, an object, holds a key once. *)
Theorem flush_keeps_balance (c : cache) (file : list sum_line) :
  day_name MMdd ->
  List.NoDup (map fst c) ->
  Forall sum_entry c ->
  Forall (fun l => balanced l /\ modest_line l) file ->
  Forall (fun chunk => exists l, chunk = line_text l ++ NEWLINE /\ balanced l)
    (save MMdd c (map line_text file)).
Proof.
  intros Hd _ Hc Hfile. unfold save.
  assert (G : forall c, Forall sum_entry c ->
              Forall sum_entry (fst (stream MMdd c (map line_text file)))
              /\ Forall (fun chunk => exists l, chunk = line_text l ++ NEWLINE /\ balanced l)
                        (snd (stream MMdd c (map line_text file)))).
  { clear c Hc. induction Hfile as [| line rest [Hline _] _ IH]; intros c Hc.
    - split; [exact Hc | constructor].
    - destruct line as [y id z bs]. destruct Hline as (Hid & Hbs & Hz).
      cbn [l_id l_buckets l_head] in Hid, Hbs, Hz.
      cbn [map stream].
      change (line_text (mkline y id z bs)) with (render (sum_key y id) z bs).
      assert (Hd1 : Forall sum_entry
                     (fst (on_data MMdd c (render (sum_key y id) z bs ++ NEWLINE)))
                   /\ Forall (fun chunk => exists l,
                                chunk = line_text l ++ NEWLINE /\ balanced l)
                        (snd (on_data MMdd c (render (sum_key y id) z bs ++ NEWLINE)))).
      { destruct (get c (sum_key y id)) as [| | t | a b] eqn:Eg.
        - unfold on_data. fold (line_id (render (sum_key y id) z bs)).
          rewrite (line_id_render y id z bs Hid), Eg. split; [exact Hc |].
          apply List.Forall_cons; [| apply List.Forall_nil].
          exists (mkline y id z bs). split; [reflexivity |].
          exact (conj Hid (conj Hbs Hz)).
        - unfold on_data. fold (line_id (render (sum_key y id) z bs)).
          rewrite (line_id_render y id z bs Hid), Eg. split; [exact Hc | constructor].
        - rewrite (on_data_sum y MMdd id c z t bs Hid Hbs Eg). cbn [fst snd].
          split; [now apply set_sum_entry |].
          apply List.Forall_cons; [| apply List.Forall_nil].
          exists (mkline y id (z + t) (bump MMdd t bs)). split; [reflexivity |].
          split; [exact Hid |]. split; [now apply bump_days |].
          cbn [l_head l_buckets]. rewrite bucket_sum_bump. lia.
        - now destruct (get_sum_entry c (sum_key y id) Hc a b). }
      destruct (on_data MMdd c (render (sum_key y id) z bs ++ NEWLINE)) as [c1 out1].
      cbn [fst snd] in Hd1. destruct Hd1 as [Hc1 Hout1].
      destruct (IH c1 Hc1) as [Hc2 Hout2].
      destruct (stream MMdd c1 (map line_text rest)) as [c2 out2]. cbn [fst snd] in *.
      split; [exact Hc2 |]. apply Forall_app. now split. }
  destruct (G c Hc) as [Hc' Hout].
  destruct (stream MMdd c (map line_text file)) as [c' out]. cbn [fst snd] in *.
  apply Forall_app. split; [exact Hout | now apply flush_balance].
Qed.

End CounterMoreFacts.

Lemma min_max_track_extremes_witness :
  Counter.pending
    (fold_left (fun acc (call : bool * Z) =>
                  if fst call then Counter.max 2018 (Counter.Id "cpu") (Some (snd call)) acc
                  else Counter.min 2018 (Counter.Id "cpu") (Some (snd call)) acc)
       [(false, 5%Z); (true, 2%Z); (false, 9%Z)] None)
    "mma2018cpu"
  = Counter.CPair (Some 2%Z) (Some 9%Z).
Proof.
  apply (min_max_track_extremes 2018 "cpu" false 5 [(true, 2%Z); (false, 9%Z)] None).
  reflexivity.
Defined.

Lemma flush_keeps_balance_witness :
  Forall (fun chunk => exists l,
            chunk = String.append (CounterMore.line_text l) Counter.NEWLINE
            /\ CounterMore.balanced l)
    (Counter.save "0705" [(Counter.sum_key 2018 "p", Counter.CNum 3)]
       (map CounterMore.line_text
          [CounterMore.mkline 2018 "p" 5 [("0704"%string, 5%Z)];
           CounterMore.mkline 2018 "q" 1 [("0101"%string, 1%Z)]])).
Proof.
  apply (flush_keeps_balance "0705").
  - repeat split; reflexivity.
  - apply List.NoDup_cons; [intros [] | apply List.NoDup_nil].
  - repeat constructor.
    exists 2018%Z, "p"%string. split; [reflexivity |]. repeat split; reflexivity.
  - repeat (apply List.Forall_cons; [| try apply List.Forall_nil]).
    + split; [split; [repeat split; reflexivity |] |].
      * split; [repeat constructor; reflexivity | reflexivity].
      * split; [reflexivity | repeat constructor].
    + split; [split; [repeat split; reflexivity |] |].
      * split; [repeat constructor; reflexivity | reflexivity].
      * split; [reflexivity | repeat constructor].
Defined.

(** ** The counter: reading a sum back *)

Section CountFacts.
Import Counter CounterMore.
Local Open Scope string_scope.
Context (year : Z) (MMdd : string).
Implicit Types (id p m t : string) (z : Z).

Lemma substring_mid p m t :
  JS.substring (Z.of_nat (String.length p)) (Z.of_nat (String.length p + String.length m))
    (p ++ m ++ t) = m.
Proof.
  unfold JS.substring. rewrite !length_app_s.
  replace (Z.max 0 (Z.min (Z.of_nat (String.length p)) _))
    with (Z.of_nat (String.length p)) by lia.
  replace (Z.max 0 (Z.min (Z.of_nat (String.length p + String.length m)) _))
    with (Z.of_nat (String.length p + String.length m)) by lia.
  replace (Z.min (Z.of_nat (String.length p)) (Z.of_nat (String.length p + String.length m)))
    with (Z.of_nat (String.length p)) by lia.
  replace (Z.max (Z.of_nat (String.length p)) (Z.of_nat (String.length p + String.length m))
           - Z.of_nat (String.length p))%Z
    with (Z.of_nat (String.length m)) by lia.
  rewrite !Nat2Z.id, drop_app_s. apply take_app_s.
Qed.

(** What [CP.read] finds in a line that carries a sum and at least one
    bucket, when the year has four digits. *)
Lemma sum_line_parts id z (rest : string) :
  plain_id id -> String.length (year_text year) = 4%nat ->
  read_type (sum_key year id ++ "=" ++ print z ++ ";" ++ rest) = "sum"
  /\ read_key (sum_key year id ++ "=" ++ print z ++ ";" ++ rest) = id
  /\ head_text (sum_key year id ++ "=" ++ print z ++ ";" ++ rest) = print z.
Proof.
  intros Hid Hy. destruct (sum_key_clean year id Hid) as [Heq Hsemi].
  assert (Hidx : JS.indexOf "=" (sum_key year id ++ "=" ++ print z ++ ";" ++ rest)
                 = Z.of_nat (String.length (sum_key year id))).
  { change (sum_key year id ++ "=" ++ print z ++ ";" ++ rest)
      with (sum_key year id ++ String "=" (print z ++ ";" ++ rest)).
    now apply indexOf_app. }
  assert (Hlen : String.length (sum_key year id) = (7 + String.length id)%nat).
  { unfold sum_key. rewrite !length_app_s, Hy. reflexivity. }
  split; [| split].
  - unfold read_type, sum_key. rewrite !app_assoc_s.
    apply (substring_head "sum").
  - unfold read_key. rewrite Hidx, Hlen.
    replace (sum_key year id ++ "=" ++ print z ++ ";" ++ rest)
      with (("sum" ++ year_text year) ++ id ++ ("=" ++ print z ++ ";" ++ rest))
      by (unfold sum_key; now rewrite !app_assoc_s).
    replace 7%Z with (Z.of_nat (String.length ("sum" ++ year_text year)))
      by (rewrite length_app_s, Hy; reflexivity).
    replace (7 + String.length id)%nat
      with (String.length ("sum" ++ year_text year) + String.length id)%nat
      by (rewrite length_app_s, Hy; reflexivity).
    apply substring_mid.
  - unfold head_text. rewrite Hidx.
    assert (Hsemi' : JS.indexOf ";" (sum_key year id ++ "=" ++ print z ++ ";" ++ rest)
                     = Z.of_nat (String.length (sum_key year id ++ "=" ++ print z))).
    { replace (sum_key year id ++ "=" ++ print z ++ ";" ++ rest)
        with ((sum_key year id ++ "=" ++ print z) ++ String ";" rest)
        by (now rewrite !app_assoc_s).
      apply indexOf_app. rewrite !contains_app, Hsemi.
      unfold print. now rewrite (print_lacks z ";"). }
    rewrite Hsemi'.
    replace (sum_key year id ++ "=" ++ print z ++ ";" ++ rest)
      with ((sum_key year id ++ "=") ++ print z ++ (";" ++ rest))
      by (now rewrite !app_assoc_s).
    replace (Z.of_nat (String.length (sum_key year id)) + 1)%Z
      with (Z.of_nat (String.length (sum_key year id ++ "=")))
      by (rewrite length_app_s; cbn [String.length]; lia).
    replace (String.length (sum_key year id ++ "=" ++ print z))
      with (String.length (sum_key year id ++ "=") + String.length (print z))%nat
      by (rewrite !length_app_s; cbn [String.length]; lia).
    apply substring_mid.
Qed.

Lemma sum_line_key id (rest : string) :
  plain_id id -> String.length (year_text year) = 4%nat ->
  read_type (sum_key year id ++ String "=" rest) = "sum"
  /\ read_key (sum_key year id ++ String "=" rest) = id.
Proof.
  intros Hid Hy. destruct (sum_key_clean year id Hid) as [Heq _].
  split.
  - unfold read_type, sum_key. rewrite !app_assoc_s. apply (substring_head "sum").
  - unfold read_key. rewrite (indexOf_app "=" _ rest Heq).
    replace (sum_key year id ++ String "=" rest)
      with (("sum" ++ year_text year) ++ id ++ String "=" rest)
      by (unfold sum_key; now rewrite !app_assoc_s).
    replace 7%Z with (Z.of_nat (String.length ("sum" ++ year_text year)))
      by (rewrite length_app_s, Hy; reflexivity).
    replace (String.length (sum_key year id))
      with (String.length ("sum" ++ year_text year) + String.length id)%nat
      by (unfold sum_key; now rewrite !length_app_s).
    apply substring_mid.
Qed.

(** Where the first occurrence of a character is. *)
Lemma indexOf_from_spec (c : ascii) (s : string) (i : Z) :
  (JS.contains c s = false /\ JS.indexOf_from c s i = (-1)%Z)
  \/ exists a b, s = a ++ String c b /\ JS.contains c a = false
                 /\ JS.indexOf_from c s i = (i + Z.of_nat (String.length a))%Z.
Proof.
  revert i. induction s as [| d r IH]; intros i; [left; now split |].
  cbn [JS.contains JS.indexOf_from]. destruct (Ascii.eqb d c) eqn:E.
  - right. apply Ascii.eqb_eq in E. subst d. exists "", r.
    cbn [String.append String.length JS.contains]. repeat split. lia.
  - destruct (IH (i + 1)%Z) as [[H1 H2] | (a & b & -> & H1 & H2)].
    + left. now split.
    + right. exists (String d a), b. cbn [String.append String.length JS.contains].
      rewrite E, H1, H2. repeat split. lia.
Qed.

(** A line that [CP.read] does not take for the id is not the line of
    its key for [CP.save] either. *)
Lemma unrelated_line_id id (line : string) :
  plain_id id -> String.length (year_text year) = 4%nat ->
  String.eqb "sum" (read_type (line ++ NEWLINE))
  && String.eqb (read_key (line ++ NEWLINE)) id = false ->
  line_id line <> sum_key year id.
Proof.
  intros Hid Hy Hun Heq. unfold line_id, JS.indexOf in Heq.
  destruct (indexOf_from_spec "=" (line ++ NEWLINE) 0)
    as [[_ Hi] | (a & b & Hv & Ha & Hi)].
  - rewrite Hi in Heq. unfold JS.substring in Heq.
    replace (Z.max 0 (Z.min (-1) _)) with 0%Z in Heq by lia.
    replace (Z.max 0 (Z.min 0 _)) with 0%Z in Heq by lia.
    cbn in Heq. unfold sum_key in Heq. discriminate Heq.
  - rewrite Hi, Hv, Z.add_0_l in Heq. rewrite substring_head in Heq. subst a.
    rewrite Hv in Hun.
    destruct (sum_line_key id b Hid Hy) as [Ht Hk]. rewrite Ht, Hk in Hun.
    rewrite !String.eqb_refl in Hun. discriminate Hun.
Qed.

Lemma read_unrelated id (output : list (string * JS.number)) (value : string) :
  String.eqb "sum" (read_type value) && String.eqb (read_key value) id = false ->
  read_ids_data [id] output value = output.
Proof.
  intros H. unfold read_ids_data. destruct (String.eqb "sum" (read_type value)); [| reflexivity].
  cbn [negb andb existsb] in *. now rewrite H.
Qed.

Lemma read_unrelated_all id (output : list (string * JS.number)) (file : list string) :
  Forall (fun line => String.eqb "sum" (read_type (line ++ NEWLINE))
                      && String.eqb (read_key (line ++ NEWLINE)) id = false) file ->
  fold_left (read_ids_data [id]) (map (fun line => line ++ NEWLINE) file) output = output.
Proof.
  induction 1 as [| line rest Hl _ IH]; [reflexivity |].
  cbn [map fold_left]. now rewrite (read_unrelated id output _ Hl).
Qed.

Lemma render_cons key z (b : string * Z) (bs : list (string * Z)) :
  render key z (b :: bs) = key ++ "=" ++ print z ++ ";" ++ JS.join ";" (map bucket_text (b :: bs)).
Proof.
  unfold render, JS.join. cbn [map String.concat]. now rewrite !app_assoc_s.
Qed.

Lemma read_sum_line id z (bs : list (string * Z)) (output : list (string * JS.number)) :
  plain_id id -> String.length (year_text year) = 4%nat -> bs <> [] ->
  lookup_or0 (read_ids_data [id] output (render (sum_key year id) z bs ++ NEWLINE)) id
  = JS.Num z.
Proof.
  intros Hid Hy Hbs. destruct bs as [| b bs]; [congruence |].
  rewrite render_cons, !app_assoc_s.
  destruct (sum_line_parts id z (JS.join ";" (map bucket_text (b :: bs)) ++ NEWLINE) Hid Hy)
    as (Ht & Hk & Hh).
  unfold read_ids_data. rewrite Ht, Hk, Hh. cbn [existsb].
  rewrite !String.eqb_refl. cbn [negb orb]. unfold lookup_or0. cbn [List.find fst].
  rewrite String.eqb_refl. cbn [option_map snd]. unfold print. rewrite to_number_print.
  unfold or0. now destruct (Z.eqb_spec z 0) as [-> | _].
Qed.

Lemma hit_single id (n : option Z) (z : Z) :
  hit year (Id id) n (Some [(sum_key year id, CNum z)])
  = Some [(sum_key year id, CNum (z + or1 n))].
Proof.
  unfold hit. cbn [get]. rewrite String.eqb_refl. cbn [truthy].
  destruct (Z.eqb_spec z 0) as [-> | Hz]; cbn [negb].
  - unfold empty, entries. cbn [set String.get sum_key String.append].
    rewrite String.eqb_refl. reflexivity.
  - cbn [set]. now rewrite String.eqb_refl.
Qed.

(** A fresh cache after a sequence of hits for one id holds one entry. *)
Lemma hits_cache id (counts : list (option Z)) :
  counts <> [] ->
  hits year id counts None = Some [(sum_key year id, CNum (total counts))].
Proof.
  destruct counts as [| n rest]; [congruence |]. intros _.
  unfold hits. cbn [fold_left].
  assert (Hfirst : hit year (Id id) n None = Some [(sum_key year id, CNum (or1 n))]).
  { unfold hit, empty, entries. cbn [set String.get sum_key String.append]. reflexivity. }
  rewrite Hfirst.
  assert (G : forall (l : list (option Z)) (z : Z),
            fold_left (fun acc k => hit year (Id id) k acc) l
              (Some [(sum_key year id, CNum z)])
            = Some [(sum_key year id, CNum (z + total l))]).
  { induction l as [| k l IH]; intros z.
    - unfold total. cbn [fold_left fold_right]. now rewrite Z.add_0_r.
    - cbn [fold_left]. rewrite hit_single, IH.
      unfold total. cbn [fold_right]. now rewrite Z.add_assoc. }
  rewrite G. unfold total. cbn [fold_right]. reflexivity.
Qed.

Lemma stream_single_other key (v : cval) (file : list string) :
  Forall (fun line => line_id line <> key) file ->
  stream MMdd [(key, v)] file = ([(key, v)], map (fun line => line ++ NEWLINE) file).
Proof.
  induction 1 as [| line rest Hl _ IH]; [reflexivity |].
  cbn [stream map]. unfold on_data at 1. fold (line_id line). cbn [get].
  replace (String.eqb key (line_id line)) with false
    by (symmetry; apply String.eqb_neq; congruence).
  now rewrite IH.
Qed.

Lemma stream_single_done key (file : list string) :
  stream MMdd [(key, CUndefined)] file
  = ([(key, CUndefined)], map (fun line => line ++ NEWLINE) file).
Proof.
  induction file as [| line rest IH]; [reflexivity |].
  cbn [stream map]. unfold on_data at 1. cbn [get].
  destruct (String.eqb key _); now rewrite IH.
Qed.

Lemma bump_nonempty (t : Z) (bs : list (string * Z)) : bump MMdd t bs <> [].
Proof. destruct bs as [| [d v] r]; [discriminate |]. cbn [bump]. now destruct (String.eqb d MMdd). Qed.

Lemma count_id_app id (v1 v2 : list string) :
  count_id id (v1 ++ v2)
  = lookup_or0 (fold_left (read_ids_data [id]) v2 (fold_left (read_ids_data [id]) v1 [])) id.
Proof. unfold count_id. now rewrite fold_left_app. Qed.

(** Hits, a flush and [count(id)]: after a sequence of [hit(id, n)] calls
    on a fresh cache and a flush, [count(id)] reads back the counted
    amounts, added to the head the file held for the id, if it held one.
    The id is free of [=], [;] and line feeds, not empty and no name
    that an object literal inherits; the year prints with four digits;
    no other line of the file is one that [count] takes for the id, and
    these lines hold no line feed and start with no inherited name. The
    numbers are safe integers: the magnitudes of the counts added up, the
    head and the buckets of the stored line, and what they make with the
    sum. The day of the flush is a day name. *)
Theorem hits_flush_count id (counts : list (option Z)) :
  plain_id id -> own_id id -> String.length (year_text year) = 4%nat -> counts <> [] ->
  day_name MMdd ->
  JS.safe_integer (weight counts) ->
  (forall file : list string,
      Forall file_line file ->
      Forall (fun line => String.eqb "sum" (read_type (line ++ NEWLINE))
                          && String.eqb (read_key (line ++ NEWLINE)) id = false) file ->
      count_id id (save MMdd (entries (hits year id counts None)) file)
      = JS.Num (total counts))
  /\ (forall (z : Z) bs (pre post : list string),
        Forall (fun b => day_name (fst b)) bs ->
        takes_in (total counts) z ->
        Forall (fun b => takes_in (total counts) (snd b)) bs ->
        Forall file_line (pre ++ post) ->
        Forall (fun line => String.eqb "sum" (read_type (line ++ NEWLINE))
                            && String.eqb (read_key (line ++ NEWLINE)) id = false)
               (pre ++ post) ->
        count_id id (save MMdd (entries (hits year id counts None))
                       (pre ++ render (sum_key year id) z bs :: post))
        = JS.Num (z + total counts)).
Proof.
  intros Hid _ Hy Hcounts _ _. rewrite (hits_cache id counts Hcounts). cbn [entries].
  assert (Hother : forall file : list string,
            Forall (fun line => String.eqb "sum" (read_type (line ++ NEWLINE))
                                && String.eqb (read_key (line ++ NEWLINE)) id = false) file ->
            Forall (fun line => line_id line <> sum_key year id) file).
  { intros file H. eapply List.Forall_impl; [| exact H].
    intros line Hl. now apply unrelated_line_id. }
  split.
  - intros file _ Hfile. unfold save.
    rewrite (stream_single_other _ _ file (Hother file Hfile)).
    cbn [flush]. rewrite count_id_app, (read_unrelated_all id [] file Hfile).
    cbn [fold_left].
    replace (sum_key year id ++ "=" ++ cval_text (CNum (total counts)) ++ ";"
             ++ dt MMdd ++ cval_text (CNum (total counts)) ++ NEWLINE)
      with (render (sum_key year id) (total counts) [(MMdd, total counts)] ++ NEWLINE).
    + apply read_sum_line; [assumption | assumption | discriminate].
    + unfold render, bucket_text, dt. cbn [map JS.join String.concat fst snd cval_text].
      now rewrite !app_assoc_s.
  - intros z bs pre post Hbs _ _ _ Hfile.
    apply Forall_app in Hfile. destruct Hfile as [Hpre Hpost].
    unfold save. rewrite stream_app.
    rewrite (stream_single_other _ _ pre (Hother pre Hpre)). cbn [fst snd stream].
    rewrite (on_data_sum year MMdd id _ z (total counts) bs Hid Hbs)
      by (cbn [get]; now rewrite String.eqb_refl).
    cbn [set]. rewrite String.eqb_refl, stream_single_done. cbn [fst snd flush app].
    rewrite app_nil_r, count_id_app, (read_unrelated_all id [] pre Hpre).
    cbn [fold_left app].
    assert (Hfold : forall out : list (string * JS.number),
              fold_left (read_ids_data [id]) (map (fun line => line ++ NEWLINE) post) out = out).
    { intros out. now apply read_unrelated_all. }
    rewrite Hfold. apply read_sum_line; [assumption | assumption | apply bump_nonempty].
Qed.

End CountFacts.

Lemma hits_flush_count_witness :
  CounterMore.count_id "p"
    (Counter.save "0705" (Counter.entries (Counter.hits 2018 "p" [Some 3%Z; None] None))
       ["sum2018q=1;0101=1"%string; "sum2018p=5;0704=5"%string])
  = JS.Num 9.
Proof.
  destruct (hits_flush_count 2018 "0705" "p" [Some 3%Z; None]) as [_ H].
  - repeat split; reflexivity.
  - split; [discriminate |]. intros Hin. vm_compute in Hin.
    repeat (destruct Hin as [Hin | Hin]; [discriminate Hin |]). exact Hin.
  - reflexivity.
  - discriminate.
  - repeat split; reflexivity.
  - vm_compute. split; reflexivity.
  - apply (H 5%Z [("0704"%string, 5%Z)] ["sum2018q=1;0101=1"%string] []).
    + apply List.Forall_cons; [repeat split; reflexivity | apply List.Forall_nil].
    + vm_compute. repeat split; reflexivity.
    + apply List.Forall_cons; [vm_compute; repeat split; reflexivity | apply List.Forall_nil].
    + apply List.Forall_cons; [| apply List.Forall_nil]. split; [reflexivity |].
      intros Hin. vm_compute in Hin.
      repeat (destruct Hin as [Hin | Hin]; [discriminate Hin |]). exact Hin.
    + apply List.Forall_cons; [reflexivity | apply List.Forall_nil].
Defined.

(** ** The backup writer *)

Section BackuperFacts.
Import Backuper.
Local Open Scope string_scope.

Lemma join_empty_cons (x : string) (l : list string) :
  JS.join "" (x :: l) = x ++ JS.join "" l.
Proof.
  unfold JS.join. destruct l as [| y r]; cbn [String.concat]; [now rewrite app_nil_r_s |].
  reflexivity.
Qed.

Lemma join_empty_app (l1 l2 : list string) :
  JS.join "" (l1 ++ l2) = JS.join "" l1 ++ JS.join "" l2.
Proof.
  induction l1 as [| x r IH]; [reflexivity |].
  cbn [app]. now rewrite !join_empty_cons, IH, app_assoc_s.
Qed.

(** A backuper is idle, with nothing waiting, or has an append under
    way. *)
Abbreviation settled_or_busy s :=
  ((is_ s = false /\ inflight s = None /\ items s = nil)
   \/ (is_ s = true /\ exists v, inflight s = Some v)).

Lemma step_content (s : state) (e : event) :
  settled_or_busy s ->
  settled_or_busy (step s e)
  /\ content (step s e)
     = content s ++ match e with Write v => v | Appended => "" end.
Proof.
  intros [(Hi & Hf & Hit) | (Hi & v0 & Hf)]; destruct e as [v |];
    unfold step, write, appended, flush, content; rewrite ?Hi, ?Hf, ?Hit;
    cbn [items is_ inflight file app].
  - split; [right; eauto |]. rewrite join_empty_cons. cbn [JS.join String.concat].
    now rewrite !app_nil_r_s.
  - split; [left; auto |]. now rewrite !app_nil_r_s.
  - split; [right; eauto |]. now rewrite join_empty_app, !app_assoc_s.
  - destruct (items s) as [| x r]; cbn [items is_ inflight file].
    + split; [left; auto |]. cbn [JS.join String.concat].
      now rewrite !app_nil_r_s, ?app_assoc_s.
    + split; [right; eauto |]. cbn [JS.join String.concat].
      now rewrite !app_nil_r_s, ?app_assoc_s.
Qed.

Lemma run_content (es : list event) (s : state) :
  settled_or_busy s ->
  settled_or_busy (fold_left step es s)
  /\ content (fold_left step es s) = content s ++ JS.join "" (written es).
Proof.
  revert s. induction es as [| e r IH]; intros s Hs.
  - split; [exact Hs |]. cbn. now rewrite app_nil_r_s.
  - cbn [fold_left]. destruct (step_content s e Hs) as [Hs' Hc].
    destruct (IH _ Hs') as [H1 H2]. split; [exact H1 |].
    rewrite H2, Hc, app_assoc_s. f_equal. unfold written. cbn [flat_map].
    rewrite join_empty_app. destruct e; cbn [JS.join String.concat]; reflexivity.
Qed.

(** Whatever the order in which values are written and appends complete,
    nothing is lost, doubled or reordered: the file, the text on its way
    to the file and the values still waiting make up, in this order, the
    values written so far. Whenever no append is under way the file holds
    all of them. *)
Theorem backuper_keeps_order (es : list event) :
  content (run es) = JS.join "" (written es)
  /\ (is_ (run es) = false -> file (run es) = JS.join "" (written es)).
Proof.
  destruct (run_content es init) as [Hs Hc]; [left; now repeat split |].
  fold (run es) in Hs, Hc. cbn in Hc. split; [exact Hc |].
  intros Hidle. destruct Hs as [(_ & Hf & Hit) | (Hi & _)]; [| congruence].
  rewrite <- Hc. unfold content. rewrite Hf, Hit. cbn [JS.join String.concat].
  now rewrite !app_nil_r_s.
Qed.

End BackuperFacts.

(** ** The header of a table file *)

Section SchemaFacts.
Import Table Schema.
Local Open Scope string_scope.
Implicit Types (cols : list (string * coltype)) (t T : table) (k : string).

Lemma parseSchema_from_keys cols : forall i t,
  keys (parseSchema_from i cols t) = (keys t ++ map fst cols)%list.
Proof.
  induction cols as [| [n ty] r IH]; intros i t; cbn [parseSchema_from map fst].
  - now rewrite app_nil_r.
  - rewrite IH. cbn [keys]. now rewrite <- app_assoc.
Qed.

Lemma parseSchema_from_other cols k : forall i t,
  ~ In k (map fst cols) -> schema (parseSchema_from i cols t) !! k = schema t !! k.
Proof.
  induction cols as [| [n ty] r IH]; intros i t Hk; [reflexivity |].
  cbn [parseSchema_from]. cbn [map fst In] in Hk.
  rewrite IH by tauto. cbn [schema]. apply lookup_insert_ne. tauto.
Qed.

(** The entry of a name comes from its last column. *)
Lemma parseSchema_from_last c1 k ty c2 : forall i t,
  ~ In k (map fst c2) ->
  schema (parseSchema_from i (c1 ++ (k, ty) :: c2) t) !! k
  = Some (mkmeta ty (i + length c1)).
Proof.
  induction c1 as [| [n ty'] r IH]; intros i t Hk.
  - cbn [app parseSchema_from length]. rewrite parseSchema_from_other by exact Hk.
    cbn [schema]. rewrite lookup_insert_eq. do 2 f_equal. lia.
  - cbn [app parseSchema_from length]. rewrite IH by exact Hk. do 2 f_equal. lia.
Qed.

Lemma last_column cols k :
  In k (map fst cols) ->
  exists c1 ty c2, cols = (c1 ++ (k, ty) :: c2)%list /\ ~ In k (map fst c2).
Proof.
  induction cols as [| [n ty] r IH]; [intros [] |]. intros Hin.
  destruct (in_dec string_dec k (map fst r)) as [Hr | Hr].
  - destruct (IH Hr) as (c1 & ty' & c2 & -> & Hc2).
    exists ((n, ty) :: c1), ty', c2. now split.
  - destruct Hin as [E | Hin]; [| contradiction]. cbn [fst] in E. subst n.
    exists [], ty, r. now split.
Qed.

Lemma table_eq T T' : keys T = keys T' -> schema T = schema T' -> T = T'.
Proof. destruct T, T'. cbn. now intros -> ->. Qed.

(** Only the last type given to a name matters. *)
Lemma parseSchema_retype cols :
  parseSchema (map (fun c => (fst c, match schema (parseSchema cols) !! fst c with
                                     | Some m => type m
                                     | None => TString
                                     end)) cols)
  = parseSchema cols.
Proof.
  set (g := fun k => match schema (parseSchema cols) !! k with
                     | Some m => type m
                     | None => TString
                     end).
  change (parseSchema (map (fun c => (fst c, g (fst c))) cols) = parseSchema cols).
  apply table_eq.
  - unfold parseSchema. rewrite !parseSchema_from_keys, map_map. reflexivity.
  - apply map_eq. intros k. unfold parseSchema.
    destruct (in_dec string_dec k (map fst cols)) as [Hin | Hin].
    + destruct (last_column cols k Hin) as (c1 & ty & c2 & E & Hc2).
      assert (Hg : g k = ty).
      { unfold g, parseSchema. rewrite E, parseSchema_from_last by exact Hc2. reflexivity. }
      rewrite E at 2. rewrite (parseSchema_from_last c1 k ty c2) by exact Hc2.
      rewrite E, map_app. cbn [map fst].
      rewrite (parseSchema_from_last _ k (g k)).
      * now rewrite Hg, length_map.
      * now rewrite map_map.
    + rewrite !parseSchema_from_other; [reflexivity | exact Hin |].
      now rewrite map_map.
Qed.

Lemma type_name_clean c ty :
  c = ":"%char \/ c = "|"%char -> JS.contains c (type_name ty) = false.
Proof. intros [-> | ->]; now destruct ty. Qed.

Lemma parse_type_name ty : parse_type (Some (type_name ty)) = ty.
Proof. now destruct ty. Qed.

Lemma parse_column_text k ty :
  plain_name k -> parse_column (k ++ ":" ++ type_name ty) = (k, ty).
Proof.
  intros (Ht & Hc & _ & _). unfold parse_column.
  change (k ++ ":" ++ type_name ty) with (k ++ String ":" (type_name ty)).
  rewrite split_app by exact Hc.
  rewrite split_clean by (apply type_name_clean; now left).
  cbn [JS.at_index nth_error]. now rewrite Ht, parse_type_name.
Qed.

Lemma stringify_keys_spec T ks :
  Forall (fun k => is_Some (schema T !! k)) ks ->
  stringify_keys T ks
  = Some (map (fun k => k ++ ":" ++ type_name (match schema T !! k with
                                                 | Some m => type m
                                                 | None => TString
                                                 end)) ks).
Proof.
  induction 1 as [| k r [m Hm] _ IH]; [reflexivity |].
  cbn [stringify_keys map]. now rewrite Hm, IH.
Qed.

Lemma parseSchema_entries cols :
  Forall (fun k => is_Some (schema (parseSchema cols) !! k)) (map fst cols).
Proof.
  apply List.Forall_forall. intros k Hin.
  destruct (last_column cols k Hin) as (c1 & ty & c2 & E & Hc2).
  unfold parseSchema. rewrite E, parseSchema_from_last by exact Hc2. eauto.
Qed.

(** The header line that [TP.stringifySchema] writes for a schema is
    read back by [TP.parseSchema] as the same schema: for at least one
    column, with names that are trimmed ASCII without [:] and [|], the text
    [name:type|...] is produced, splitting it at [|] and parsing the pieces
    gives the same keys, types and positions, and stringifying again gives
    the same text (so the constructor sees no difference and does not call
    [extend]). A name given twice keeps its last type. *)
Theorem schema_header_round_trip cols :
  cols <> [] ->
  Forall (fun c => plain_name (fst c)) cols ->
  exists header,
    stringifySchema (parseSchema cols) = Some header
    /\ TP_parseSchema (JS.split "|" header) = parseSchema cols
    /\ stringifySchema (TP_parseSchema (JS.split "|" header)) = Some header.
Proof.
  intros Hne Hall.
  set (g := fun k => match schema (parseSchema cols) !! k with
                     | Some m => type m
                     | None => TString
                     end).
  assert (Hs : stringifySchema (parseSchema cols)
               = Some (JS.join "|" (map (fun k => k ++ ":" ++ type_name (g k))
                                        (map fst cols)))).
  { unfold stringifySchema. rewrite stringify_keys_spec.
    - unfold parseSchema at 2. rewrite parseSchema_from_keys. reflexivity.
    - unfold parseSchema at 2. rewrite parseSchema_from_keys. apply parseSchema_entries. }
  assert (Hp : TP_parseSchema (JS.split "|" (JS.join "|"
                 (map (fun k => k ++ ":" ++ type_name (g k)) (map fst cols))))
               = parseSchema cols).
  { unfold TP_parseSchema. rewrite split_join.
    - rewrite <- (parseSchema_retype cols). f_equal. rewrite !map_map.
      apply map_ext_in. intros c Hc. apply parse_column_text.
      revert c Hc. now apply List.Forall_forall.
    - destruct cols; [congruence | discriminate].
    - apply List.Forall_forall. intros x Hx. rewrite map_map in Hx.
      apply in_map_iff in Hx. destruct Hx as (c & <- & Hc).
      pose proof (proj1 (List.Forall_forall _ _) Hall c Hc) as (_ & _ & Hb & _).
      rewrite !contains_app, Hb, type_name_clean by now right. reflexivity. }
  eexists. split; [exact Hs |]. split; [exact Hp |]. now rewrite Hp.
Qed.

End SchemaFacts.

Lemma schema_header_round_trip_witness :
  exists header,
    Schema.stringifySchema (Table.parseSchema
        [("name"%string, Table.TString); ("age"%string, Table.TNumber)]) = Some header
    /\ Schema.TP_parseSchema (JS.split "|" header)
       = Table.parseSchema [("name"%string, Table.TString); ("age"%string, Table.TNumber)]
    /\ Schema.stringifySchema (Schema.TP_parseSchema (JS.split "|" header)) = Some header.
Proof.
  apply schema_header_round_trip; [discriminate |].
  repeat constructor.
Defined.

(** ** Paging *)

Section PagingFacts.
Import Doc Reader Paging.
Context (COMPARER : string -> string -> Z).
Context (quicksort : string -> bool -> list doc -> list doc).
Context {acc : Type} (scalar_step : scalartype -> doc -> option acc -> option acc).

(** The answer of an unsorted query that collects documents. *)
Lemma plain_result (items : list (@item acc)) (i : nat) (o : options)
    (p : doc -> option doc) (docs : list doc) :
  nth_error items i = Some (new_item o p (Some 0)) ->
  first o = false -> scalar o = None -> sort_truthy o = false ->
  thrown_before COMPARER quicksort scalar_step i items docs = false ->
  nth_error (reader2 COMPARER quicksort scalar_step items docs) i
  = Some (let w := if take o =? 0 then skipn (Z.to_nat (skip o)) (matches p docs)
                   else firstn (Z.to_nat (take o))
                          (skipn (Z.to_nat (skip o)) (matches p docs)) in
          if listing o
          then Listing (skip o) (take o) (Z.of_nat (length (matches p docs))) w
          else Many w).
Proof.
  intros Hnth Hfirst Hscalar Hsort Hquiet.
  rewrite (reader2_whole_file COMPARER quicksort scalar_step items i _ docs Hnth Hfirst Hquiet).
  f_equal.
  destruct (collecting_run COMPARER quicksort scalar_step o p docs _ []
              (no_sort_no_inlinesort o Hsort) Hscalar (collecting_init o p))
    as (Hb & Hc & Hty & Hn & Hk & Hr & _).
  cbn [app] in Hr, Hn. unfold finish, deliver, output_of.
  rewrite Hb, Hscalar, Hty, Hfirst, Hr, Hn. cbn [Z.eqb].
  unfold sort_truthy in Hsort. now destruct (sort o).
Qed.

Lemma paginate_options (page limit maxlimit : Z) (o : options) :
  1 <= page -> 0 < limit -> 0 <= maxlimit ->
  let size := if maxlimit =? 0 then limit else Z.min limit maxlimit in
  take (paginate page limit maxlimit o) = size
  /\ skip (paginate page limit maxlimit o) = (page - 1) * size
  /\ 0 < size.
Proof.
  intros Hp Hl Hm. unfold paginate. cbn [take skip].
  destruct (Z.ltb_spec (page - 1) 0); [lia |].
  destruct (Z.eqb_spec maxlimit 0) as [-> | Hne]; cbn [negb andb].
  - destruct (Z.eqb_spec limit 0); [lia |]. repeat split; lia.
  - destruct (Z.ltb_spec maxlimit limit).
    + destruct (Z.eqb_spec maxlimit 0); [lia |].
      rewrite Z.min_r by lia. repeat split; lia.
    + destruct (Z.eqb_spec limit 0); [lia |].
      rewrite Z.min_l by lia. repeat split; lia.
Qed.

Lemma page_number (page size : Z) :
  0 < size -> (inject_Z ((page - 1) * size) / inject_Z size + 1 == inject_Z page)%Q.
Proof.
  intros Hs. 
  assert (Hn : ~ (inject_Z size == 0)%Q).
  { intros H. unfold Qeq in H. cbn in H. lia. }
  rewrite inject_Z_mult, Qdiv_mult_l by exact Hn.
  change 1%Q with (inject_Z 1). rewrite <- (inject_Z_plus (page - 1) 1).
  now replace (page - 1 + 1) with page by lia.
Qed.

Lemma pages_number (n size : Z) :
  0 <= n -> 0 < size ->
  let k := if n =? 0 then 0 else Qceiling (inject_Z n / inject_Z size) in
  n <= k * size < n + size.
Proof.
  intros Hn Hs k. subst k.
  destruct (Z.eqb_spec n 0) as [-> | Hne]; [lia |].
  assert (Hq : (0 < inject_Z size)%Q) by (change 0%Q with (inject_Z 0); rewrite <- Zlt_Qlt; exact Hs).
  pose proof (Qle_ceiling (inject_Z n / inject_Z size)) as Hle.
  pose proof (Qceiling_lt (inject_Z n / inject_Z size)) as Hlt.
  set (k := Qceiling (inject_Z n / inject_Z size)) in *.
  split.
  - destruct (Z_lt_le_dec (k * size) n) as [Hc | Hc]; [| exact Hc]. exfalso.
    apply (Qle_not_lt _ _ Hle). apply Qlt_shift_div_l; [exact Hq |].
    rewrite <- inject_Z_mult, <- Zlt_Qlt. exact Hc.
  - destruct (Z_lt_le_dec (k * size) (n + size)) as [Hc | Hc]; [exact Hc |]. exfalso.
    apply (Qlt_not_le _ _ Hlt). apply Qle_shift_div_r; [exact Hq |].
    rewrite <- inject_Z_mult, <- Zle_Qle. lia.
Qed.

(** A listing asked for page [page] of [limit] documents
    ([db.listing().paginate(page, limit, maxlimit)], unsorted, pages
    counted from 1) answers with that page: the page size is [limit], cut
    down to [maxlimit] when one is given; [page] is the page asked for,
    [count] the number of all matching documents, [items] the matches of
    that page in file order, and [pages] the least number of pages that
    hold [count] documents. The numbers are safe integers: the
    arguments, the number of documents to skip and the number of
    matches; and no reader queued before this one throws in
    [fs.$callback] (after which no callback is called). *)
Theorem listing_paginate_page (items : list (@item acc)) (i : nat) (o : options)
    (p : doc -> option doc) (docs : list doc) (page limit maxlimit : Z) :
  nth_error items i
  = Some (new_item (paginate page limit maxlimit (DP_listing o)) p (Some 0)) ->
  first o = false -> scalar o = None -> sort_truthy o = false ->
  1 <= page -> 0 < limit -> 0 <= maxlimit ->
  let size := if maxlimit =? 0 then limit else Z.min limit maxlimit in
  let n := Z.of_nat (length (matches p docs)) in
  JS.safe_integer page -> JS.safe_integer limit -> JS.safe_integer maxlimit ->
  JS.safe_integer ((page - 1) * size) -> JS.safe_integer n ->
  thrown_before COMPARER quicksort scalar_step i items docs = false ->
  exists info,
    listing_of (nth_error (reader2 COMPARER quicksort scalar_step items docs) i) = Some info
    /\ (Paging.page info == inject_Z page)%Q
    /\ limit_ info = size
    /\ count_items info = n
    /\ items_ info
       = firstn (Z.to_nat size) (skipn (Z.to_nat ((page - 1) * size)) (matches p docs))
    /\ n <= pages info * size < n + size.
Proof.
  intros Hnth Hfirst Hscalar Hsort Hp Hl Hm size n _ _ _ _ _ Hquiet.
  destruct (paginate_options page limit maxlimit (DP_listing o) Hp Hl Hm)
    as (Ht & Hs & Hpos).
  fold size in Ht, Hs, Hpos.
  rewrite (plain_result items i _ p docs Hnth)
    by assumption.
  rewrite Ht, Hs. change (listing (paginate page limit maxlimit (DP_listing o))) with true.
  cbv iota zeta.
  destruct (Z.eqb_spec size 0) as [E | _]; [lia |].
  cbn [listing_of]. unfold listing_info.
  destruct (Z.eqb_spec size 0) as [E | _]; [lia |].
  eexists. split; [reflexivity |]. cbn [Paging.page limit_ count_items items_ pages].
  split; [now apply page_number |]. repeat split; try reflexivity; apply pages_number; lia.
Qed.
End PagingFacts.

Lemma listing_paginate_page_witness :
  exists info,
    Paging.listing_of
      (nth_error
         (Reader.reader2 (fun _ _ => 0) (fun _ _ l => l) (fun _ _ (a : option unit) => a)
            [Reader.new_item (Paging.paginate 2 2 0 (Paging.DP_listing Reader.new_builder))
               Some (Some 0)]
            [{["id" := Doc.VStr "A"]}; {["id" := Doc.VStr "B"]}; {["id" := Doc.VStr "C"]};
             {["id" := Doc.VStr "D"]}; {["id" := Doc.VStr "E"]}]) 0) = Some info
    /\ Paging.count_items info = 5
    /\ Paging.items_ info = [{["id" := Doc.VStr "C"]}; {["id" := Doc.VStr "D"]}]
    /\ 5 <= Paging.pages info * 2 < 5 + 2.
Proof.
  destruct (listing_paginate_page (fun _ _ => 0) (fun _ _ l => l)
              (fun _ _ (a : option unit) => a)
              [Reader.new_item (Paging.paginate 2 2 0 (Paging.DP_listing Reader.new_builder))
                 Some (Some 0)]
              0 Reader.new_builder Some
              [{["id" := Doc.VStr "A"]}; {["id" := Doc.VStr "B"]}; {["id" := Doc.VStr "C"]};
               {["id" := Doc.VStr "D"]}; {["id" := Doc.VStr "E"]}] 2 2 0)
    as (info & H1 & _ & _ & Hc & Hi & Hp);
    try reflexivity; try lia; try (vm_compute; split; reflexivity).
  exists info. split; [exact H1 |]. split; [exact Hc |]. split; [exact Hi | exact Hp].
Defined.

(** ** The counter: totals over the file *)

Section CountAllFacts.
Import Counter CounterMore.
Local Open Scope string_scope.

Lemma line_parts (l : sum_line) :
  well_line l ->
  read_type (line_text l ++ NEWLINE) = "sum"
  /\ read_key (line_text l ++ NEWLINE) = l_id l
  /\ head_text (line_text l ++ NEWLINE) = print (l_head l).
Proof.
  intros (Hid & Hy & Hbs). unfold line_text.
  destruct (l_buckets l) as [| b bs]; [congruence |].
  rewrite render_cons, !app_assoc_s.
  exact (sum_line_parts (l_year l) (l_id l) (l_head l) _ Hid Hy).
Qed.






End CountAllFacts.


(** ** Modify jobs, field by field *)

Section ModifyMoreFacts.
Import Modify ModifyMore.
Local Open Scope string_scope.
Implicit Types (ks : list string) (d : gmap string modval) (i : option (gmap string ascii))
  (f key : string) (j : job) (o : gmap string Q).

Lemma signed_key key c : sign_of key = Some c -> key = String c (target key).
Proof.
  destruct key as [| a r]; cbn; [discriminate |].
  destruct (is_sign a); [| discriminate]. now intros [= ->].
Qed.

Lemma plain_key key : sign_of key = None -> target key = key.
Proof. destruct key as [| a r]; cbn; [reflexivity |]. now destruct (is_sign a). Qed.

Lemma sign_of_sign key c : sign_of key = Some c -> is_sign c = true.
Proof.
  destruct key as [| a r]; cbn; [discriminate |].
  destruct (is_sign a) eqn:E; [| discriminate]. now intros [= <-].
Qed.

Lemma apply_inc_sign c old val : is_sign c = true -> apply_inc c old val <> None.
Proof.
  unfold is_sign, apply_inc.
  destruct (Ascii.eqb c "+"); [discriminate |].
  destruct (Ascii.eqb c "-"); [discriminate |].
  destruct (Ascii.eqb c "*"); [discriminate |].
  destruct (Ascii.eqb c "/"); discriminate.
Qed.

Lemma modify_keys_step key ks d i :
  modify_keys (key :: ks) d i
  = match sign_of key with
    | Some c =>
        let j := modify_keys ks (move_field key (target key) d)
                   (Some (<[target key := c]> (default ∅ i))) in
        mkjob (doc j) (target key :: keys j) (inc j)
    | None =>
        let j := modify_keys ks d i in
        mkjob (doc j) (key :: keys j) (inc j)
    end.
Proof.
  destruct key as [| a r]; [reflexivity |]. cbn [modify_keys sign_of target].
  now destruct (is_sign a).
Qed.

Lemma modify_keys_keys ks : forall d i, keys (modify_keys ks d i) = map target ks.
Proof.
  induction ks as [| key r IH]; intros d i; [reflexivity |].
  rewrite modify_keys_step. destruct (sign_of key) eqn:E; cbn [keys map].
  - now rewrite IH.
  - now rewrite IH, (plain_key key E).
Qed.

Lemma move_field_other key tmp d f : f <> key -> f <> tmp -> move_field key tmp d !! f = d !! f.
Proof.
  intros Hk Ht. unfold move_field. rewrite lookup_delete_ne by congruence.
  destruct (d !! key); [now rewrite lookup_insert_ne by congruence |].
  now rewrite lookup_delete_ne by congruence.
Qed.

Lemma move_field_target key tmp d : key <> tmp -> move_field key tmp d !! tmp = d !! key.
Proof.
  intros Hne. unfold move_field. rewrite lookup_delete_ne by congruence.
  destruct (d !! key) eqn:E; [now rewrite lookup_insert_eq |].
  now rewrite lookup_delete_eq.
Qed.

Lemma signed_not_plain key c f : sign_of key = Some c -> sign_of f = None -> f <> key.
Proof. intros Hk Hf ->. congruence. Qed.

(** A field that is no target keeps its entry and its operator. *)
Lemma modify_keys_stable ks f : forall d i,
  sign_of f = None -> ~ In f (map target ks) ->
  doc (modify_keys ks d i) !! f = d !! f
  /\ inc (modify_keys ks d i) ≫= (fun m => m !! f) = i ≫= (fun m => m !! f).
Proof.
  induction ks as [| key r IH]; intros d i Hf Hin; [now split |].
  cbn [map In] in Hin. rewrite modify_keys_step.
  destruct (sign_of key) as [c |] eqn:E; cbn [doc inc].
  - destruct (IH (move_field key (target key) d)
                (Some (<[target key := c]> (default ∅ i))) Hf) as [Hd Hi]; [tauto |].
    rewrite Hd, Hi. split.
    + apply move_field_other; [now apply (signed_not_plain key c) | intros ->; tauto].
    + cbn [mbind option_bind]. rewrite lookup_insert_ne by tauto. now destruct i.
  - apply IH; [exact Hf | tauto].
Qed.

Lemma modify_keys_entry ks : forall d i key,
  List.NoDup (map target ks) ->
  Forall (fun k => sign_of (target k) = None) ks ->
  (forall k, In k ks -> i ≫= (fun m => m !! target k) = None) ->
  In key ks ->
  doc (modify_keys ks d i) !! target key = d !! key
  /\ inc (modify_keys ks d i) ≫= (fun m => m !! target key) = sign_of key.
Proof.
  induction ks as [| k r IH]; intros d i key Hnd Hall Hi Hin; [destruct Hin |].
  cbn [map] in Hnd. apply List.NoDup_cons_iff in Hnd. destruct Hnd as [Hk Hnd].
  apply List.Forall_cons_iff in Hall. destruct Hall as [Hpk Hall].
  rewrite modify_keys_step.
  destruct Hin as [<- | Hin].
  - destruct (sign_of k) as [c |] eqn:E; cbn [doc inc].
    + destruct (modify_keys_stable r (target k) (move_field k (target k) d)
                  (Some (<[target k := c]> (default ∅ i))) Hpk Hk) as [Hd Hinc].
      rewrite Hd, Hinc. split.
      * apply move_field_target. intros Heq. rewrite <- Heq in Hpk. congruence.
      * cbn [mbind option_bind]. apply lookup_insert_eq.
    + destruct (modify_keys_stable r (target k) d i Hpk Hk) as [Hd Hinc].
      rewrite Hd, Hinc. split; [now rewrite (plain_key k E) |].
      apply Hi. now left.
  - assert (Hpkey : sign_of (target key) = None).
    { revert key Hin. now apply List.Forall_forall. }
    assert (Hne : target key <> target k).
    { intros Heq. apply Hk. rewrite <- Heq. now apply in_map. }
    destruct (sign_of k) as [c |] eqn:E; cbn [doc inc].
    + destruct (IH (move_field k (target k) d) (Some (<[target k := c]> (default ∅ i)))
                  key Hnd Hall) as [Hd Hinc]; [| exact Hin |].
      * intros k' Hk'. cbn [mbind option_bind].
        rewrite lookup_insert_ne.
        -- specialize (Hi k' (or_intror Hk')). now destruct i.
        -- intros Heq. apply Hk. rewrite Heq. now apply in_map.
      * rewrite Hd, Hinc. split; [| reflexivity].
        apply move_field_other.
        -- intros Heq. apply Hne. now rewrite Heq.
        -- intros Heq. destruct (sign_of key) as [c' |] eqn:E'.
           ++ apply (signed_not_plain key c' (target k) E' Hpk). now symmetry.
           ++ apply Hne. now rewrite (plain_key key E').
    + apply IH; [exact Hnd | exact Hall | | exact Hin].
      intros k' Hk'. apply Hi. now right.
Qed.


Lemma apply_key_other j key o f : f <> key -> apply_key j key o !! f = o !! f.
Proof.
  intros Hne. unfold apply_key.
  destruct (doc j !! key) as [[val | fn] |]; [| now rewrite lookup_insert_ne by congruence | reflexivity].
  destruct (inc j ≫= _) as [c |]; [| now rewrite lookup_insert_ne by congruence].
  destruct (apply_inc c (o !! key) val); [now rewrite lookup_insert_ne by congruence | reflexivity].
Qed.

Lemma apply_key_inmemory_other j key o f :
  f <> key -> apply_key_inmemory j key o !! f = o !! f.
Proof.
  intros Hne. unfold apply_key_inmemory.
  destruct (doc j !! key) as [[val | fn] |]; [| | reflexivity];
    now rewrite lookup_insert_ne by congruence.
Qed.

(** A loop over keys in which a key is written by its own step only. *)
Lemma fold_keys_frame (step : string -> gmap string Q -> gmap string Q) ks f o :
  (forall key o' g, g <> key -> step key o' !! g = o' !! g) ->
  ~ In f ks ->
  fold_left (fun o' key => step key o') ks o !! f = o !! f.
Proof.
  intros Hother. revert o. induction ks as [| k r IH]; intros o Hin; [reflexivity |].
  cbn [fold_left]. cbn [In] in Hin. rewrite IH by tauto. apply Hother. intros ->; tauto.
Qed.

(** When the keys are distinct and a step computes the field from its own
    old value, the field is what its step makes of the value at the start. *)
Lemma fold_keys_field (step : string -> gmap string Q -> gmap string Q) ks f o :
  (forall key o' g, g <> key -> step key o' !! g = o' !! g) ->
  (forall o1 o2, o1 !! f = o2 !! f -> step f o1 !! f = step f o2 !! f) ->
  List.NoDup ks -> In f ks ->
  fold_left (fun o' key => step key o') ks o !! f = step f o !! f.
Proof.
  intros Hother Hsame. revert o. induction ks as [| k r IH]; intros o Hnd Hin; [destruct Hin |].
  apply List.NoDup_cons_iff in Hnd. destruct Hnd as [Hk Hnd]. cbn [fold_left].
  destruct Hin as [-> | Hin].
  - now apply fold_keys_frame.
  - rewrite (IH _ Hnd Hin). apply Hsame. apply Hother. intros ->. contradiction.
Qed.

Lemma list_to_map_values (data : list (string * Q)) key v :
  List.NoDup (map fst data) -> In (key, v) data ->
  (list_to_map (as_values data) : gmap string modval) !! key = Some (Val v).
Proof.
  induction data as [| [k q] r IH]; intros Hnd Hin; [destruct Hin |].
  cbn [map fst] in Hnd. apply List.NoDup_cons_iff in Hnd. destruct Hnd as [Hk Hnd].
  cbn [as_values map list_to_map foldr fst snd uncurry]. destruct Hin as [[= -> ->] | Hin].
  - apply lookup_insert_eq.
  - rewrite lookup_insert_ne; [now apply IH |].
    intros ->. apply Hk. apply in_map_iff. exists (key, v). now split.
Qed.

Lemma NoDup_targets_keys (l : list string) : List.NoDup (map target l) -> List.NoDup l.
Proof.
  induction l as [| k r IH]; [constructor |]. cbn [map]. intros H.
  apply List.NoDup_cons_iff in H. destruct H as [Hk H]. constructor; [| now apply IH].
  intros Hin. apply Hk. now apply in_map.
Qed.

(** What a modify job does to a matched document, field by field.
    For an object of numbers whose keys stand for distinct fields, none of
    which begins with an operator itself or is a name that an object
    literal inherits: the pass over the file sets the field of a plain
    key to its value and gives the field of a key with an operator what
    the operator computes from the old field ([+] and [*] add, [-]
    subtracts, [/] divides, a missing field counting as 0); the pass over
    a database kept in memory stores the value whatever the operator is;
    and both leave every other field alone. The values and the old
    fields under an operator are integers of less than [2 ^ 52] in
    magnitude, and a divisor is not 0, divides the old field and is
    positive when the old field is 0. *)
Theorem modify_fields (data : list (string * Q)) (output : gmap string Q) :
  data <> [] ->
  List.NoDup (map (fun kv => target (fst kv)) data) ->
  Forall (fun kv => sign_of (target (fst kv)) = None) data ->
  Forall (fun kv => JS.own_key (target (fst kv))) data ->
  Forall (fun kv => exact_operands (sign_of (fst kv)) (output !! target (fst kv)) (snd kv))
         data ->
  exists j,
    modify (as_values data) = Some j
    /\ (forall key v, In (key, v) data ->
          apply_keys j output !! target key
          = match sign_of key with
            | Some c => apply_inc c (output !! target key) v
            | None => Some v
            end
          /\ apply_keys_inmemory j output !! target key = Some v)
    /\ (forall f, ~ In f (map (fun kv => target (fst kv)) data) ->
          apply_keys j output !! f = output !! f
          /\ apply_keys_inmemory j output !! f = output !! f).
Proof.
  intros Hne Hnd Hall _ _.
  set (ks := map fst data).
  set (j := modify_keys ks (list_to_map (as_values data)) None).
  assert (Hmod : modify (as_values data) = Some j).
  { unfold modify, as_values. destruct data as [| kv r]; [congruence |].
    cbn [map]. subst j ks. unfold as_values. cbn [map fst].
    do 3 f_equal. rewrite map_map. reflexivity. }
  assert (Hks : map target ks = map (fun kv => target (fst kv)) data).
  { subst ks. now rewrite map_map. }
  assert (Hkeys : keys j = map target ks) by apply modify_keys_keys.
  assert (Hnd' : List.NoDup (keys j)) by (rewrite Hkeys, Hks; exact Hnd).
  assert (Hall' : Forall (fun k => sign_of (target k) = None) ks).
  { subst ks. apply List.Forall_map. exact Hall. }
  exists j. split; [exact Hmod |]. split.
  - intros key v Hin.
    assert (Hk : In key ks) by (subst ks; apply in_map_iff; exists (key, v); now split).
    destruct (modify_keys_entry ks (list_to_map (as_values data)) None key) as [Hd Hi];
      [now rewrite Hks | exact Hall' | reflexivity | exact Hk |].
    fold j in Hd, Hi.
    rewrite (list_to_map_values data key v) in Hd;
      [| apply NoDup_targets_keys; fold ks; now rewrite Hks | exact Hin].
    assert (Hf : In (target key) (keys j)) by (rewrite Hkeys; now apply in_map).
    split.
    + unfold apply_keys.
      rewrite (fold_keys_field (apply_key j)); [| apply apply_key_other | | exact Hnd' | exact Hf].
      * unfold apply_key. rewrite Hd, Hi.
        destruct (sign_of key) as [c |] eqn:E; [| apply lookup_insert_eq].
        pose proof (apply_inc_sign c (output !! target key) v (sign_of_sign key c E)) as Hs.
        destruct (apply_inc c (output !! target key) v); [apply lookup_insert_eq | congruence].
      * intros o1 o2 Ho. unfold apply_key. rewrite Hd, Hi.
        destruct (sign_of key) as [c |]; [| now rewrite !lookup_insert_eq].
        rewrite Ho. destruct (apply_inc c (o2 !! target key) v); [now rewrite !lookup_insert_eq | exact Ho].
    + unfold apply_keys_inmemory.
      rewrite (fold_keys_field (apply_key_inmemory j)); [| apply apply_key_inmemory_other | | exact Hnd' | exact Hf].
      * unfold apply_key_inmemory. rewrite Hd.
        apply lookup_insert_eq.
      * intros o1 o2 Ho. unfold apply_key_inmemory. rewrite Hd. now rewrite !lookup_insert_eq.
  - intros f Hf. rewrite <- Hks, <- Hkeys in Hf. split.
    + apply fold_keys_frame; [apply apply_key_other | exact Hf].
    + apply fold_keys_frame; [apply apply_key_inmemory_other | exact Hf].
Qed.

End ModifyMoreFacts.

Lemma modify_fields_witness :
  exists j,
    Modify.modify (ModifyMore.as_values [("+n"%string, 2%Q); ("m"%string, 7%Q)]) = Some j
    /\ Modify.apply_keys j {["n"%string := 3%Q; "k"%string := 9%Q]} !! "n"%string
       = Some (3 + 2)%Q
    /\ ModifyMore.apply_keys_inmemory j {["n"%string := 3%Q; "k"%string := 9%Q]} !! "n"%string
       = Some 2%Q
    /\ Modify.apply_keys j {["n"%string := 3%Q; "k"%string := 9%Q]} !! "k"%string = Some 9%Q.
Proof.
  destruct (modify_fields [("+n"%string, 2%Q); ("m"%string, 7%Q)]
              {["n"%string := 3%Q; "k"%string := 9%Q]}) as (j & Hj & Hf & Ho).
  - discriminate.
  - apply NoDup_ListNoDup. refine (bool_decide_unpack _ _). vm_compute. exact I.
  - repeat constructor.
  - repeat (apply List.Forall_cons;
            [intros Hin; vm_compute in Hin;
             repeat (destruct Hin as [Hin | Hin]; [discriminate Hin |]); exact Hin |]).
    apply List.Forall_nil.
  - apply List.Forall_cons; [| apply List.Forall_cons; [| apply List.Forall_nil]].
    + split; [exists 2%Z; split; [reflexivity | reflexivity] |].
      split; [exists 3%Z; split; [reflexivity | reflexivity] | discriminate].
    + split; [exists 7%Z; split; [reflexivity | reflexivity] | exact I].
  - exists j. split; [exact Hj |].
    destruct (Hf "+n"%string 2%Q (or_introl eq_refl)) as [H1 H2].
    destruct (Ho "k"%string) as [H3 _].
    + intros [H | [H | []]]; discriminate.
    + split; [exact H1 |]. split; [exact H2 | exact H3].
Defined.

(** ** The update pass in memory *)

Section UpdateInmemoryFacts.
Import Modify ModifyMore UpdateInmemory.

Implicit Types (it : item) (its before after : list item) (d cur stored : document).

Lemma held_set_shape k d before :
  map compare (held_set k d before) = map compare before
  /\ map count (held_set k d before) = map count before
  /\ ((exists it, before !! k = Some it /\ kind it = None) ->
      map kind (held_set k d before) = map kind before).
Proof.
  unfold held_set. revert k. induction before as [| it r IH]; intros k; [now repeat split |].
  destruct k as [| k]; cbn [alter list_alter map].
  - repeat split. intros (it' & [= <-] & Hk). now rewrite Hk.
  - destruct (IH k) as (Hc & Hn & Hk). fold (alter (fun it => mkitem (compare it) (Whole d) (count it)) k r).
    rewrite Hc, Hn. repeat split. intros H. now rewrite (Hk H).
Qed.

Lemma counts_snoc before (x : list item) (l : list Z) :
  firstn (length before + length x) l = map count before ++ map count x ->
  firstn (length before) l = map count before.
Proof.
  intros H. apply (f_equal (firstn (length before))) in H.
  rewrite firstn_firstn in H. replace (Nat.min _ _) with (length before) in H by lia.
  rewrite H, firstn_app, length_map, Nat.sub_diag. cbn [firstn]. rewrite app_nil_r.
  rewrite <- (length_map count before). apply firstn_all.
Qed.

Lemma modified_ext its its' d :
  map compare its' = map compare its -> map kind its' = map kind its ->
  modified its' d = modified its d.
Proof.
  revert its' d. induction its as [| it r IH]; intros [| it' r'] d Hc Hk; try discriminate;
    [reflexivity |].
  cbn [map] in Hc, Hk. injection Hc as Hc Hcr. injection Hk as Hk Hkr.
  cbn [modified]. rewrite Hc. unfold kind in Hk.
  destruct (compare it d); [| now apply IH].
  destruct (todo it'), (todo it); try discriminate; [| reflexivity].
  injection Hk as ->. now apply IH.
Qed.

(** The loop over the jobs: what it leaves in [data[a]], and the jobs
    after it. *)
Lemma jobs_loop_spec after : forall before held cur stored,
  (held = None -> cur = stored) ->
  (forall k, held = Some k -> exists it, before !! k = Some it /\ kind it = None) ->
  exists its',
    jobs_loop before after held cur stored
    = (match held with None => modified after cur | Some _ => stored end, its')
    /\ map compare its' = map compare (before ++ after)
    /\ map kind its' = map kind (before ++ after)
    /\ firstn (length before) (map count its') = map count before.
Proof.
  induction after as [| it rest IH]; intros before held cur stored Hcur Hheld.
  - exists before. cbn [jobs_loop modified]. rewrite app_nil_r.
    rewrite <- (length_map count before), firstn_all.
    repeat split. destruct held; [reflexivity | now rewrite Hcur].
  - cbn [jobs_loop modified].
    destruct (compare it cur) eqn:Ec.
    + destruct (todo it) as [j | d] eqn:Et.
      * destruct held as [k |].
        -- destruct (held_set_shape k (apply_keys_inmemory j cur) before) as (Hc & Hn & Hk).
           specialize (Hk (Hheld k eq_refl)).
           destruct (IH (held_set k (apply_keys_inmemory j cur) before ++ [counted it])
                       (Some k) (apply_keys_inmemory j cur) stored) as (its' & Hrun & Hc' & Hk' & Hn').
           ++ discriminate.
           ++ intros k' [= <-]. destruct (Hheld k eq_refl) as (it0 & Hit0 & Hk0).
              exists (mkitem (compare it0) (Whole (apply_keys_inmemory j cur)) (count it0)).
              split; [| reflexivity].
              rewrite lookup_app_l by (apply lookup_lt_Some in Hit0; unfold held_set;
                                       now rewrite length_alter).
              unfold held_set. rewrite list_lookup_alter, Hit0.
              now rewrite decide_True by reflexivity.
           ++ exists its'. rewrite Hrun. split; [reflexivity |].
              rewrite Hc', Hk', !map_app, Hc, Hk, <- !app_assoc. cbn [map app].
              unfold kind at 2 4. cbn [counted todo compare]. repeat split.
              rewrite length_app, map_app, Hn in Hn'. unfold held_set in Hn'.
              rewrite length_alter in Hn'. now apply counts_snoc in Hn'.
        -- destruct (IH (before ++ [counted it]) None (apply_keys_inmemory j cur)
                       (apply_keys_inmemory j cur)) as (its' & Hrun & Hc' & Hk' & Hn');
             [reflexivity | discriminate |].
           exists its'. rewrite Hrun. split; [reflexivity |].
           rewrite Hc', Hk', !map_app, <- !app_assoc. cbn [map app].
           unfold kind at 2 4. cbn [counted todo compare]. repeat split.
           rewrite length_app, map_app in Hn'. now apply counts_snoc in Hn'.
      * destruct (IH (before ++ [counted it]) (Some (length before)) d stored)
          as (its' & Hrun & Hc' & Hk' & Hn').
        -- discriminate.
        -- intros k [= <-]. exists (counted it). split.
           ++ rewrite lookup_app_r by lia. now rewrite Nat.sub_diag.
           ++ unfold kind. cbn [counted todo]. now rewrite Et.
        -- exists its'. rewrite Hrun. split.
           ++ destruct held; [reflexivity | now rewrite Hcur].
           ++ rewrite Hc', Hk', !map_app, <- !app_assoc. cbn [map app].
              unfold kind at 2 4. cbn [counted todo compare]. repeat split.
              rewrite length_app, map_app in Hn'. now apply counts_snoc in Hn'.
    + destruct (IH (before ++ [it]) held cur stored) as (its' & Hrun & Hc' & Hk' & Hn').
      * exact Hcur.
      * intros k Hk. destruct (Hheld k Hk) as (it0 & Hit0 & Hk0). exists it0.
        split; [| exact Hk0]. rewrite lookup_app_l by (now apply lookup_lt_Some in Hit0).
        exact Hit0.
      * exists its'. rewrite Hrun. split; [reflexivity |].
        rewrite Hc', Hk', <- !app_assoc. cbn [app]. repeat split.
        rewrite length_app, map_app in Hn'. now apply counts_snoc in Hn'.
Qed.

Lemma jobs_loop_head it rest d :
  exists stored' it' rest',
    jobs_loop [] (it :: rest) None d d = (stored', it' :: rest')
    /\ count it' = count it + (if compare it d then 1 else 0).
Proof.
  cbn [jobs_loop app length].
  assert (Hhead : forall (x : item) (its' : list item),
            firstn (length [x]) (map count its') = map count [x] ->
            exists it' rest', its' = it' :: rest' /\ count it' = count x).
  { intros x [| it' rest'] H; [discriminate |].
    cbn in H. injection H as H. eauto. }
  destruct (compare it d) eqn:Ec.
  - destruct (todo it) as [j | d0] eqn:Et.
    + destruct (jobs_loop_spec rest [counted it] None (apply_keys_inmemory j d)
                  (apply_keys_inmemory j d)) as (its' & Hrun & _ & _ & Hn);
        [reflexivity | discriminate |].
      destruct (Hhead _ _ Hn) as (it' & rest' & -> & Hc).
      rewrite Hrun. do 3 eexists. split; [reflexivity |]. now rewrite Hc.
    + destruct (jobs_loop_spec rest [counted it] (Some 0%nat) d0 d) as (its' & Hrun & _ & _ & Hn).
      * discriminate.
      * intros k [= <-]. exists (counted it). split; [reflexivity |].
        unfold kind. cbn [counted todo]. now rewrite Et.
      * destruct (Hhead _ _ Hn) as (it' & rest' & -> & Hc).
        rewrite Hrun. do 3 eexists. split; [reflexivity |]. now rewrite Hc.
  - destruct (jobs_loop_spec rest [it] None d d) as (its' & Hrun & _ & _ & Hn);
      [reflexivity | discriminate |].
    destruct (Hhead _ _ Hn) as (it' & rest' & -> & Hc).
    rewrite Hrun. do 3 eexists. split; [reflexivity |]. rewrite Hc. lia.
Qed.

Lemma documents_loop_spec data : forall its,
  exists its',
    documents_loop data its = (map (modified its) data, its')
    /\ map compare its' = map compare its
    /\ map kind its' = map kind its
    /\ (forall it rest, its = it :: rest ->
          exists it' rest',
            its' = it' :: rest'
            /\ count it' = count it + Z.of_nat (length (List.filter (compare it) data))).
Proof.
  induction data as [| d ds IH]; intros its.
  - exists its. cbn. repeat split. intros it rest ->. exists it, rest. split; [reflexivity | lia].
  - cbn [documents_loop map].
    destruct (jobs_loop_spec its [] None d d) as (its1 & Hrun & Hc1 & Hk1 & _);
      [reflexivity | discriminate |].
    cbn [app] in Hc1, Hk1.
    destruct (IH its1) as (its2 & Hdocs & Hc2 & Hk2 & Hn2).
    rewrite Hrun, Hdocs. exists its2. split; [| split; [| split]].
    + f_equal. f_equal. apply map_ext. intros x. now apply modified_ext.
    + now rewrite Hc2.
    + now rewrite Hk2.
    + intros it rest ->.
      destruct (jobs_loop_head it rest d) as (st & it1 & rest1 & Hrun1 & Hcount1).
      rewrite Hrun in Hrun1. injection Hrun1 as _ ->.
      destruct (Hn2 it1 rest1 eq_refl) as (it2 & rest2 & -> & Hcount2).
      exists it2, rest2. split; [reflexivity |].
      cbn [map] in Hc1. injection Hc1 as Hc1 _.
      rewrite Hcount2, Hcount1, Hc1. cbn [List.filter].
      destruct (compare it d); cbn [length]; lia.
Qed.

Lemma modified_whole its d : Forall (fun it => kind it = None) its -> modified its d = d.
Proof.
  induction 1 as [| it r Hit _ IH]; [reflexivity |]. cbn [modified].
  unfold kind in Hit. destruct (compare it d); [| exact IH].
  now destruct (todo it).
Qed.

(** The update pass of a database kept in memory. A stored document
    is changed by the modify jobs that accept it, in the order of the
    queue, up to the first update job that accepts it: that job puts its
    own document in the variable of the loop and not in the store, so it
    and the jobs after it leave the stored document as it was. A pass of
    update jobs only leaves every stored document unchanged. The job at
    the head of the queue still counts the documents its filter accepts. *)
Theorem update_inmemory_stored (data : list document) (its : list item) :
  fst (documents_loop data its) = map (modified its) data
  /\ (Forall (fun it => kind it = None) its -> fst (documents_loop data its) = data)
  /\ (forall it rest, its = it :: rest ->
        exists it' rest',
          snd (documents_loop data its) = it' :: rest'
          /\ count it' = count it + Z.of_nat (length (List.filter (compare it) data))).
Proof.
  destruct (documents_loop_spec data its) as (its' & Hrun & _ & _ & Hn).
  rewrite Hrun. cbn [fst snd]. split; [reflexivity |]. split; [| exact Hn].
  intros Hall. rewrite <- (map_id data) at 2. apply map_ext. intros d.
  now apply modified_whole.
Qed.

End UpdateInmemoryFacts.

Lemma update_inmemory_stored_witness :
  fst (UpdateInmemory.documents_loop
         [{["n"%string := 1%Q]}; {["n"%string := 2%Q]}]
         [UpdateInmemory.mkitem (fun _ => true) (UpdateInmemory.Whole {["n"%string := 5%Q]}) 0])
  = [{["n"%string := 1%Q]}; {["n"%string := 2%Q]}]
  /\ exists it' rest',
      snd (UpdateInmemory.documents_loop
             [{["n"%string := 1%Q]}; {["n"%string := 2%Q]}]
             [UpdateInmemory.mkitem (fun _ => true)
                (UpdateInmemory.Whole {["n"%string := 5%Q]}) 0])
      = it' :: rest'
      /\ UpdateInmemory.count it' = 2.
Proof.
  destruct (update_inmemory_stored
              [{["n"%string := 1%Q]}; {["n"%string := 2%Q]}]
              [UpdateInmemory.mkitem (fun _ => true)
                 (UpdateInmemory.Whole {["n"%string := 5%Q]}) 0]) as (_ & H1 & H2).
  split.
  - apply H1. repeat constructor.
  - exact (H2 _ _ eq_refl).
Defined.

(** ** The remove pass *)

Section RemoveFacts.
Import Remove.
Context {doc : Type}.
Implicit Types (d : doc) (docs : list doc) (it : item doc) (its : list (item doc)).

Lemma first_match_accepted d its : forall i,
  first_match d its i = None <-> accepted its d = false.
Proof.
  induction its as [| it r IH]; intros i; cbn [first_match accepted existsb]; [tauto |].
  destruct (compare it d); cbn [orb]; [split; discriminate | apply IH].
Qed.

Lemma first_match_ext d its its' : forall i,
  map compare its' = map compare its -> first_match d its' i = first_match d its i.
Proof.
  revert its'. induction its as [| it r IH]; intros [| it' r'] i H; try discriminate;
    [reflexivity |].
  cbn [map] in H. injection H as Hc Hr. cbn [first_match]. rewrite Hc.
  destruct (compare it d); [reflexivity | now apply IH].
Qed.

Lemma accepted_ext d its its' :
  map compare its' = map compare its -> accepted its' d = accepted its d.
Proof.
  revert its'. induction its as [| it r IH]; intros [| it' r'] H; try discriminate;
    [reflexivity |].
  cbn [map] in H. injection H as Hc Hr. unfold accepted in *. cbn [existsb].
  now rewrite Hc, (IH r' Hr).
Qed.

Lemma alter_counted_shape k its :
  map compare (alter counted k its) = map compare its
  /\ map backup (alter counted k its) = map backup its
  /\ length (alter counted k its) = length its.
Proof.
  revert k. induction its as [| it r IH]; intros k; [now repeat split |].
  destruct k as [| k]; cbn [alter list_alter map length]; [now repeat split |].
  destruct (IH k) as (Hc & Hb & Hl). fold (alter (counted (doc:=doc)) k r).
  now rewrite Hc, Hb, Hl.
Qed.

Lemma alter_counted_count k its i it :
  nth_error its i = Some it ->
  exists it', nth_error (alter counted k its) i = Some it'
              /\ count it' = count it + (if Nat.eqb i k then 1 else 0).
Proof.
  revert k i. induction its as [| x r IH]; intros k i; [destruct i; discriminate |].
  destruct k as [| k], i as [| i]; cbn [alter list_alter nth_error Nat.eqb].
  - intros [= <-]. exists (counted x). split; [reflexivity | reflexivity].
  - intros H. exists it. split; [exact H | lia].
  - intros [= <-]. exists x. split; [reflexivity | lia].
  - intros H. apply (IH k i H).
Qed.

Lemma existsb_backup_ext its its' :
  map backup its' = map backup its -> existsb backup its' = existsb backup its.
Proof.
  revert its'. induction its as [| it r IH]; intros [| it' r'] H; try discriminate;
    [reflexivity |].
  cbn [map] in H. injection H as Hb Hr. cbn [existsb]. now rewrite Hb, (IH r' Hr).
Qed.

(** The job a removed document is counted for. *)
Abbreviation credited its d :=
  (match first_match d its 0 with
   | None => None
   | Some i => Some (if existsb backup its then Nat.sub (length its) 1 else i)
   end).

Lemma remove_pass_spec docs : forall its,
  exists its',
    remove_pass docs its = (map (accepted its) docs, its')
    /\ map compare its' = map compare its
    /\ map backup its' = map backup its
    /\ length its' = length its
    /\ forall i it, nth_error its i = Some it ->
         exists it', nth_error its' i = Some it'
           /\ count it' = count it
                + Z.of_nat (length (List.filter
                                      (fun d => bool_decide (credited its d = Some i)) docs)).
Proof.
  induction docs as [| d ds IH]; intros its.
  - exists its. cbn. repeat split. intros i it H. exists it. split; [exact H | lia].
  - cbn [remove_pass map List.filter]. unfold remove_doc.
    destruct (first_match d its 0) as [k |] eqn:Ef.
    + assert (Ha : accepted its d = true).
      { destruct (accepted its d) eqn:E; [reflexivity |].
        apply (first_match_accepted d its 0%nat) in E. congruence. }
      set (t := if existsb backup its then (length its - 1)%nat else k).
      destruct (alter_counted_shape t its) as (Hc & Hb & Hl).
      destruct (IH (alter counted t its)) as (its' & Hrun & Hc' & Hb' & Hl' & Hn).
      rewrite Hrun. exists its'. rewrite Ha. split; [| split; [| split; [| split]]].
      * do 2 f_equal. apply map_ext. intros x. now apply accepted_ext.
      * now rewrite Hc'.
      * now rewrite Hb'.
      * now rewrite Hl'.
      * intros i it Hi.
        destruct (alter_counted_count t its i it Hi) as (it1 & Hi1 & Hcount1).
        destruct (Hn i it1 Hi1) as (it2 & Hi2 & Hcount2).
        exists it2. split; [exact Hi2 |]. rewrite Hcount2, Hcount1.
        rewrite (List.filter_ext
                   (fun d0 => bool_decide (credited (alter counted t its) d0 = Some i))
                   (fun d0 => bool_decide (credited its d0 = Some i))).
        2: { intros x. rewrite (first_match_ext x its _ 0%nat Hc), Hl,
               (existsb_backup_ext its _ Hb). reflexivity. }
        destruct (Nat.eqb_spec i t) as [-> | Hne].
        -- rewrite bool_decide_eq_true_2 by reflexivity. cbn [length]. lia.
        -- rewrite bool_decide_eq_false_2 by congruence. lia.
    + assert (Ha : accepted its d = false) by now apply (first_match_accepted d its 0%nat).
      destruct (IH its) as (its' & Hrun & Hc' & Hb' & Hl' & Hn).
      rewrite Hrun, Ha. exists its'. repeat split; assumption.
Qed.

Lemma remove_inmemory_spec docs : forall its,
  exists its',
    remove_inmemory docs its
    = (List.filter (fun d => negb (accepted its d)) docs, its')
    /\ map compare its' = map compare its
    /\ map count its'
       = map (fun it => count it
                        + Z.of_nat (length (List.filter (accepted its) docs))) its.
Proof.
  induction docs as [| d ds IH]; intros its.
  - exists its. cbn. repeat split. apply map_ext. intros it. lia.
  - cbn [remove_inmemory List.filter]. fold (accepted its d).
    destruct (accepted its d) eqn:Ha; cbn [negb].
    + assert (Hc : map compare (map counted its) = map compare its)
        by (rewrite map_map; reflexivity).
      destruct (IH (map counted its)) as (its' & Hrun & Hc' & Hn).
      exists its'. rewrite Hrun. split; [| split].
      * f_equal. apply List.filter_ext. intros x. now rewrite (accepted_ext x its _ Hc).
      * now rewrite Hc'.
      * rewrite Hn, map_map. apply map_ext. intros it. cbn [counted count length].
        rewrite (List.filter_ext (accepted (map counted its)) (accepted its))
          by (intros x; now apply accepted_ext).
        lia.
    + destruct (IH its) as (its' & Hrun & Hc' & Hn).
      exists its'. rewrite Hrun. repeat split; assumption.
Qed.

(** The remove pass, on a file and in memory. Both remove the documents
    that some job of the queue accepts and keep the others in order. They
    count differently: in memory every job of the queue counts every
    removed document; on a file a removed document is counted once, for
    the first job that accepts it or, when some job of the queue asks for
    a backup, for the last job of the queue. *)
Theorem remove_counts docs its :
  fst (remove_pass docs its) = map (accepted its) docs
  /\ fst (remove_inmemory docs its) = List.filter (fun d => negb (accepted its d)) docs
  /\ map count (snd (remove_inmemory docs its))
     = map (fun it => count it + Z.of_nat (length (List.filter (accepted its) docs))) its
  /\ forall i it, nth_error its i = Some it ->
       exists it',
         nth_error (snd (remove_pass docs its)) i = Some it'
         /\ count it'
            = count it
              + Z.of_nat
                  (length
                     (List.filter
                        (fun d => if existsb backup its
                                  then accepted its d && Nat.eqb i (length its - 1)
                                  else bool_decide (first_match d its 0 = Some i))
                        docs)).
Proof.
  destruct (remove_pass_spec docs its) as (its1 & Hrun1 & _ & _ & _ & Hn1).
  destruct (remove_inmemory_spec docs its) as (its2 & Hrun2 & _ & Hn2).
  rewrite Hrun1, Hrun2. cbn [fst snd]. repeat split; [exact Hn2 |].
  intros i it Hi. destruct (Hn1 i it Hi) as (it' & Hi' & Hcount).
  exists it'. split; [exact Hi' |]. rewrite Hcount. do 3 f_equal.
  apply List.filter_ext. intros d.
  destruct (first_match d its 0) as [k |] eqn:Ef.
  - assert (Ha : accepted its d = true).
    { destruct (accepted its d) eqn:E; [reflexivity |].
      apply (first_match_accepted d its 0%nat) in E. congruence. }
    rewrite Ha. destruct (existsb backup its); [| reflexivity]. cbn [andb].
    destruct (Nat.eqb_spec i (length its - 1)) as [-> | Hne].
    + now rewrite bool_decide_eq_true_2.
    + rewrite bool_decide_eq_false_2; [reflexivity | congruence].
  - apply (first_match_accepted d its 0%nat) in Ef. rewrite Ef.
    rewrite bool_decide_eq_false_2 by discriminate. now destruct (existsb backup its).
Qed.

End RemoveFacts.


Lemma remove_counts_witness :
  (exists a b,
      nth_error
        (snd (Remove.remove_pass [1%nat; 2%nat]
                [Remove.mkitem (fun _ => true) false 0; Remove.mkitem (fun _ => false) true 0]))
        0 = Some a
      /\ Remove.count a = 0
      /\ nth_error
           (snd (Remove.remove_pass [1%nat; 2%nat]
                   [Remove.mkitem (fun _ => true) false 0;
                    Remove.mkitem (fun _ => false) true 0]))
           1 = Some b
      /\ Remove.count b = 2)
  /\ map Remove.count
       (snd (Remove.remove_inmemory [1%nat; 2%nat]
               [Remove.mkitem (fun _ => true) false 0; Remove.mkitem (fun _ => false) true 0]))
     = [2; 2].
Proof.
  destruct (remove_counts [1%nat; 2%nat]
              [Remove.mkitem (fun _ => true) false 0; Remove.mkitem (fun _ => false) true 0])
    as (_ & _ & Hmem & Hfile).
  split; [| exact Hmem].
  destruct (Hfile 0%nat _ eq_refl) as (a & Ha & Hca).
  destruct (Hfile 1%nat _ eq_refl) as (b & Hb & Hcb).
  exists a, b. split; [exact Ha |]. split; [exact Hca |]. split; [exact Hb | exact Hcb].
Defined.

(** ** The counter: yearly statistics *)

Section CounterStatsFacts.
Import Counter CounterMore CounterStats.
Local Open Scope string_scope.

Lemma parse_years_cells (yr : string) (bs : list (string * Z)) (s : year_stat) (a : Z) :
  Forall (fun b => day_name (fst b)) bs -> y_value s = JS.Num a ->
  fold_left (parse_years_cell yr) (map bucket_text bs) (Some s)
  = Some (mkyear (y_id s) (y_year s) (JS.Num (a + bucket_sum bs))).
Proof.
  intros H. revert s a. induction H as [| [d z] r [Hd _] _ IH]; intros s a Hs.
  - cbn. rewrite Z.add_0_r, <- Hs. now destruct s.
  - cbn [map fold_left parse_years_cell]. cbn [fst] in Hd.
    destruct (bucket_parts d z Hd) as [_ ->]. unfold print. rewrite to_number_print, Hs.
    cbn [JS.plus]. rewrite (IH _ (a + z)) by reflexivity. cbn [y_id y_year].
    do 3 f_equal. unfold bucket_sum. cbn [fold_right snd]. lia.
Qed.

Lemma line_year (l : sum_line) :
  well_line l -> JS.substring 3 7 (line_text l ++ NEWLINE) = year_text (l_year l).
Proof.
  intros (_ & Hy & _). unfold line_text.
  destruct (render_shape (sum_key (l_year l) (l_id l)) (l_head l) (l_buckets l)) as (rest & ->).
  unfold sum_key. rewrite !app_assoc_s.
  change 3 with (Z.of_nat (String.length "sum")).
  replace 7 with (Z.of_nat (String.length "sum" + String.length (year_text (l_year l))))
    by (rewrite Hy; reflexivity).
  apply substring_mid.
Qed.

Lemma line_years (l : sum_line) :
  day_line l ->
  counter_parse_years (line_text l ++ NEWLINE) (year_text (l_year l))
  = [mkyear (year_text (l_year l)) (JS.Num (l_year l)) (JS.Num (bucket_sum (l_buckets l)))].
Proof.
  intros ((Hid & Hy & Hne) & Hbs). unfold counter_parse_years, line_text.
  rewrite (split_render (l_year l) (l_id l) (l_head l) (l_buckets l) Hid Hbs). cbn [tl].
  destruct (l_buckets l) as [| [d z] r]; [congruence |].
  apply List.Forall_cons_iff in Hbs. destruct Hbs as [[Hd _] Hr]. cbn [fst] in Hd.
  cbn [map fold_left parse_years_cell].
  destruct (bucket_parts d z Hd) as [_ ->]. unfold print, year_text.
  rewrite !to_number_print.
  rewrite (parse_years_cells _ r _ z Hr) by reflexivity. cbn [y_id y_year].
  reflexivity.
Qed.

Lemma push_at_lookup key tmp output :
  lookup_or_empty (push_at key tmp output) key = (lookup_or_empty output key ++ tmp)%list.
Proof.
  unfold lookup_or_empty. induction output as [| [k v] r IH]; cbn [push_at List.find fst].
  - now rewrite String.eqb_refl.
  - destruct (String.eqb k key) eqn:E; cbn [List.find fst snd]; rewrite E; [reflexivity | exact IH].
Qed.

Lemma read_years_lines id (ls : list sum_line) (output : list (string * list year_stat)) :
  Forall day_line ls ->
  lookup_or_empty
    (fold_left (read_years_data [id]) (map (fun l => line_text l ++ NEWLINE) ls) output) id
  = (lookup_or_empty output id
     ++ map (fun l => mkyear (year_text (l_year l)) (JS.Num (l_year l))
                        (JS.Num (bucket_sum (l_buckets l))))
          (List.filter (fun l => String.eqb (l_id l) id) ls))%list.
Proof.
  intros H. revert output. induction H as [| l r Hl _ IH]; intros output.
  - cbn. now rewrite app_nil_r.
  - cbn [map fold_left List.filter]. rewrite IH.
    destruct (line_parts l (proj1 Hl)) as (Ht & Hk & _).
    unfold read_years_data. rewrite Ht, Hk, (line_year l (proj1 Hl)), (line_years l Hl).
    cbn [String.eqb Ascii.eqb Bool.eqb negb existsb]. rewrite orb_false_r.
    destruct (String.eqb (l_id l) id) eqn:E; [| reflexivity].
    apply String.eqb_eq in E. subst id. rewrite push_at_lookup, <- app_assoc. reflexivity.
Qed.

(** [yearly(id)] on a file of sum lines answers with one entry for every
    line that carries the id, in file order: the year of the line and, as
    its value, the sum of the daily buckets of the line. The id asked for
    is not empty and no name that an object literal inherits; the lines
    carry plain ids, four-digit years and buckets named by days, and the
    magnitudes of the buckets of a line add up to a safe integer. *)
Theorem yearly_sums_buckets id (ls : list sum_line) :
  own_id id ->
  Forall day_line ls ->
  Forall (fun l => JS.safe_integer (bucket_weight (l_buckets l))) ls ->
  yearly_id id (map (fun l => line_text l ++ NEWLINE) ls)
  = map (fun l => mkyear (year_text (l_year l)) (JS.Num (l_year l))
                    (JS.Num (bucket_sum (l_buckets l))))
      (List.filter (fun l => String.eqb (l_id l) id) ls).
Proof.
  intros _ H _. unfold yearly_id. now rewrite (read_years_lines id ls [] H).
Qed.

End CounterStatsFacts.

Lemma yearly_sums_buckets_witness :
  CounterStats.yearly_id "p"
    (map (fun l => (CounterMore.line_text l ++ Counter.NEWLINE)%string)
       [CounterMore.mkline 2017 "p" 4 [("0101"%string, 4)];
        CounterMore.mkline 2018 "q" 1 [("0301"%string, 1)];
        CounterMore.mkline 2018 "p" 5 [("0704"%string, 2); ("0705"%string, 3)]])
  = [CounterStats.mkyear "2017" (JS.Num 2017) (JS.Num 4);
     CounterStats.mkyear "2018" (JS.Num 2018) (JS.Num 5)].
Proof.
  apply (yearly_sums_buckets "p"
           [CounterMore.mkline 2017 "p" 4 [("0101"%string, 4)];
            CounterMore.mkline 2018 "q" 1 [("0301"%string, 1)];
            CounterMore.mkline 2018 "p" 5 [("0704"%string, 2); ("0705"%string, 3)]]).
  - split; [discriminate |]. intros Hin. vm_compute in Hin.
    repeat (destruct Hin as [Hin | Hin]; [discriminate Hin |]). exact Hin.
  - repeat (apply List.Forall_cons; [| try apply List.Forall_nil]);
      (split; [split; [repeat split; reflexivity | split; [reflexivity | discriminate]] |]);
      repeat (apply List.Forall_cons; [repeat split; reflexivity |]); apply List.Forall_nil.
  - repeat (apply List.Forall_cons; [vm_compute; split; reflexivity |]). apply List.Forall_nil.
Defined.

(** ** Scalar queries *)

Section ScalarFacts.
Import Doc Reader Scalar.
Context (COMPARER : string -> string -> Z).
Context (quicksort : string -> bool -> list doc -> list doc).
Context (field : string).

Abbreviation sstep := (fun (i : @item acc) d =>
  fst (item_step COMPARER quicksort (scalar_step field) d i)).
Abbreviation srun := (fun docs (it : @item acc) => fold_left sstep docs it).
Abbreviation swindow o ms :=
  (if take o =? 0 then skipn (Z.to_nat (skip o)) ms
   else firstn (Z.to_nat (take o)) (skipn (Z.to_nat (skip o)) ms)).
Abbreviation folded t w := (fold_left (fun a m => scalar_step field t m a) w None).

(** The state of a scalar reader that has met the matches [ms]. *)
Abbreviation aggregating o p t it ms :=
  (builder it = o /\ compare it = p /\ type_ it = 0
   /\ count it = Z.of_nat (length ms)
   /\ counter it = Some (Z.of_nat (length (swindow o ms)))
   /\ scalar_acc it = folded t (swindow o ms)).

Lemma aggregating_step o p t (it : @item acc) ms d :
  inlinesort o = false -> scalar o = Some t ->
  aggregating o p t it ms ->
  aggregating o p t (sstep it d) (ms ++ match p d with Some m => [m] | None => [] end).
Proof.
  intros Hinl Hscalar (Hb & Hc & Hty & Hn & Hk & Ha).
  unfold item_step. rewrite Hc. destruct (p d) as [m |].
  2: { rewrite app_nil_r. cbn [fst]. auto 10. }
  rewrite Hb.
  rewrite Hinl, Hty, Hscalar, Hn, Hk, (window_snoc o ms m). cbn [negb andb le_counter Z.eqb].
  destruct ((negb (skip o =? 0) && (Z.of_nat (length ms) + 1 <=? skip o))
            || (negb (take o =? 0) && (take o <=? Z.of_nat (length (swindow o ms))))).
  - cbn [fst set_state builder compare type_ count counter scalar_acc].
    rewrite length_app. cbn [length]. repeat split; auto; lia.
  - cbn [fst set_state builder compare type_ count counter scalar_acc option_map].
    rewrite !length_app, fold_left_app, Ha. cbn [length fold_left].
    repeat split; auto; try lia. f_equal. lia.
Qed.

Lemma aggregating_run o p t docs (it : @item acc) ms :
  inlinesort o = false -> scalar o = Some t ->
  aggregating o p t it ms -> aggregating o p t (srun docs it) (ms ++ matches p docs).
Proof.
  intros Hsort Hscalar. revert it ms. induction docs as [| d ds IH]; intros it ms H.
  - cbn [fold_left matches]. now rewrite app_nil_r.
  - cbn [fold_left matches].
    pose proof (aggregating_step o p t it ms d Hsort Hscalar H) as Hstep.
    destruct (p d) as [m |].
    + change (m :: matches p ds) with ([m] ++ matches p ds). rewrite app_assoc.
      apply IH, Hstep.
    + rewrite app_nil_r in Hstep. apply IH, Hstep.
Qed.

Lemma aggregating_init o p t : aggregating o p t (@new_item acc o p (Some 0)) (@nil doc).
Proof.
  cbn. destruct (take o =? 0); rewrite ?skipn_nil, ?firstn_nil; cbn; repeat split.
Qed.

Lemma or_zero_summable (m : doc) :
  summable field m -> or_zero (get m field) = Some (JS.Num (number_of (get m field))).
Proof.
  unfold or_zero. intros [[z ->] | H].
  - cbn [truthy number_of]. destruct (Z.eqb_spec z 0) as [-> | _]; reflexivity.
  - rewrite H. destruct (get m field) as [| | b | [z |] | s | d | j]; try reflexivity;
      try discriminate H.
    cbn [truthy] in H. apply negb_false_iff in H. apply Z.eqb_eq in H. now subst z.
Qed.

Lemma add_number (k z : Z) : add (SNum (JS.Num k)) (JS.Num z) = SNum (JS.Num (k + z)).
Proof.
  cbn [add num_truthy JS.plus]. destruct (Z.eqb_spec k 0) as [-> | _]; reflexivity.
Qed.

Lemma folded_count_from (w : list doc) (k n : Z) :
  fold_left (fun a m => scalar_step field count_ m a) w (Some (mkacc (SNum (JS.Num k)) n))
  = Some (mkacc (SNum (JS.Num (k + Z.of_nat (length w)))) n).
Proof.
  revert k. induction w as [| m r IH]; intros k.
  - cbn. now rewrite Z.add_0_r.
  - cbn [fold_left length]. unfold scalar_step at 2. cbn [state item_scalar item_scalarcount].
    rewrite add_number, IH. do 4 f_equal. lia.
Qed.

Lemma folded_sum_from (w : list doc) (k n : Z) :
  Forall (summable field) w ->
  fold_left (fun a m => scalar_step field sum_ m a) w (Some (mkacc (SNum (JS.Num k)) n))
  = Some (mkacc (SNum (JS.Num (k + total (map (fun m => number_of (get m field)) w)))) n).
Proof.
  intros H. revert k. induction H as [| m r Hm _ IH]; intros k.
  - cbn. now rewrite Z.add_0_r.
  - cbn [fold_left map]. unfold scalar_step at 2. cbn [state item_scalar item_scalarcount].
    rewrite (or_zero_summable m Hm), add_number, IH. do 4 f_equal.
    unfold total. cbn [fold_right]. lia.
Qed.

Lemma nonzero_value (m : doc) :
  nonzero field m ->
  get m field = VNum (JS.Num (number_of (get m field))) /\ number_of (get m field) <> 0.
Proof. intros (z & -> & Hz). now split. Qed.

Lemma folded_min_from (w : list doc) (k n : Z) :
  k <> 0 -> Forall (nonzero field) w ->
  fold_left (fun a m => scalar_step field min_ m a) w (Some (mkacc (SNum (JS.Num k)) n))
  = Some (mkacc (SNum (JS.Num (fold_left Z.min (map (fun m => number_of (get m field)) w) k))) n).
Proof.
  intros Hk H. revert k Hk. induction H as [| m r Hm _ IH]; intros k Hk; [reflexivity |].
  cbn [fold_left map]. unfold scalar_step at 2. cbn [state item_scalar item_scalarcount].
  destruct (nonzero_value m Hm) as [Hv Hz]. rewrite Hv at 1.
  unfold or_zero. cbn [truthy lower num_truthy JS.gt].
  apply Z.eqb_neq in Hz as Hz'. apply Z.eqb_neq in Hk as Hk'. rewrite Hz', Hk'. cbn [negb].
  destruct (Z.ltb_spec (number_of (get m field)) k).
  - rewrite IH by exact Hz. now rewrite Z.min_r by lia.
  - rewrite IH by exact Hk. now rewrite Z.min_l by lia.
Qed.

Lemma folded_max_from (w : list doc) (k n : Z) :
  k <> 0 -> Forall (nonzero field) w ->
  fold_left (fun a m => scalar_step field max_ m a) w (Some (mkacc (SNum (JS.Num k)) n))
  = Some (mkacc (SNum (JS.Num (fold_left Z.max (map (fun m => number_of (get m field)) w) k))) n).
Proof.
  intros Hk H. revert k Hk. induction H as [| m r Hm _ IH]; intros k Hk; [reflexivity |].
  cbn [fold_left map]. unfold scalar_step at 2. cbn [state item_scalar item_scalarcount].
  destruct (nonzero_value m Hm) as [Hv Hz]. rewrite Hv at 1.
  cbn [higher num_truthy JS.lt JS.gt].
  apply Z.eqb_neq in Hk as Hk'. rewrite Hk'. cbn [negb].
  destruct (Z.ltb_spec k (number_of (get m field))).
  - rewrite IH by exact Hz. now rewrite Z.max_r by lia.
  - rewrite IH by exact Hk. now rewrite Z.max_l by lia.
Qed.

(** A scalar query that is not sorted aggregates over the matching
    documents that [skip] and [take] let through. An empty selection
    leaves the result undefined. Otherwise [count] gives the number of
    selected documents; [sum] the sum of the field, when it holds an
    integer or something falsy in each of them; [min] and [max] the least
    and the greatest value of the field, when it holds an integer other
    than 0 in each of them. The numbers are safe integers: the number of
    selected documents for [count], the magnitudes of the values added up
    for [sum], each value for [min] and [max]. The field is no name that
    an object literal inherits (a document without the field would hold
    the inherited value under it), and no reader queued before this one
    throws in [fs.$callback] (after which no callback is called). *)
Theorem scalar_aggregates (items : list (@item acc)) (i : nat) (o : options)
    (p : doc -> option doc) (docs : list doc) (t : scalartype) :
  nth_error items i = Some (new_item o p (Some 0)) ->
  first o = false -> sort_truthy o = false -> scalar o = Some t ->
  JS.own_key field ->
  thrown_before COMPARER quicksort (scalar_step field) i items docs = false ->
  let w := swindow o (matches p docs) in
  let vs := map (fun m => number_of (get m field)) w in
  exists a,
    nth_error (reader2 COMPARER quicksort (scalar_step field) items docs) i = Some (Scalar a)
    /\ (w = [] -> a = None)
    /\ (w <> [] -> t = count_ -> JS.safe_integer (Z.of_nat (length w)) ->
        item_scalar (state a) = SNum (JS.Num (Z.of_nat (length w))))
    /\ (w <> [] -> t = sum_ -> Forall (summable field) w -> JS.safe_integer (weight vs) ->
        item_scalar (state a) = SNum (JS.Num (total vs)))
    /\ (w <> [] -> t = min_ -> Forall (nonzero field) w -> Forall JS.safe_integer vs ->
        item_scalar (state a) = SNum (JS.Num (least vs)))
    /\ (w <> [] -> t = max_ -> Forall (nonzero field) w -> Forall JS.safe_integer vs ->
        item_scalar (state a) = SNum (JS.Num (greatest vs))).
Proof.
  intros Hnth Hfirst Hsort Hscalar _ Hquiet w vs.
  rewrite (reader2_whole_file COMPARER quicksort (scalar_step field) items i _ docs Hnth Hfirst
             Hquiet).
  destruct (aggregating_run o p t docs _ [] (no_sort_no_inlinesort o Hsort) Hscalar
              (aggregating_init o p t))
    as (Hb & Hc & Hty & Hn & Hk & Ha).
  cbn [app] in Ha. fold w in Ha.
  exists (folded t w). split.
  { f_equal. unfold finish, deliver. rewrite Hb, Hscalar, Hty, Ha. reflexivity. }
  split; [intros ->; reflexivity |].
  subst vs. destruct w as [| m r]; (split; [| split; [| split]]); intros Hne; try congruence;
    intros -> .
  - intros _. cbn [fold_left]. unfold scalar_step at 2.
    cbn [state item_scalar item_scalarcount add].
    rewrite folded_count_from. cbn [state item_scalar length]. do 2 f_equal. lia.
  - intros H _. apply List.Forall_cons_iff in H. destruct H as [Hm Hr].
    cbn [fold_left map]. unfold scalar_step at 2. cbn [state item_scalar item_scalarcount].
    rewrite (or_zero_summable m Hm). cbn [add].
    rewrite (folded_sum_from r _ _ Hr). cbn [state item_scalar]. reflexivity.
  - intros H _. apply List.Forall_cons_iff in H. destruct H as [Hm Hr].
    cbn [fold_left map]. unfold scalar_step at 2. cbn [state item_scalar item_scalarcount].
    destruct (nonzero_value m Hm) as [Hv Hz]. rewrite Hv at 1.
    unfold or_zero. cbn [truthy]. apply Z.eqb_neq in Hz as Hz'. rewrite Hz'. cbn [negb lower].
    rewrite (folded_min_from r _ _ Hz Hr). reflexivity.
  - intros H _. apply List.Forall_cons_iff in H. destruct H as [Hm Hr].
    cbn [fold_left map]. unfold scalar_step at 2. cbn [state item_scalar item_scalarcount].
    destruct (nonzero_value m Hm) as [Hv Hz]. rewrite Hv at 1. cbn [higher].
    rewrite (folded_max_from r _ _ Hz Hr). reflexivity.
Qed.

(** Without that condition [min] is not the minimum: a running value of
    0 is falsy and gives way to whatever comes next. *)
Example min_restarts_after_zero :
  item_scalar
    (state (fold_left (fun a m => scalar_step "n" min_ m a)
              [{["n"%string := VNum (JS.Num 5)]}; {["n"%string := VNum (JS.Num 0)]};
               {["n"%string := VNum (JS.Num 7)]}] None))
  = SNum (JS.Num 7).
Proof. vm_compute. reflexivity. Qed.

End ScalarFacts.

Lemma scalar_aggregates_witness :
  exists a,
    nth_error
      (Reader.reader2 (fun _ _ => 0) (fun _ _ l => l) (Scalar.scalar_step "n")
         [Reader.new_item (Reader.scalar_ Reader.sum_ Reader.new_builder) Some (Some 0)]
         [{["n"%string := Doc.VNum (JS.Num 5)]}; {["n"%string := Doc.VNum (JS.Num 0)]};
          {["n"%string := Doc.VNum (JS.Num 7)]}]) 0 = Some (Reader.Scalar a)
    /\ Scalar.item_scalar (Scalar.state a) = Scalar.SNum (JS.Num 12).
Proof.
  destruct (scalar_aggregates (fun _ _ => 0) (fun _ _ l => l) "n"
              [Reader.new_item (Reader.scalar_ Reader.sum_ Reader.new_builder) Some (Some 0)]
              0 (Reader.scalar_ Reader.sum_ Reader.new_builder) Some
              [{["n"%string := Doc.VNum (JS.Num 5)]}; {["n"%string := Doc.VNum (JS.Num 0)]};
               {["n"%string := Doc.VNum (JS.Num 7)]}] Reader.sum_)
    as (a & H1 & _ & _ & Hsum & _); try reflexivity.
  { intros Hin. vm_compute in Hin.
    repeat (destruct Hin as [Hin | Hin]; [discriminate Hin |]). exact Hin. }
  exists a. split; [exact H1 |].
  etransitivity; [apply Hsum | vm_compute; reflexivity].
  - vm_compute. discriminate.
  - reflexivity.
  - vm_compute.
    repeat (apply List.Forall_cons; [left; eexists; reflexivity |]). apply List.Forall_nil.
  - vm_compute. split; reflexivity.
Defined.
